(** * Verification of the shared DSP primitives of the Uhhyou plugin suite

    The development embeds the sample-level DSP code of the repository
    (delay lines, adaptive notch, serial allpass, fold shaper, envelopes,
    state-variable filters and the polyphonic voice allocator) as Rocq
    functions over IEEE 754 binary floating-point numbers, and proves the
    properties the design document states about them.

    Samples are [spec_float] values of the Standard Library's executable
    IEEE 754 specification; [template<typename Sample>] becomes a [Format]
    parameter ([binary32] for [float], [binary64] for [double]). *)

From Stdlib Require Import ZArith Bool Lia.
From Stdlib Require Import Floats.SpecFloat.
From stdpp Require Import base option list.

Local Open Scope Z_scope.

(** ** Floating-point layer *)

Module Float.

(** [template<typename Sample>]: the two instantiations the plugins use. *)
Variant Format := binary32 | binary64.
Existing Class Format.

Definition prec (F : Format) : Z :=
  match F with binary32 => 24 | binary64 => 53 end.

Definition emax (F : Format) : Z :=
  match F with binary32 => 128 | binary64 => 1024 end.

Abbreviation Sample := spec_float.

Section Ops.
Context {F : Format}.

Definition fadd (x y : Sample) : Sample := SFadd (prec F) (emax F) x y.
Definition fsub (x y : Sample) : Sample := SFsub (prec F) (emax F) x y.
Definition fmul (x y : Sample) : Sample := SFmul (prec F) (emax F) x y.
Definition fdiv (x y : Sample) : Sample := SFdiv (prec F) (emax F) x y.
Definition fsqrt (x : Sample) : Sample := SFsqrt (prec F) (emax F) x.
Definition fneg (x : Sample) : Sample := SFopp x.
Definition fabs (x : Sample) : Sample := SFabs x.

(** [Sample(n)] for an integer [n]: round to nearest, ties to even. *)
Definition of_Z (z : Z) : Sample := binary_normalize (prec F) (emax F) z 0 false.

(** [Sample(d)] for a [double] literal [d]. *)
Definition of_double (d : Sample) : Sample :=
  match d with
  | S754_finite s m e => binary_round (prec F) (emax F) s m e
  | _ => d
  end.

(** [std::numeric_limits<Sample>::epsilon()], that is [2^(1 - prec)]. *)
Definition epsilon : Sample := binary_round (prec F) (emax F) false 1 (1 - prec F).

(** [Sample(std::numeric_limits<float>::epsilon())], that is [2^-23]. *)
Definition float_epsilon : Sample := binary_round (prec F) (emax F) false 1 (-23).

End Ops.

(** The comparisons of C++ on floating-point operands: every comparison
    with a NaN operand is false. *)
Definition flt (x y : Sample) : bool := SFltb x y.
Definition fle (x y : Sample) : bool := SFleb x y.
Definition feq (x y : Sample) : bool := SFeqb x y.

Definition isnan (x : Sample) : bool :=
  match x with S754_nan => true | _ => false end.

(** [std::isfinite]. *)
Definition isfinite (x : Sample) : bool :=
  match x with S754_zero _ | S754_finite _ _ _ => true | _ => false end.

Definition is_zero (x : Sample) : bool :=
  match x with S754_zero _ => true | _ => false end.

(** Sign bit; the specification's NaN carries none and counts as positive. *)
Definition signbit (x : Sample) : bool :=
  match x with
  | S754_zero s | S754_infinity s | S754_finite s _ _ => s
  | S754_nan => false
  end.

(** [std::copysign(x, y)]: the magnitude of [x] with the sign of [y]. *)
Definition copysign (x y : Sample) : Sample :=
  if signbit y then SFopp (SFabs x) else SFabs x.

(** Truncation toward zero of a finite value, as an integer. *)
Definition ftrunc (x : Sample) : option Z :=
  match x with
  | S754_zero _ => Some 0
  | S754_finite s m e => Some (cond_Zopp s (Z.shiftl (Zpos m) e))
  | _ => None
  end.

Definition INT_MIN : Z := - 2 ^ 31.
Definition INT_MAX : Z := 2 ^ 31 - 1.

(** [int(x)]: defined when the truncated value fits an [int]; the result
    of the conversion is otherwise not defined by the language. *)
Definition to_int (x : Sample) : option Z :=
  z ← ftrunc x; if decide (INT_MIN <= z <= INT_MAX) then Some z else None.

(** [std::floor]. *)
Definition ffloor {F : Format} (x : Sample) : Sample :=
  match x with
  | S754_finite s m e =>
      if 0 <=? e then x
      else binary_normalize (prec F) (emax F)
             (Z.shiftl (cond_Zopp s (Zpos m)) e) 0 s
  | _ => x
  end.

(** [std::min(a, b)] and [std::max(a, b)]. *)
Definition fmin (a b : Sample) : Sample := if flt b a then b else a.
Definition fmax (a b : Sample) : Sample := if flt a b then b else a.

(** [std::clamp(v, lo, hi)], which requires [!(hi < lo)]; libstdc++
    computes it as [std::min(std::max(v, lo), hi)]. *)
Definition clamp (v lo hi : Sample) : Sample := fmin (fmax v lo) hi.

(** [lo <= x <= hi]; false for a NaN. *)
Definition in_range (lo hi x : Sample) : bool := fle lo x && fle x hi.

End Float.

Export Float.

Declare Scope fl_scope.
Delimit Scope fl_scope with fl.
Infix "+" := fadd : fl_scope.
Infix "-" := fsub : fl_scope.
Infix "*" := fmul : fl_scope.
Infix "/" := fdiv : fl_scope.
Notation "- x" := (fneg x) : fl_scope.
Infix "<?" := flt : fl_scope.
Infix "<=?" := fle : fl_scope.
Infix "=?" := feq : fl_scope.

Local Open Scope fl_scope.

(** ** The parts of the C++ standard library the DSP code calls *)

Module Std.
Section Std.
Context {F : Format}.

(** [std::lerp(a, b, t)] is a parameter of the code that calls it. This
    is the algorithm of P0811 as libstdc++ and libc++ implement it, for
    the examples. *)
Definition lerp (a b t : Sample) : Sample :=
  if ((a <=? of_Z 0) && (of_Z 0 <=? b)) || ((of_Z 0 <=? a) && (b <=? of_Z 0))
  then t * b + (of_Z 1 - t) * a
  else if t =? of_Z 1 then b
  else
    let x := a + t * (b - a) in
    if Bool.eqb (of_Z 1 <? t) (a <? b)
    then (if b <? x then x else b)
    else (if x <? b then x else b).

(** [std::accumulate(first, last, init)]. *)
Definition accumulate (l : list Sample) (init : Sample) : Sample :=
  fold_left fadd l init.

End Std.

(** Reading and writing [v[i]] for an [int] index; an index outside the
    vector is undefined behaviour ([None]). *)
Definition load {A} (v : list A) (i : Z) : option A :=
  if decide (0 <= i)%Z then v !! Z.to_nat i else None.

Definition store {A} (v : list A) (i : Z) (x : A) : option (list A) :=
  if decide (0 <= i < Z.of_nat (length v))%Z
  then Some (<[Z.to_nat i := x]> v) else None.

(** [size_t(x)] for a floating-point [x]: defined for a value that
    truncates to a non-negative integer below [2^64]. *)
Definition to_size_t (x : Sample) : option Z :=
  z ← ftrunc x; if decide (0 <= z < 2 ^ 64)%Z then Some z else None.

End Std.

(** ** DoubleLoopCymbal/source/dsp/delay.hpp *)

Module DoubleLoopCymbal.

Module ExpDecay.
Record t := mk { value : Sample; alpha : Sample }.

Section Methods.
Context {F : Format}.
(** [std::pow] of the C mathematical library. *)
Variable pow : Sample -> Sample -> Sample.

Definition init : t := {| value := of_Z 0; alpha := of_Z 0 |}.

Definition setTime (s : t) (decayTimeInSamples : Sample) (sustain : bool) : t :=
  let eps := float_epsilon in
  {| value := value s;
     alpha := if sustain then of_Z 1 else pow eps (of_Z 1 / decayTimeInSamples) |}.

Definition reset (s : t) : t := {| value := of_Z 0; alpha := alpha s |}.
Definition trigger (s : t) (gain : Sample) : t := {| value := gain; alpha := alpha s |}.
Definition process (s : t) : Sample * t :=
  let v := value s * alpha s in (v, {| value := v; alpha := alpha s |}).
End Methods.
End ExpDecay.

Module ExpDSREnvelope.
Variant State := decay | release.
Record t := mk {
  value : Sample; alphaD : Sample; alphaR : Sample; offset : Sample; state : State }.

Section Methods.
Context {F : Format}.
Variable pow : Sample -> Sample -> Sample.

Definition init : t :=
  {| value := of_Z 0; alphaD := of_Z 0; alphaR := of_Z 0; offset := of_Z 0;
     state := release |}.

Definition setTime (s : t) (decayTimeInSamples releaseTimeInSamples : Sample) : t :=
  let eps := float_epsilon in
  {| value := value s;
     alphaD := pow eps (of_Z 1 / decayTimeInSamples);
     alphaR := pow eps (of_Z 1 / releaseTimeInSamples);
     offset := offset s; state := state s |}.

Definition reset (s : t) : t :=
  {| value := of_Z 0; alphaD := of_Z 0; alphaR := of_Z 0; offset := of_Z 0;
     state := release |}.

Definition trigger (s : t) (sustainLevel : Sample) : t :=
  {| value := of_Z 1 - sustainLevel; alphaD := alphaD s; alphaR := alphaR s;
     offset := sustainLevel; state := decay |}.

Definition do_release (s : t) : t :=
  {| value := value s; alphaD := alphaD s; alphaR := alphaR s;
     offset := of_Z 0; state := release |}.

Definition process (s : t) : Sample * t :=
  match state s with
  | decay =>
      let v := value s * alphaD s in
      (offset s + v,
       {| value := v; alphaD := alphaD s; alphaR := alphaR s;
          offset := offset s; state := state s |})
  | release =>
      let v := value s * alphaR s in
      (v, {| value := v; alphaD := alphaD s; alphaR := alphaR s;
             offset := offset s; state := state s |})
  end.
End Methods.
End ExpDSREnvelope.

Module TransitionReleaseSmoother.
Record t := mk { v0 : Sample; decay : Sample }.

Section Methods.
Context {F : Format}.
Variable pow : Sample -> Sample -> Sample.

Definition setup (s : t) (decaySamples : Sample) : t :=
  {| v0 := v0 s; decay := pow epsilon (of_Z 1 / decaySamples) |}.
Definition reset (s : t) : t := {| v0 := of_Z 0; decay := decay s |}.
Definition prepare (s : t) (value decaySamples : Sample) : t :=
  {| v0 := v0 s + value; decay := pow epsilon (of_Z 1 / decaySamples) |}.
Definition process (s : t) : Sample * t :=
  let v := v0 s * decay s in (v, {| v0 := v; decay := decay s |}).
End Methods.
End TransitionReleaseSmoother.

Module ExpADEnvelope.
Record t := mk {
  targetGain : Sample; velocity : Sample; gain : Sample; smoo : Sample;
  valueA : Sample; alphaA : Sample; valueD : Sample; alphaD : Sample }.

Section Methods.
Context {F : Format}.

(** [Sample(1e-3)]. *)
Definition threshold : Sample :=
  of_double (S754_finite false 4611686018427388 (-62)).

Definition isTerminated (s : t) : bool := valueD s <=? threshold.

Definition setup (s : t) (smoothingKp : Sample) : t :=
  {| targetGain := targetGain s; velocity := velocity s; gain := gain s;
     smoo := smoothingKp; valueA := valueA s; alphaA := alphaA s;
     valueD := valueD s; alphaD := alphaD s |}.

Definition reset (s : t) : t :=
  {| targetGain := of_Z 0; velocity := velocity s; gain := of_Z 1;
     smoo := smoo s; valueA := of_Z 0; alphaA := of_Z 0;
     valueD := of_Z 0; alphaD := of_Z 0 |}.

Definition process (s : t) : Sample * t :=
  let gain' := gain s + smoo s * (targetGain s - gain s) in
  let valueA' := valueA s * alphaA s in
  let valueD' := valueD s * alphaD s in
  (velocity s * gain' * (of_Z 1 - valueA') * valueD',
   {| targetGain := targetGain s; velocity := velocity s; gain := gain';
      smoo := smoo s; valueA := valueA'; alphaA := alphaA s;
      valueD := valueD'; alphaD := alphaD s |}).
End Methods.
End ExpADEnvelope.

Section Interp.
Context {F : Format}.

Definition lagrange3Interp (y0 y1 y2 y3 t : Sample) : Sample :=
  let u := of_Z 1 + t in
  let d0 := y0 - y1 in
  let d1 := d0 - (y1 - y2) in
  let d2 := d1 - ((y1 - y2) - (y2 - y3)) in
  y0 - u * (d0 + (of_Z 1 - u) / of_Z 2 * (d1 + (of_Z 2 - u) / of_Z 3 * d2)).

End Interp.

Module Delay.
Record t := mk { wptr : Z; buf : list Sample }.

Section Methods.
Context {F : Format}.

Definition init : t := {| wptr := 0; buf := [of_Z 0; of_Z 0] |}.

(** [std::fill(buf.begin(), buf.end(), Sample(0))]. *)
Definition reset (d : t) : t :=
  {| wptr := wptr d; buf := replicate (length (buf d)) (of_Z 0) |}.

(** [buf.resize(std::max(size_t(4), size_t(maxTimeSamples) + 4)); reset();] *)
Definition setup (d : t) (maxTimeSamples : Sample) : option t :=
  n ← Std.to_size_t maxTimeSamples;
  let size := Z.to_nat (Z.max 4 (n + 4)) in
  Some (reset {| wptr := wptr d; buf := resize size (of_Z 0) (buf d) |}).

Definition applyGain (d : t) (gain : Sample) : t :=
  {| wptr := wptr d; buf := (fun x => x * gain) <$> buf d |}.

(** [if (rptr < 0) rptr += size;] *)
Definition wrap (size rptr : Z) : Z :=
  if decide (rptr < 0)%Z then (rptr + size)%Z else rptr.

(** The four read pointers of [process] for write pointer [w]. *)
Definition rptrs (size w timeInt : Z) : Z * Z * Z * Z :=
  let rptr0 := (w - timeInt)%Z in
  (wrap size rptr0, wrap size (rptr0 - 1), wrap size (rptr0 - 2),
   wrap size (rptr0 - 3)).

(** [const int clamped = std::clamp(timeInSamples - Sample(1), Sample(1),
    Sample(size - 4));]: the clamped time is converted to [int]. *)
Definition clampedTime (size : Z) (timeInSamples : Sample) : option Z :=
  to_int (clamp (timeInSamples - of_Z 1) (of_Z 1) (of_Z (size - 4))).

(** [if (++wptr >= size) wptr = 0;] *)
Definition advance (size w : Z) : Z :=
  if decide (w + 1 >= size)%Z then 0%Z else (w + 1)%Z.

Definition process (d : t) (input timeInSamples : Sample) : option (Sample * t) :=
  let size := Z.of_nat (length (buf d)) in
  clamped ← clampedTime size timeInSamples;
  let timeInt := clamped in
  let rFraction := of_Z clamped - of_Z timeInt in
  let wptr' := advance size (wptr d) in
  buf' ← Std.store (buf d) wptr' input;
  let '(rptr0, rptr1, rptr2, rptr3) := rptrs size wptr' timeInt in
  y0 ← Std.load buf' rptr0;
  y1 ← Std.load buf' rptr1;
  y2 ← Std.load buf' rptr2;
  y3 ← Std.load buf' rptr3;
  Some (lagrange3Interp y0 y1 y2 y3 rFraction, {| wptr := wptr'; buf := buf' |}).

End Methods.
End Delay.

(** Literals of the filters, as [double] constants. *)
Definition double_0_00001 : Sample := S754_finite false 5902958103587057 (-69).
Definition double_0_49998 : Sample := S754_finite false 9006838966770802 (-54).
Definition double_sqrt1_2 : Sample := S754_finite false 6369051672525773 (-53).
Definition double_pi : Sample := S754_finite false 7074237752028440 (-51).

Module Highpass2.
Record t := mk { ic1eq : Sample; ic2eq : Sample }.

Section Methods.
Context {F : Format}.
(** [std::tan] of the C mathematical library. *)
Variable tan : Sample -> Sample.

Definition k : Sample := of_double double_sqrt1_2.
Definition pi : Sample := of_double double_pi.
Definition minCutoff : Sample := of_double double_0_00001.
Definition nyquist : Sample := of_double double_0_49998.

Definition init : t := {| ic1eq := of_Z 0; ic2eq := of_Z 0 |}.
Definition reset (s : t) : t := {| ic1eq := of_Z 0; ic2eq := of_Z 0 |}.

(** The frequency coefficient [g] of [process]. *)
Definition g (cutoffNormalized : Sample) : Sample :=
  tan (pi * clamp cutoffNormalized minCutoff nyquist).

Definition process (s : t) (input cutoffNormalized : Sample) : Sample * t :=
  let g := g cutoffNormalized in
  let v1 := (ic1eq s + g * (input - ic2eq s)) / (of_Z 1 + g * (g + k)) in
  let v2 := ic2eq s + g * v1 in
  (input - k * v1 - v2,
   {| ic1eq := of_Z 2 * v1 - ic1eq s; ic2eq := of_Z 2 * v2 - ic2eq s |}).
End Methods.
End Highpass2.

Module EmaHighShelf.
Record t := mk { value : Sample }.
Section Methods.
Context {F : Format}.
(** [std::lerp]. *)
Variable lerp : Sample -> Sample -> Sample -> Sample.
Definition reset (s : t) : t := {| value := of_Z 0 |}.
Definition process (s : t) (input kp shelvingGain : Sample) : Sample * t :=
  let v := value s + kp * (input - value s) in
  (lerp v input shelvingGain, {| value := v |}).
End Methods.
End EmaHighShelf.

Module EmaLowShelf.
Record t := mk { value : Sample }.
Section Methods.
Context {F : Format}.
(** [std::lerp]. *)
Variable lerp : Sample -> Sample -> Sample -> Sample.
Definition reset (s : t) : t := {| value := of_Z 0 |}.
Definition process (s : t) (input kp shelvingGain : Sample) : Sample * t :=
  let v := value s + kp * (input - value s) in
  (lerp (input - v) input shelvingGain, {| value := v |}).
End Methods.
End EmaLowShelf.

Module AdaptiveNotchCPZ.
Record t := mk { alpha : Sample; v1 : Sample; v2 : Sample }.

Section Methods.
Context {F : Format}.

Definition mu : Sample := of_Z 2 / of_Z 1024.
Definition bound : Sample := of_Z 2.
Definition clip : Sample := of_Z 1 / epsilon.

Definition init : t := {| alpha := of_Z (-2); v1 := of_Z 0; v2 := of_Z 0 |}.

Definition reset (s : t) : t :=
  {| alpha := of_Z (-2); v1 := of_Z 0; v2 := of_Z 0 |}.

(** The intermediate signals of [process]: the state input [v0], the
    two-pole output [y0] and the error signal [s0]. *)
Definition signals (s : t) (input narrowness : Sample) : Sample * Sample * Sample :=
  let a1 := narrowness * alpha s in
  let a2 := narrowness * narrowness in
  let x0 := clamp input (- clip) clip in
  let v0 := x0 - a1 * v1 s - a2 * v2 s in
  let y0 := v0 + alpha s * v1 s + v2 s in
  let s0 := (of_Z 1 - narrowness) * v0
            - narrowness * (of_Z 1 - narrowness) * v2 s in
  (v0, y0, s0).

Definition process (s : t) (input narrowness : Sample) : Sample * t :=
  let a1 := narrowness * alpha s in
  let a2 := narrowness * narrowness in
  let gain :=
    if of_Z 0 <=? alpha s
    then (of_Z 1 + a1 + a2) / (of_Z 2 + alpha s)
    else (of_Z 1 - a1 + a2) / (of_Z 2 - alpha s) in
  let '(v0, y0, s0) := signals s input narrowness in
  (y0 * gain,
   {| alpha := clamp (alpha s - y0 * s0 * mu) (- bound) bound;
      v1 := v0; v2 := v1 s |}).

(** The filter state after a sequence of calls of [process], one per
    (input, narrowness) pair. *)
Definition run (s : t) (calls : list (Sample * Sample)) : t :=
  fold_left (fun s c => snd (process s c.1 c.2)) calls s.

End Methods.
End AdaptiveNotchCPZ.

Module SerialAllpass.
(** [nAllpass] is the common length of [buffer], [delay], [lowpass],
    [highpass] and [timeInSamples]; [nAdaptiveNotch] that of [notch]. *)
Record t := mk {
  buffer : list Sample;
  delay : list Delay.t;
  lowpass : list EmaHighShelf.t;
  highpass : list EmaLowShelf.t;
  notch : list AdaptiveNotchCPZ.t;
  timeInSamples : list Sample }.

Section Methods.
Context {F : Format}.
(** [std::lerp]. *)
Variable lerp : Sample -> Sample -> Sample -> Sample.

Definition nAllpass (s : t) : Z := Z.of_nat (length (buffer s)).

(** [for (auto &x : delay) x.setup(maxTimeSamples);] *)
Definition setup (s : t) (maxTimeSamples : Sample) : option t :=
  delay' ← mapM (fun d => Delay.setup d maxTimeSamples) (delay s);
  Some {| buffer := buffer s; delay := delay'; lowpass := lowpass s;
          highpass := highpass s; notch := notch s;
          timeInSamples := timeInSamples s |}.

Definition reset (s : t) : t :=
  {| buffer := replicate (length (buffer s)) (of_Z 0);
     delay := Delay.reset <$> delay s;
     lowpass := EmaHighShelf.reset <$> lowpass s;
     highpass := EmaLowShelf.reset <$> highpass s;
     notch := AdaptiveNotchCPZ.reset <$> notch s;
     timeInSamples := timeInSamples s |}.

Definition applyGain (s : t) (gain : Sample) : t :=
  {| buffer := buffer s;
     delay := (fun d => Delay.applyGain d gain) <$> delay s;
     lowpass := lowpass s; highpass := highpass s; notch := notch s;
     timeInSamples := timeInSamples s |}.

(** One turn of the loop of [sum] over the state [(sumAlt, sign)]. *)
Definition sumAlt_step (st : Sample * Sample) (x : Sample) : Sample * Sample :=
  (st.1 + x * st.2, - st.2).

Definition sumAlt (buffer : list Sample) : Sample :=
  (fold_left sumAlt_step buffer (of_Z 0, of_Z 1)).1.

Definition sumDirect (buffer : list Sample) : Sample :=
  Std.accumulate buffer (of_Z 0).

Definition sum (s : t) (altSignMix : Sample) : Sample :=
  lerp (sumDirect (buffer s)) (sumAlt (buffer s)) altSignMix
  / (of_Z 2 * of_Z (nAllpass s)).

(** One turn of the first loop of [process], over the signal and the
    chain; [sign] is the constant 1. *)
Definition allpass_step
  (highShelfCut highShelfGain lowShelfCut lowShelfGain gain pitchRatio
     timeModAmount : Sample)
  (acc : option (Sample * t)) (idx : nat) : option (Sample * t) :=
  '(input, s) ← acc;
  lp ← lowpass s !! idx;
  hp ← highpass s !! idx;
  b ← buffer s !! idx;
  d ← delay s !! idx;
  time ← timeInSamples s !! idx;
  let '(x0, lp') :=
    EmaHighShelf.process lerp lp (of_Z 1 * input) highShelfCut highShelfGain in
  let '(x0, hp') := EmaLowShelf.process lerp hp x0 lowShelfCut lowShelfGain in
  let x0 := x0 - gain * b in
  let input' := b + gain * x0 in
  '(y, d') ← Delay.process d x0 (time / pitchRatio - timeModAmount * fabs x0);
  Some (input',
        {| buffer := <[idx := y]> (buffer s);
           delay := <[idx := d']> (delay s);
           lowpass := <[idx := lp']> (lowpass s);
           highpass := <[idx := hp']> (highpass s);
           notch := notch s;
           timeInSamples := timeInSamples s |}).

(** One turn of the second loop, over the notch filters. *)
Definition notch_step (notchMix notchNarrowness : Sample)
  (acc : option (Sample * t)) (idx : nat) : option (Sample * t) :=
  '(input, s) ← acc;
  nf ← notch s !! idx;
  let '(y, nf') := AdaptiveNotchCPZ.process nf input notchNarrowness in
  Some (input + notchMix * (y - input),
        {| buffer := buffer s; delay := delay s; lowpass := lowpass s;
           highpass := highpass s; notch := <[idx := nf']> (notch s);
           timeInSamples := timeInSamples s |}).

Definition process (s : t)
  (input highShelfCut highShelfGain lowShelfCut lowShelfGain gain pitchRatio
     timeModAmount : Sample)
  (nNotch : nat) (notchMix notchNarrowness : Sample) : option (Sample * t) :=
  let acc :=
    fold_left
      (allpass_step highShelfCut highShelfGain lowShelfCut lowShelfGain gain
         pitchRatio timeModAmount)
      (seq 0 (length (buffer s))) (Some (input, s)) in
  fold_left (notch_step notchMix notchNarrowness) (seq 0 nNotch) acc.

End Methods.
End SerialAllpass.

Module HalfClosedNoise.
Record t := mk {
  phase : Sample; gain : Sample; decay : Sample; highpass : Highpass2.t }.

Section Methods.
Context {F : Format}.
Variable pow : Sample -> Sample -> Sample.

Definition reset (s : t) : t :=
  {| phase := of_Z 0; gain := of_Z 1; decay := decay s;
     highpass := Highpass2.reset (highpass s) |}.

Definition setDecay (s : t) (timeInSample : Sample) : t :=
  {| phase := phase s; gain := gain s;
     decay := if timeInSample <? of_Z 1 then of_Z 0
              else pow epsilon (of_Z 1 / timeInSample);
     highpass := highpass s |}.
End Methods.
End HalfClosedNoise.

End DoubleLoopCymbal.

(** ** FoldShaper/source/dsp/foldshaper.hpp *)

Module FoldShaper.

(** The constants of [Fir16FoldUpSample], the polyphase FIR kernel of the
    16-fold upsampler. *)
Module Fir16FoldUpSample.
Definition bufferSize : Z := 32.
Definition intDelay : Z := 15.
Definition upfold : Z := 16.
End Fir16FoldUpSample.

Section SafeClip.
Context {F : Format}.

Definition safeClip (input : Sample) : Sample :=
  if isfinite input then clamp input (of_Z (-1024)) (of_Z 1024) else of_Z 0.

End SafeClip.

(** The shaper owns its three multirate stages; their classes
    ([FirUpSampler], [DecimationLowpass], [HalfBandIIR]) are type
    parameters here. *)
Record t (Up Low Half : Type) := mk {
  gain : Sample;
  multiply : Sample;
  hardclip : bool;
  upSampler : Up;
  lowpass : Low;
  halfbandIir : Half }.
Arguments mk {Up Low Half}.
Arguments gain {Up Low Half}.
Arguments multiply {Up Low Half}.
Arguments hardclip {Up Low Half}.
Arguments upSampler {Up Low Half}.
Arguments lowpass {Up Low Half}.
Arguments halfbandIir {Up Low Half}.

Section Methods.
Context {F : Format} {Up Low Half : Type}.
Variable pow : Sample -> Sample -> Sample.
(** What [int(x)] yields on the target for an [x] that no [int]
    represents (the language leaves it undefined). *)
Variable int_unrepresentable : Sample -> Z.

Definition int_cast (x : Sample) : Z :=
  default (int_unrepresentable x) (to_int x).

Definition latency (s : t Up Low Half) : Z := Fir16FoldUpSample.intDelay.

(** The value [process] hands to [safeClip]. *)
Definition fold (s : t Up Low Half) (x0 : Sample) : Sample :=
  let x0 := if hardclip s then clamp x0 (of_Z (-1)) (of_Z 1) else x0 in
  let absed := fabs (x0 * gain s) in
  let floored := ffloor absed in
  let mul := pow (multiply s) floored in
  if decide (Z.rem (int_cast floored) 2 = 1)%Z then
    copysign (of_Z 1) x0 - copysign (mul * (absed - floored)) x0
  else if of_Z 1 <=? floored then
    copysign (mul * (absed - floored) + (of_Z 1 - mul / multiply s)) x0
  else
    copysign (mul * (absed - floored) + (of_Z 1 - mul)) x0.

Definition process (s : t Up Low Half) (x0 : Sample) : Sample :=
  safeClip (fold s x0).

End Methods.
End FoldShaper.

(** ** GrowlSynth/source/dsp/filter.hpp *)

Module GrowlSynth.

Definition double_minCutoff : Sample := DoubleLoopCymbal.double_0_00001.
Definition double_nyquist : Sample := DoubleLoopCymbal.double_0_49998.

Section Constants.
Context {F : Format}.
Definition minCutoff : Sample := of_double double_minCutoff.
Definition nyquist : Sample := of_double double_nyquist.
Definition pi : Sample := of_double DoubleLoopCymbal.double_pi.
End Constants.

(** The values the [ASSIGN_COEFFICINETS] macros of the one-pole filters
    hand to their smoothers. *)
Module LP1.
Section Methods.
Context {F : Format}.
Variable tan : Sample -> Sample.
Definition k (cutoffNormalized : Sample) : Sample :=
  let cutoff := clamp cutoffNormalized minCutoff nyquist in
  of_Z 1 / tan (pi * cutoff).
(** [(bn, a1)]. *)
Definition coefficients (cutoffNormalized : Sample) : Sample * Sample :=
  let k := k cutoffNormalized in
  let a0 := of_Z 1 + k in
  (of_Z 1 / a0, (k - of_Z 1) / a0).
End Methods.
End LP1.

Module HP1.
Section Methods.
Context {F : Format}.
Variable tan : Sample -> Sample.
Definition k (cutoffNormalized : Sample) : Sample :=
  let cutoff := clamp cutoffNormalized minCutoff nyquist in
  of_Z 1 / tan (pi * cutoff).
(** [(b0, a1)]. *)
Definition coefficients (cutoffNormalized : Sample) : Sample * Sample :=
  let k := k cutoffNormalized in
  let a0 := of_Z 1 + k in
  (k / a0, (of_Z 1 - k) / a0).
End Methods.
End HP1.

Module AP1.
Section Methods.
Context {F : Format}.
Variable tan : Sample -> Sample.
Definition k (cutoffNormalized : Sample) : Sample :=
  let cutoff := clamp cutoffNormalized minCutoff nyquist in
  of_Z 1 / tan (pi * cutoff).
(** [a]. *)
Definition coefficients (cutoffNormalized : Sample) : Sample :=
  let k := k cutoffNormalized in
  (k - of_Z 1) / (k + of_Z 1).
End Methods.
End AP1.

Module SVFTool.
Variant SVFType :=
  lowpass | bandpass | highpass | notch | peak | allpass | bell | lowshelf
  | highshelf.

(** The enumerators as [size_t] values. *)
Definition index (ty : SVFType) : Z :=
  match ty with
  | lowpass => 0 | bandpass => 1 | highpass => 2 | notch => 3 | peak => 4
  | allpass => 5 | bell => 6 | lowshelf => 7 | highshelf => 8
  end.
End SVFTool.

Module SVF.
Import SVFTool.
Record t := mk { s1 : Sample; s2 : Sample }.

Section Methods.
Context {F : Format}.
Variable tan : Sample -> Sample.
(** The template parameter [type]. *)
Variable type : SVFType.

Definition init : t := {| s1 := of_Z 0; s2 := of_Z 0 |}.
Definition reset (s : t) : t := {| s1 := of_Z 0; s2 := of_Z 0 |}.

(** The coefficients of [process]. *)
Definition A (shelvingGainAmp : Sample) : Sample :=
  if decide (index bell <= index type)%Z then fsqrt shelvingGainAmp else of_Z 1.

Definition g (normalizedFreq A : Sample) : Sample :=
  let g := tan (clamp normalizedFreq minCutoff nyquist * pi) in
  match type with
  | lowshelf => g / fsqrt A
  | highshelf => g * fsqrt A
  | _ => g
  end.

Definition k (Q A : Sample) : Sample :=
  let k := of_Z 1 / Q in
  match type with
  | bell => k / A
  | _ => k
  end.

Definition process (s : t) (v0 normalizedFreq Q shelvingGainAmp : Sample)
  : Sample * t :=
  let A := A shelvingGainAmp in
  let g := g normalizedFreq A in
  let k := k Q A in
  let v1 := (s1 s + g * (v0 - s2 s)) / (of_Z 1 + g * (g + k)) in
  let v2 := s2 s + g * v1 in
  let s' := {| s1 := of_Z 2 * v1 - s1 s; s2 := of_Z 2 * v2 - s2 s |} in
  (match type with
   | lowpass => v2
   | bandpass => v1
   | highpass => v0 - k * v1 - v2
   | notch => v0 - k * v1
   | peak => v0 - k * v1 - of_Z 2 * v2
   | allpass => v0 - of_Z 2 * k * v1
   | bell => v0 + k * (A * A - of_Z 1) * v1
   | lowshelf => v0 + (A - of_Z 1) * k * v1 + (A * A - of_Z 1) * v2
   | highshelf => A * A * (v0 - k * v1 - v2) + A * k * v1 + v2
   end, s').

End Methods.
End SVF.

(** The values the [ASSIGN_COEFFICINETS] macro of [SVFHighpass] hands to
    its smoothers [g], [k] and [d]; [g.target] and [k.target] are the
    values just handed over. *)
Module SVFHighpass.
Section Methods.
Context {F : Format}.
Variable tan : Sample -> Sample.
Definition g (freqNormalized : Sample) : Sample :=
  tan (pi * clamp freqNormalized minCutoff nyquist).
Definition k (Q : Sample) : Sample := of_Z 1 / Q.
Definition d (freqNormalized Q : Sample) : Sample :=
  let g := g freqNormalized in
  let k := k Q in
  of_Z 1 / (of_Z 1 + g * g + g * k).
End Methods.
End SVFHighpass.

Module Delay.
Record t := mk { wptr : Z; buf : list Sample }.
Section Methods.
Context {F : Format}.
Definition init : t := {| wptr := 0; buf := [of_Z 0; of_Z 0] |}.
Definition reset (d : t) : t :=
  {| wptr := wptr d; buf := replicate (length (buf d)) (of_Z 0) |}.

(** [std::lerp]. *)
Variable lerp : Sample -> Sample -> Sample -> Sample.

(** [buf.resize(std::max(size_t(2), size_t(sampleRate * maxTimeSeconds) + 1));
    reset();], the sum taken in [size_t]. *)
Definition setup (d : t) (sampleRate maxTimeSeconds : Sample) : option t :=
  n ← Std.to_size_t (sampleRate * maxTimeSeconds);
  let size := Z.to_nat (Z.max 2 ((n + 1) mod 2 ^ 64)) in
  Some (reset {| wptr := wptr d; buf := resize size (of_Z 0) (buf d) |}).

(** [clamped], [timeInt] and [rFraction] of [process]. *)
Definition readPosition (size : Z) (timeInSamples : Sample) : option (Z * Sample) :=
  let clamped := clamp timeInSamples (of_Z 0) (of_Z (size - 1)) in
  timeInt ← to_int clamped;
  Some (timeInt, clamped - of_Z timeInt).

Definition process (d : t) (input timeInSamples : Sample) : option (Sample * t) :=
  let size := Z.of_nat (length (buf d)) in
  '(timeInt, rFraction) ← readPosition size timeInSamples;
  let rptr0 := (wptr d - timeInt)%Z in
  let rptr0 := if decide (rptr0 < 0)%Z then (rptr0 + size)%Z else rptr0 in
  buf' ← Std.store (buf d) (wptr d) input;
  let wptr' := if decide (wptr d + 1 >= size)%Z then 0%Z else (wptr d + 1)%Z in
  let rptr1 := ((if decide (rptr0 <> 0)%Z then rptr0 else size) - 1)%Z in
  y0 ← Std.load buf' rptr0;
  y1 ← Std.load buf' rptr1;
  Some (lerp y0 y1 rFraction, {| wptr := wptr'; buf := buf' |}).
End Methods.
End Delay.

Module ImmediateRateLimiter.
Record t := mk { value : Sample }.
Section Methods.
Context {F : Format}.
Definition reset (s : t) (resetValue : Sample) : t := {| value := resetValue |}.
Definition process (s : t) (target rate : Sample) : Sample * t :=
  let diff := target - value s in
  let v := if rate <? fabs diff then value s + copysign rate diff else target in
  (v, {| value := v |}).
End Methods.
End ImmediateRateLimiter.

End GrowlSynth.

(** ** TestBedSynth/source/dsp/lfo.hpp and dspcore.cpp *)

Module TestBedSynth.

(** Modelled from the spec: [DoubleEMAFilter] of common/dsp/smoother.hpp,
    which is not among the sources. The design document gives every
    smoother and filter at most two persistent state scalars, zeroed
    exactly by [reset()]; [ADSREnvelope::value] reads the second one,
    [v2]. Its per-sample update [processKp] stays a parameter of the
    code that calls it. *)
Module DoubleEMAFilter.
Record t := mk { v1 : Sample; v2 : Sample }.
Section Methods.
Context {F : Format}.
Definition init : t := {| v1 := of_Z 0; v2 := of_Z 0 |}.
Definition reset (s : t) : t := {| v1 := of_Z 0; v2 := of_Z 0 |}.
End Methods.
End DoubleEMAFilter.

Module EMAHighpass.
Record t := mk { v1 : Sample }.
Section Methods.
Context {F : Format}.
Definition reset (s : t) (value : Sample) : t := {| v1 := value |}.
Definition process (s : t) (input kp : Sample) : Sample * t :=
  let v := v1 s + kp * (input - v1 s) in (input - v, {| v1 := v |}).
End Methods.
End EMAHighpass.

Module EasyLfo.
Record t := mk { phase : Sample; smoother : DoubleEMAFilter.t }.
Section Methods.
Context {F : Format}.
Variable processKp :
  DoubleEMAFilter.t -> Sample -> Sample -> Sample * DoubleEMAFilter.t.

Definition reset (s : t) : t :=
  {| phase := of_Z 0; smoother := DoubleEMAFilter.reset (smoother s) |}.

Definition process (s : t) (phaseDelta smootherKp : Sample) (table : list Sample)
  : option (Sample * t) :=
  let phase1 := phase s + phaseDelta in
  let phase2 := phase1 - ffloor phase1 in
  i ← Std.to_size_t (of_Z (Z.of_nat (length table)) * phase2);
  x ← Std.load table i;
  let '(y, sm) := processKp (smoother s) x smootherKp in
  Some (y, {| phase := phase2; smoother := sm |}).
End Methods.
End EasyLfo.

Module ADSREnvelope.
Variant State := attack | decay | release | terminated.
Record t := mk {
  state : State;
  attackLength : Z;
  counter : Z;
  atkKp : Sample;
  decKp : Sample;
  relKp : Sample;
  smoother : DoubleEMAFilter.t }.

#[global] Instance State_eq_dec : EqDecision State.
Proof. solve_decision. Defined.

Section Methods.
Context {F : Format}.
Variable processKp :
  DoubleEMAFilter.t -> Sample -> Sample -> Sample * DoubleEMAFilter.t.

Definition init : t :=
  {| state := terminated; attackLength := 0; counter := 0;
     atkKp := of_Z 1; decKp := of_Z 1; relKp := of_Z 1;
     smoother := DoubleEMAFilter.init |}.

Definition with_state (s : t) (st : State) (sm : DoubleEMAFilter.t) : t :=
  {| state := st; attackLength := attackLength s; counter := counter s;
     atkKp := atkKp s; decKp := decKp s; relKp := relKp s; smoother := sm |}.

Definition value (s : t) : Sample := DoubleEMAFilter.v2 (smoother s).
Definition isAttacking (s : t) : bool := bool_decide (state s = attack).
Definition isTerminated (s : t) : bool := bool_decide (state s = terminated).

Definition reset (s : t) : t :=
  with_state s terminated (DoubleEMAFilter.reset (smoother s)).

Definition noteOn (s : t) (attackSamples : Z) : t :=
  {| state := attack; attackLength := attackSamples; counter := 0;
     atkKp := atkKp s; decKp := decKp s; relKp := relKp s;
     smoother := DoubleEMAFilter.reset (smoother s) |}.

Definition noteOff (s : t) : t := with_state s release (smoother s).

Definition prepare (s : t) (attackKp decayKp releaseKp : Sample) : t :=
  {| state := state s; attackLength := attackLength s; counter := counter s;
     atkKp := attackKp; decKp := decayKp; relKp := releaseKp;
     smoother := smoother s |}.

(** [counter] is a [size_t]: [++counter] wraps at [2^64]. *)
Definition process (s : t) (sustainAmplitude : Sample) : Sample * t :=
  match state s with
  | attack =>
      let counter' := ((counter s + 1) mod 2 ^ 64)%Z in
      let state' := if decide (counter' >= attackLength s)%Z then decay else attack in
      let ramp := of_Z counter' / of_Z (attackLength s / 2) in
      let '(y, sm) := processKp (smoother s) (fmin ramp (of_Z 1)) (atkKp s) in
      (y, {| state := state'; attackLength := attackLength s; counter := counter';
             atkKp := atkKp s; decKp := decKp s; relKp := relKp s;
             smoother := sm |})
  | decay =>
      let '(y, sm) := processKp (smoother s) sustainAmplitude (decKp s) in
      (y, with_state s decay sm)
  | release =>
      let eps := float_epsilon in
      let '(st, sm0) :=
        if DoubleEMAFilter.v2 (smoother s) <=? eps
        then (terminated, DoubleEMAFilter.reset (smoother s))
        else (release, smoother s) in
      let '(y, sm) := processKp sm0 (of_Z 0) (relKp s) in
      (y, with_state s st sm)
  | terminated => (of_Z 0, s)
  end.

End Methods.
End ADSREnvelope.

Variant NoteState := active | release | rest.

#[global] Instance NoteState_eq_dec : EqDecision NoteState.
Proof. solve_decision. Defined.

Module Note.
(** The oscillator class is a type parameter. *)
Record t (Osc : Type) := mk {
  state : NoteState;
  id : Z;
  velocity : Sample;
  pan : Sample;
  noteHz : Sample;
  modulation : list Sample;
  feedback : list Sample;
  gainEnvelope : ADSREnvelope.t;
  envelope : list ADSREnvelope.t;
  lfo : list EasyLfo.t;
  oscillator : list Osc }.
Arguments mk {Osc}.
Arguments state {Osc}.
Arguments id {Osc}.
Arguments velocity {Osc}.
Arguments pan {Osc}.
Arguments noteHz {Osc}.
Arguments modulation {Osc}.
Arguments feedback {Osc}.
Arguments gainEnvelope {Osc}.
Arguments envelope {Osc}.
Arguments lfo {Osc}.
Arguments oscillator {Osc}.

(** A stereo frame, [std::array<float, 2>]. *)
Definition frame : Type := Sample * Sample.

Section Methods.
Context {F : Format} {Osc : Type}.
Variable processKp :
  DoubleEMAFilter.t -> Sample -> Sample -> Sample * DoubleEMAFilter.t.
(** [NoteProcessInfo], read through the accessors [process] uses. *)
Variable Info : Type.
Variable gainSustainAmplitude : Info -> Sample.
Variable envelopeSustainAmplitude : Info -> nat -> Sample.
Variable lfoPhaseDelta : Info -> nat -> Sample.
Variable lfoWavetable : Info -> nat -> list Sample.
Variable oscMix : Info -> Sample.
(** [oscillator[idx].process(sampleRate, noteHz, feedback, modulation,
    info.oscWavetable[idx].value, info.tableParam[idx])]. *)
Variable osc_process :
  Osc -> Sample -> Sample -> list Sample -> list Sample -> Info -> nat -> Sample * Osc.
Variable osc_reset : Osc -> Osc.
Variable lerp : Sample -> Sample -> Sample -> Sample.
(** [nOscillator], [ModID::env0] and [ModID::lfo0]. *)
Variables nOscillator env0 lfo0 : nat.

Definition with_state (n : t Osc) (st : NoteState) : t Osc :=
  {| state := st; id := id n; velocity := velocity n; pan := pan n;
     noteHz := noteHz n; modulation := modulation n; feedback := feedback n;
     gainEnvelope := gainEnvelope n; envelope := envelope n; lfo := lfo n;
     oscillator := oscillator n |}.

Definition with_gainEnvelope (n : t Osc) (e : ADSREnvelope.t) : t Osc :=
  {| state := state n; id := id n; velocity := velocity n; pan := pan n;
     noteHz := noteHz n; modulation := modulation n; feedback := feedback n;
     gainEnvelope := e; envelope := envelope n; lfo := lfo n;
     oscillator := oscillator n |}.

Definition noteOff (n : t Osc) : t Osc :=
  match state n with
  | rest => n
  | _ =>
      {| state := release; id := id n; velocity := velocity n; pan := pan n;
         noteHz := noteHz n; modulation := modulation n; feedback := feedback n;
         gainEnvelope := ADSREnvelope.noteOff (gainEnvelope n);
         envelope := ADSREnvelope.noteOff <$> envelope n; lfo := lfo n;
         oscillator := oscillator n |}
  end.

Definition do_rest (n : t Osc) : t Osc :=
  {| state := rest; id := -1; velocity := velocity n; pan := pan n;
     noteHz := noteHz n; modulation := modulation n; feedback := feedback n;
     gainEnvelope := gainEnvelope n; envelope := envelope n; lfo := lfo n;
     oscillator := oscillator n |}.

Definition reset (n : t Osc) : t Osc :=
  {| state := rest; id := -1; velocity := velocity n; pan := pan n;
     noteHz := noteHz n;
     modulation := replicate (length (modulation n)) (of_Z 0);
     feedback := replicate (length (feedback n)) (of_Z 0);
     gainEnvelope := ADSREnvelope.reset (gainEnvelope n);
     envelope := ADSREnvelope.reset <$> envelope n;
     lfo := EasyLfo.reset <$> lfo n;
     oscillator := osc_reset <$> oscillator n |}.

Definition isAttacking (n : t Osc) : bool :=
  ADSREnvelope.isAttacking (gainEnvelope n).

Definition getGain (n : t Osc) : Sample :=
  velocity n * ADSREnvelope.value (gainEnvelope n).

(** First loop of [process]: the envelopes and LFOs write [modulation]. *)
Definition modulate_step (info : Info) (acc : option (t Osc)) (idx : nat)
  : option (t Osc) :=
  n ← acc;
  e ← envelope n !! idx;
  l ← lfo n !! idx;
  let '(ev, e') := ADSREnvelope.process processKp e (envelopeSustainAmplitude info idx) in
  let m1 := <[(env0 + idx)%nat := ev]> (modulation n) in
  '(lv, l') ← EasyLfo.process processKp l (lfoPhaseDelta info idx) (of_Z 1)
                (lfoWavetable info idx);
  let m2 := <[(lfo0 + idx)%nat := lv]> m1 in
  Some {| state := state n; id := id n; velocity := velocity n; pan := pan n;
          noteHz := noteHz n; modulation := m2; feedback := feedback n;
          gainEnvelope := gainEnvelope n;
          envelope := <[idx := e']> (envelope n); lfo := <[idx := l']> (lfo n);
          oscillator := oscillator n |}.

(** Second loop of [process]: the oscillators write [feedback]. *)
Definition oscillate_step (sampleRate : Sample) (info : Info)
  (acc : option (t Osc)) (idx : nat) : option (t Osc) :=
  n ← acc;
  o ← oscillator n !! idx;
  let '(y, o') :=
    osc_process o sampleRate (noteHz n) (feedback n) (modulation n) info idx in
  Some {| state := state n; id := id n; velocity := velocity n; pan := pan n;
          noteHz := noteHz n; modulation := modulation n;
          feedback := <[idx := y]> (feedback n);
          gainEnvelope := gainEnvelope n; envelope := envelope n; lfo := lfo n;
          oscillator := <[idx := o']> (oscillator n) |}.

Definition silence : frame := (of_Z 0, of_Z 0).

Definition process (n : t Osc) (sampleRate : Sample) (info : Info)
  : option (frame * t Osc) :=
  if decide (state n = rest) then Some (silence, n)
  else
    let n1 :=
      with_gainEnvelope n
        (ADSREnvelope.process processKp (gainEnvelope n)
           (gainSustainAmplitude info)).2 in
    if ADSREnvelope.isTerminated (gainEnvelope n1)
    then Some (silence, with_state n1 rest)
    else
      n2 ← fold_left (modulate_step info) (seq 0 nOscillator) (Some n1);
      n3 ← fold_left (oscillate_step sampleRate info) (seq 0 nOscillator) (Some n2);
      f0 ← feedback n3 !! 0%nat;
      f1 ← feedback n3 !! 1%nat;
      let sig :=
        ADSREnvelope.value (gainEnvelope n3) * velocity n3
        * lerp f0 f1 (oscMix info) in
      Some (((of_Z 1 - pan n3) * sig, pan n3 * sig), n3).

End Methods.
End Note.

(** [std::sort] of libstdc++ (bits/stl_algo.h). On a range of at most
    [_S_threshold] elements [__introsort_loop] does nothing and
    [__final_insertion_sort] runs [__insertion_sort], whose inner loop
    is [__unguarded_linear_insert]. The sorted prefix is kept reversed,
    so that the inner loop walks it from its last element. A longer
    range is partitioned first; that part of the library is not
    embedded, and [sort] has no result there. *)
Module Sort.

(** [enum { _S_threshold = 16 };] *)
Definition S_threshold : nat := 16.

Section Sort.
Context {A : Type}.
Variable comp : A -> A -> bool.

Fixpoint unguarded_linear_insert (val : A) (rev_prefix : list A) : list A :=
  match rev_prefix with
  | [] => [val]
  | next :: before =>
      if comp val next then next :: unguarded_linear_insert val before
      else val :: rev_prefix
  end.

Definition insert (rev_prefix : list A) (val : A) : list A :=
  match last rev_prefix with
  | None => [val]
  | Some first =>
      if comp val first then rev_prefix ++ [val]
      else unguarded_linear_insert val rev_prefix
  end.

(** [std::__insertion_sort]. *)
Definition insertion_sort (l : list A) : list A := reverse (fold_left insert l []).

Definition sort (l : list A) : option (list A) :=
  if decide (length l <= S_threshold)%nat then Some (insertion_sort l) else None.

End Sort.
End Sort.

Module DSPCore.

(** The members [isTransitioning], [trIndex], [trStop] and
    [transitionBuffer]. *)
Record transition := mkTransition {
  isTransitioning : bool;
  trIndex : Z;
  trStop : Z;
  transitionBuffer : list Note.frame }.

Section Methods.
Context {F : Format} {Osc : Type}.

Definition nUnison : nat := 1.

(** The loop "pick up note from resting one" of [noteOn], from the
    indices still to visit and the [noteIndices] collected so far. *)
Fixpoint pickResting (notes : list (Note.t Osc)) (noteId : Z)
  (indices noteIndices : list nat) : list nat :=
  match indices with
  | [] => noteIndices
  | index :: indices' =>
      match notes !! index with
      | None => noteIndices
      | Some n =>
          let ni1 :=
            if decide (Note.id n = noteId) then noteIndices ++ [index]
            else noteIndices in
          let ni2 :=
            if decide (Note.state n = rest) then ni1 ++ [index] else ni1 in
          if decide (nUnison <= length ni2)%nat then ni2
          else pickResting notes noteId indices' ni2
      end
  end.

(** The comparison [noteOn] hands to [std::sort]. *)
Definition quieter (notes : list (Note.t Osc)) (lhs rhs : nat) : bool :=
  match notes !! lhs, notes !! rhs with
  | Some l, Some r =>
      negb (Note.isAttacking l) && (Note.getGain l <? Note.getGain r)
  | _, _ => false
  end.

(** The loop over the sorted [voiceIndices] that steals voices. *)
Fixpoint steal (voiceIndices noteIndices : list nat) : list nat :=
  match voiceIndices with
  | [] => noteIndices
  | index :: others =>
      let ni := noteIndices ++ [index] in
      if decide (nUnison <= length ni)%nat then ni else steal others ni
  end.

(** [noteIndices] as [noteOn] leaves it before it starts the note; no
    result where [std::sort] has none. *)
Definition noteIndices (notes : list (Note.t Osc)) (nVoice : nat) (noteId : Z)
  : option (list nat) :=
  let picked := pickResting notes noteId (seq 0 nVoice) [] in
  if decide (length picked < nUnison)%nat
  then
    voiceIndices ← Sort.sort (quieter notes) (seq 0 nVoice);
    Some (steal voiceIndices picked)
  else Some picked.

(** The voice [noteOn] starts the note on, [noteIndices[0]]. *)
Definition noteOn_voice (notes : list (Note.t Osc)) (nVoice : nat) (noteId : Z)
  : option nat :=
  noteIndices notes nVoice noteId ≫= head.

(** Whether [noteOn] takes the stealing branch. *)
Definition steals (notes : list (Note.t Osc)) (nVoice : nat) (noteId : Z) : bool :=
  bool_decide (length (pickResting notes noteId (seq 0 nVoice) []) < nUnison)%nat.

Variable processKp :
  DoubleEMAFilter.t -> Sample -> Sample -> Sample * DoubleEMAFilter.t.
Variable Info : Type.
Variable gainSustainAmplitude : Info -> Sample.
Variable envelopeSustainAmplitude : Info -> nat -> Sample.
Variable lfoPhaseDelta : Info -> nat -> Sample.
Variable lfoWavetable : Info -> nat -> list Sample.
Variable oscMix : Info -> Sample.
Variable osc_process :
  Osc -> Sample -> Sample -> list Sample -> list Sample -> Info -> nat -> Sample * Osc.
Variable lerp : Sample -> Sample -> Sample -> Sample.
Variables nOscillator env0 lfo0 : nat.

Definition note_process : Note.t Osc -> Sample -> Info -> option (Note.frame * Note.t Osc) :=
  Note.process processKp Info gainSustainAmplitude envelopeSustainAmplitude
    lfoPhaseDelta lfoWavetable oscMix osc_process lerp nOscillator env0 lfo0.

(** The loop over [notes] of [processSample]: the frame accumulated so
    far and the notes already visited. *)
Definition mix_step (upRate : Sample) (info : Info)
  (acc : option (Note.frame * list (Note.t Osc))) (note : Note.t Osc)
  : option (Note.frame * list (Note.t Osc)) :=
  '(frame, visited) ← acc;
  if decide (Note.state note = rest) then Some (frame, visited ++ [note])
  else
    '(sig, note') ← note_process note upRate info;
    Some ((frame.1 + sig.1, frame.2 + sig.2), visited ++ [note']).

Definition mixNotes (notes : list (Note.t Osc)) (upRate : Sample) (info : Info)
  : option (Note.frame * list (Note.t Osc)) :=
  fold_left (mix_step upRate info) notes (Some (Note.silence, [])).


(** [noteOff]: every voice that carries the id is released. *)
Definition noteOff (notes : list (Note.t Osc)) (noteId : Z) : list (Note.t Osc) :=
  (fun n => if decide (Note.id n = noteId) then Note.noteOff n else n) <$> notes.

(** [trStop = trIndex - 1; if (trStop >= size) trStop += size;] in
    [size_t]. *)
Definition stopIndex (trIndex size : Z) : Z :=
  let trStop := ((trIndex - 1) mod 2 ^ 64)%Z in
  if decide (trStop >= size)%Z then ((trStop + size) mod 2 ^ 64)%Z else trStop.

(** One turn of the loop of [fillTransitionBuffer] over the voice and
    the buffer. *)
Definition fill_step (upRate : Sample) (info : Info) (trIndex size : Z)
  (acc : option (Note.t Osc * list Note.frame)) (bufIdx : nat)
  : option (Note.t Osc * list Note.frame) :=
  '(note, tb) ← acc;
  '(oscOut, note') ← note_process note upRate info;
  let idx := (((trIndex + Z.of_nat bufIdx) mod 2 ^ 64) mod size)%Z in
  let interp := of_Z 1 - of_Z (Z.of_nat bufIdx) / of_Z size in
  fr ← Std.load tb idx;
  tb' ← Std.store tb idx (fr.1 + oscOut.1 * interp, fr.2 + oscOut.2 * interp);
  Some (note', tb').

Definition fillTransitionBuffer (upRate : Sample) (info : Info)
  (notes : list (Note.t Osc)) (tr : transition) (noteIndex : nat)
  : option (list (Note.t Osc) * transition) :=
  note ← notes !! noteIndex;
  if decide (Note.state note = rest) then Some (notes, tr)
  else
    let size := Z.of_nat (length (transitionBuffer tr)) in
    '(note', tb) ←
      fold_left (fill_step upRate info (trIndex tr) size)
        (seq 0 (length (transitionBuffer tr))) (Some (note, transitionBuffer tr));
    Some (<[noteIndex := note']> notes,
          {| isTransitioning := true; trIndex := trIndex tr;
             trStop := stopIndex (trIndex tr) size; transitionBuffer := tb |}).

End Methods.
End DSPCore.

End TestBedSynth.

(** * Vocabulary of the properties *)

(** [x] is a code of the format: the mantissa and exponent of a finite
    value are the canonical ones. *)
Definition valid {F : Format} (x : Sample) : bool :=
  valid_binary (prec F) (emax F) x.

(** [prec - 1], the number of fraction bits. *)
Definition fraction_bits {F : Format} : positive :=
  match F with binary32 => 23 | binary64 => 52 end.

(** [f] applied twice gives what [f] applied once gives. *)
Definition idempotent {A : Type} (f : A -> A) : Prop := forall s, f (f s) = f s.

Section NotchVocabulary.
Context {F : Format}.
Import DoubleLoopCymbal.

(** [alpha] is usable: a number of [[-2, 2]]. *)
Definition alpha_in_bounds (s : AdaptiveNotchCPZ.t) : bool :=
  in_range (of_Z (-2)) (of_Z 2) (AdaptiveNotchCPZ.alpha s).

(** The value [process] clamps into the next [alpha]. *)
Definition alpha_update (s : AdaptiveNotchCPZ.t) (input narrowness : Sample) : Sample :=
  let '(_, y0, s0) := AdaptiveNotchCPZ.signals s input narrowness in
  AdaptiveNotchCPZ.alpha s - y0 * s0 * AdaptiveNotchCPZ.mu.

End NotchVocabulary.

Section SumVocabulary.
Context {F : Format}.

(** The sum of the first [n] terms of a sequence, from the left. *)
Fixpoint partial_sum (term : nat -> Sample) (n : nat) : Sample :=
  match n with
  | O => of_Z 0
  | S k => partial_sum term k + term k
  end.

(** Tap output [i] of the buffer. *)
Definition tap (buffer : list Sample) (i : nat) : Sample :=
  from_option id (of_Z 0) (buffer !! i).

(** The plain sum of the taps, and their sum with the signs
    [+, -, +, ...]. *)
Definition plain_sum (buffer : list Sample) : Sample :=
  partial_sum (tap buffer) (length buffer).

Definition alternating_sum (buffer : list Sample) : Sample :=
  partial_sum (fun i => if Nat.even i then tap buffer i else - tap buffer i)
    (length buffer).

(** [std::lerp] returns its end points at [t = 0] and [t = 1], as the
    language requires of it for finite [a] and [b]. *)
Definition lerp_hits_endpoints (lerp : Sample -> Sample -> Sample -> Sample)
  (a b : Sample) : Prop :=
  feq (lerp a b (of_Z 0)) a = true /\ feq (lerp a b (of_Z 1)) b = true.

(** The sign the loop of [sum] holds after [k] taps. *)
Definition sign_after (k : nat) : Sample :=
  if Nat.even k then of_Z 1 else of_Z (-1).

End SumVocabulary.

Section DelayVocabulary.
Context {F : Format}.
Import DoubleLoopCymbal.

(** [Delay::process] as the design document describes it: the clamped
    read position keeps its fraction, which is the offset handed to the
    interpolation. It differs from [Delay.process] in the type of
    [clamped] alone. *)
Definition process_as_specified (d : Delay.t) (input timeInSamples : Sample)
  : option (Sample * Delay.t) :=
  let size := Z.of_nat (length (Delay.buf d)) in
  let clamped := clamp (timeInSamples - of_Z 1) (of_Z 1) (of_Z (size - 4)) in
  timeInt ← to_int clamped;
  let rFraction := clamped - of_Z timeInt in
  let wptr' := Delay.advance size (Delay.wptr d) in
  buf' ← Std.store (Delay.buf d) wptr' input;
  let '(rptr0, rptr1, rptr2, rptr3) := Delay.rptrs size wptr' timeInt in
  y0 ← Std.load buf' rptr0;
  y1 ← Std.load buf' rptr1;
  y2 ← Std.load buf' rptr2;
  y3 ← Std.load buf' rptr3;
  Some (lagrange3Interp y0 y1 y2 y3 rFraction,
        {| Delay.wptr := wptr'; Delay.buf := buf' |}).

(** The calls of [process] that feed [inputs] with one delay time. *)
Definition feed (d : Delay.t) (inputs : list Sample) (timeInSamples : Sample)
  : option Delay.t :=
  foldl (fun acc x => d ← acc; snd <$> Delay.process d x timeInSamples)
    (Some d) inputs.

End DelayVocabulary.

Section SortVocabulary.
Context {A : Type}.
Variable comp : A -> A -> bool.

(** The element [std::sort] leaves in front, followed through the
    insertions: an element takes the front exactly when it compares
    less than the front of the moment. *)
Definition front_step (front : option A) (val : A) : option A :=
  match front with
  | None => Some val
  | Some first => if comp val first then Some val else Some first
  end.

Definition front (l : list A) : option A := fold_left front_step l None.

End SortVocabulary.

Section StealVocabulary.
Context {F : Format} {Osc : Type}.
Import TestBedSynth.
Variable notes : list (Note.t Osc).
Variable noteId : Z.

(** A voice [noteOn] cannot reuse: neither at rest nor carrying the id. *)
Definition busy (n : Note.t Osc) : Prop :=
  Note.state n <> rest /\ Note.id n <> noteId.



End StealVocabulary.

Section VoiceVocabulary.
Context {F : Format} {Osc : Type}.
Import TestBedSynth.
Variable processKp :
  DoubleEMAFilter.t -> Sample -> Sample -> Sample * DoubleEMAFilter.t.
Variable Info : Type.
Variable gainSustainAmplitude : Info -> Sample.
Variable envelopeSustainAmplitude : Info -> nat -> Sample.
Variable lfoPhaseDelta : Info -> nat -> Sample.
Variable lfoWavetable : Info -> nat -> list Sample.
Variable oscMix : Info -> Sample.
Variable osc_process :
  Osc -> Sample -> Sample -> list Sample -> list Sample -> Info -> nat -> Sample * Osc.
Variable lerp : Sample -> Sample -> Sample -> Sample.
Variables nOscillator env0 lfo0 : nat.

Local Abbreviation process :=
  (DSPCore.note_process processKp Info gainSustainAmplitude
     envelopeSustainAmplitude lfoPhaseDelta lfoWavetable oscMix osc_process lerp
     nOscillator env0 lfo0).

(** [k] calls of [Note::process] in a row: the frames they return and the
    voice they leave. *)
Fixpoint process_repeat (k : nat) (n : Note.t Osc) (sampleRate : Sample) (info : Info)
  : option (list Note.frame * Note.t Osc) :=
  match k with
  | O => Some ([], n)
  | S k' =>
      '(f, n1) ← process n sampleRate info;
      '(fs, n2) ← process_repeat k' n1 sampleRate info;
      Some (f :: fs, n2)
  end.

(** The gain envelope after the call [process] makes of it. *)
Definition gainEnvelope_next (n : Note.t Osc) (info : Info) : ADSREnvelope.t :=
  (ADSREnvelope.process processKp (Note.gainEnvelope n) (gainSustainAmplitude info)).2.

(** The voice [process] leaves when it returns early. *)
Definition silenced (n : Note.t Osc) (info : Info) : Note.t Osc :=
  if decide (Note.state n = rest) then n
  else Note.with_state (Note.with_gainEnvelope n (gainEnvelope_next n info)) rest.

End VoiceVocabulary.

Section HistoryVocabulary.
Context {F : Format}.
Local Open Scope Z_scope.

(** The input of [j] calls ago, the inputs listed oldest first; zero
    before the first call, as in a buffer that started zeroed. *)
Definition ago (inputs : list Sample) (j : Z) : Sample :=
  default (of_Z 0) (reverse inputs !! Z.to_nat j).

(** Slot [(w - j) mod size] of the ring [buf] holds the input of [j]
    calls ago, for every [j] below the size. *)
Definition ring_holds (buf : list Sample) (w : Z) (inputs : list Sample) : Prop :=
  forall j, 0 <= j < Z.of_nat (length buf) ->
    Std.load buf ((w - j) mod Z.of_nat (length buf)) = Some (ago inputs j).

(** The calls [process(input, timeInSamples)] of a run, in order. *)
Definition Delay_run (d : DoubleLoopCymbal.Delay.t) (calls : list (Sample * Sample))
  : option DoubleLoopCymbal.Delay.t :=
  foldl (fun acc c => d ← acc; snd <$> DoubleLoopCymbal.Delay.process d c.1 c.2)
    (Some d) calls.

Definition GrowlSynth_Delay_run (lerp : Sample -> Sample -> Sample -> Sample)
  (d : GrowlSynth.Delay.t) (calls : list (Sample * Sample))
  : option GrowlSynth.Delay.t :=
  foldl (fun acc c => d ← acc; snd <$> GrowlSynth.Delay.process lerp d c.1 c.2)
    (Some d) calls.

(** A delay time the code can convert: a number of the format. *)
Definition usable_time (t : Sample) : Prop := valid t = true /\ isnan t = false.

End HistoryVocabulary.

Section SignVocabulary.

(** Equal, or zeros of either sign. *)
Definition same_number (a b : Sample) : Prop :=
  a = b \/ (is_zero a = true /\ is_zero b = true).

End SignVocabulary.

Section HoldVocabulary.
Context {F : Format}.
Import DoubleLoopCymbal.

(** [k] calls of [ExpDecay::process] in a row: what they return and the
    state they leave. *)
Fixpoint ExpDecay_outputs (k : nat) (s : ExpDecay.t) : list Sample * ExpDecay.t :=
  match k with
  | O => ([], s)
  | S k' =>
      let '(y, s1) := ExpDecay.process s in
      let '(ys, s2) := ExpDecay_outputs k' s1 in
      (y :: ys, s2)
  end.

End HoldVocabulary.

Section EnvelopeVocabulary.
Context {F : Format}.
Import TestBedSynth.
Variable processKp :
  DoubleEMAFilter.t -> Sample -> Sample -> Sample * DoubleEMAFilter.t.

(** The calls [process(a)] of an envelope for the sustain amplitudes
    [amps], in order: what they return and the envelope they leave. *)
Definition ADSREnvelope_run (e : ADSREnvelope.t) (amps : list Sample)
  : list Sample * ADSREnvelope.t :=
  fold_left
    (fun acc a =>
       let '(y, e') := ADSREnvelope.process processKp acc.2 a in (acc.1 ++ [y], e'))
    amps ([], e).

(** The order of the phases: attack, decay, release, terminated. *)
Definition phase (st : ADSREnvelope.State) : nat :=
  match st with
  | ADSREnvelope.attack => 0
  | ADSREnvelope.decay => 1
  | ADSREnvelope.release => 2
  | ADSREnvelope.terminated => 3
  end.

End EnvelopeVocabulary.

Section TransitionVocabulary.
Context {F : Format}.
Import TestBedSynth.
Local Open Scope Z_scope.


(** Frame [j] of the transition buffer, counted cyclically from [i]. *)
Definition transition_frame (tb : list Note.frame) (i j : Z) : option Note.frame :=
  Std.load tb ((i + j) mod Z.of_nat (length tb)).

(** The fade of frame [j]: [1 - j / size]. *)
Definition fade (size : Z) (j : Z) : Sample := (of_Z 1 - of_Z j / of_Z size)%fl.

End TransitionVocabulary.

Section LfoVocabulary.
Local Open Scope Z_scope.

(** [-2^-k] as a [float]. *)
Definition minus_pow2 (k : Z) : Sample :=
  binary_normalize (prec binary32) (emax binary32) (-1) (- k) false.

(** The phase [EasyLfo::process] leaves for a phase and its increment:
    the fractional part of the sum. *)
Definition wrapped_phase {F : Format} (phase phaseDelta : Sample) : Sample :=
  let phase1 := (phase + phaseDelta)%fl in (phase1 - ffloor phase1)%fl.

End LfoVocabulary.

#[local] Instance spec_float_eq_dec : EqDecision spec_float.
Proof. solve_decision. Defined.

Section EnvelopeRunVocabulary.
Context {F : Format}.
Import DoubleLoopCymbal.

(** [k] calls of [ExpDSREnvelope::process] in a row: what they return
    and the state they leave. *)
Fixpoint ExpDSREnvelope_outputs (k : nat) (s : ExpDSREnvelope.t)
  : list Sample * ExpDSREnvelope.t :=
  match k with
  | O => ([], s)
  | S k' =>
      let '(y, s1) := ExpDSREnvelope.process s in
      let '(ys, s2) := ExpDSREnvelope_outputs k' s1 in
      (y :: ys, s2)
  end.

(** The envelope after [k] calls of [ExpADEnvelope::process]. *)
Definition ExpADEnvelope_after (k : nat) (s : ExpADEnvelope.t) : ExpADEnvelope.t :=
  Nat.iter k (fun s => (ExpADEnvelope.process s).2) s.

End EnvelopeRunVocabulary.

(** * Examples *)

Section Examples.
#[local] Existing Instance binary32.
Import DoubleLoopCymbal TestBedSynth.

(** A two-stage exponential moving average standing for
    [DoubleEMAFilter::processKp] in the examples. *)
Definition example_processKp (s : DoubleEMAFilter.t) (input kp : Sample)
  : Sample * DoubleEMAFilter.t :=
  let v1 := DoubleEMAFilter.v1 s + kp * (input - DoubleEMAFilter.v1 s) in
  let v2 := DoubleEMAFilter.v2 s + kp * (v1 - DoubleEMAFilter.v2 s) in
  (v2, {| DoubleEMAFilter.v1 := v1; DoubleEMAFilter.v2 := v2 |}).

(** An oscillator with no state that returns its pitch. *)
Definition example_osc_process (o : unit) (sampleRate noteHz : Sample)
  (feedback modulation : list Sample) (info : unit) (idx : nat) : Sample * unit :=
  (noteHz, o).

Definition example_envelope (st : ADSREnvelope.State) (level : Sample) : ADSREnvelope.t :=
  {| ADSREnvelope.state := st; ADSREnvelope.attackLength := 480;
     ADSREnvelope.counter := 0; ADSREnvelope.atkKp := of_Z 1 / of_Z 2;
     ADSREnvelope.decKp := of_Z 1 / of_Z 2; ADSREnvelope.relKp := of_Z 1 / of_Z 2;
     ADSREnvelope.smoother :=
       {| DoubleEMAFilter.v1 := level; DoubleEMAFilter.v2 := level |} |}.

Definition example_voice (st : NoteState) (id : Z) (env : ADSREnvelope.State)
  (level : Sample) : Note.t unit :=
  {| Note.state := st; Note.id := id; Note.velocity := of_Z 1;
     Note.pan := of_Z 1 / of_Z 2; Note.noteHz := of_Z 440;
     Note.modulation := replicate 4 (of_Z 0); Note.feedback := replicate 2 (of_Z 0);
     Note.gainEnvelope := example_envelope env level;
     Note.envelope := replicate 2 (example_envelope env level);
     Note.lfo := replicate 2 {| EasyLfo.phase := of_Z 0;
                                EasyLfo.smoother := DoubleEMAFilter.init |};
     Note.oscillator := [tt; tt] |}.

(** A released voice whose envelope has decayed to zero. *)
Definition example_faded_voice : Note.t unit :=
  example_voice release 60 ADSREnvelope.release (of_Z 0).

(** Three sounding voices past their attack, with gains 1, 1/4 and 1/2. *)
Definition example_pool : list (Note.t unit) :=
  [example_voice active 60 ADSREnvelope.decay (of_Z 1);
   example_voice release 62 ADSREnvelope.release (of_Z 1 / of_Z 4);
   example_voice active 64 ADSREnvelope.decay (of_Z 1 / of_Z 2)].

(** A voice that has just started (attacking, gain 0) before a louder
    voice that is decaying. *)
Definition example_attacking_pool : list (Note.t unit) :=
  [example_voice active 60 ADSREnvelope.attack (of_Z 0);
   example_voice active 62 ADSREnvelope.decay (of_Z 1 / of_Z 2)].

(** A delay line of capacity 8 holding the samples 1, 2, 4, 8, 16, 32. *)
Definition example_delay : Delay.t :=
  {| Delay.wptr := 6;
     Delay.buf := of_Z <$> [0; 1; 2; 4; 8; 16; 32; 0]%Z |}.

(** A chain of three stages with the tap outputs 1, 2 and 4. *)
Definition example_chain : SerialAllpass.t :=
  {| SerialAllpass.buffer := of_Z <$> [1; 2; 4]%Z;
     SerialAllpass.delay := replicate 3 Delay.init;
     SerialAllpass.lowpass := replicate 3 {| EmaHighShelf.value := of_Z 0 |};
     SerialAllpass.highpass := replicate 3 {| EmaLowShelf.value := of_Z 0 |};
     SerialAllpass.notch := [AdaptiveNotchCPZ.init];
     SerialAllpass.timeInSamples := replicate 3 (of_Z 100) |}.

(** The delay line of GrowlSynth with the same contents. *)
Definition example_lerp_delay : GrowlSynth.Delay.t :=
  {| GrowlSynth.Delay.wptr := 6;
     GrowlSynth.Delay.buf := of_Z <$> [0; 1; 2; 4; 8; 16; 32; 0]%Z |}.


(** An idle transition of two zeroed frames. *)
Definition example_idle_transition : DSPCore.transition :=
  {| DSPCore.isTransitioning := false; DSPCore.trIndex := 1; DSPCore.trStop := 0;
     DSPCore.transitionBuffer := replicate 2 (of_Z 0, of_Z 0) |}.

(** [example_chain] after [setup(200)]: every delay line holds 204
    zeroed samples. *)
Definition example_setup_chain : SerialAllpass.t :=
  {| SerialAllpass.buffer := of_Z <$> [1; 2; 4]%Z;
     SerialAllpass.delay :=
       replicate 3 {| Delay.wptr := 0; Delay.buf := replicate 204 (of_Z 0) |};
     SerialAllpass.lowpass := replicate 3 {| EmaHighShelf.value := of_Z 0 |};
     SerialAllpass.highpass := replicate 3 {| EmaLowShelf.value := of_Z 0 |};
     SerialAllpass.notch := [AdaptiveNotchCPZ.init];
     SerialAllpass.timeInSamples := replicate 3 (of_Z 100) |}.

(** [FLT_MAX], the largest [float]. *)
Definition FLT_MAX : Sample := S754_finite false 16777215 104.

(** A chain of two stages whose taps hold [FLT_MAX] and [-FLT_MAX]. *)
Definition example_saturated_chain : SerialAllpass.t :=
  {| SerialAllpass.buffer := [FLT_MAX; - FLT_MAX];
     SerialAllpass.delay := replicate 2 Delay.init;
     SerialAllpass.lowpass := replicate 2 {| EmaHighShelf.value := of_Z 0 |};
     SerialAllpass.highpass := replicate 2 {| EmaLowShelf.value := of_Z 0 |};
     SerialAllpass.notch := [AdaptiveNotchCPZ.init];
     SerialAllpass.timeInSamples := replicate 2 (of_Z 100) |}.

End Examples.

(** * Facts about the floating-point comparisons *)

Section CompareFacts.

Lemma SFcompare_antisym (x y : Sample) :
  SFcompare y x = CompOpp <$> SFcompare x y.
Proof.
  destruct x as [sx|sx| |sx mx ex], y as [sy|sy| |sy my ey]; simpl;
    try reflexivity;
    try (destruct sx; reflexivity); try (destruct sy; reflexivity);
    try (destruct sx, sy; reflexivity).
  pose proof (Pos.compare_cont_antisym mx my Eq) as Hm. simpl in Hm.
  destruct sx, sy; simpl; try reflexivity;
    rewrite (Z.compare_antisym ex ey);
    destruct (ex ?= ey)%Z; simpl; try reflexivity;
    rewrite <- Hm; rewrite ?CompOpp_involutive; reflexivity.
Qed.

Lemma SFcompare_nan_iff (x y : Sample) :
  SFcompare x y = None <-> isnan x = true \/ isnan y = true.
Proof.
  destruct x as [sx|sx| |sx mx ex], y as [sy|sy| |sy my ey]; simpl;
    intuition discriminate.
Qed.

Lemma flt_nan_l (y : Sample) : flt S754_nan y = false.
Proof. reflexivity. Qed.

Lemma flt_nan_r (x : Sample) : flt x S754_nan = false.
Proof. destruct x; reflexivity. Qed.

Lemma fle_nan_l (y : Sample) : fle S754_nan y = false.
Proof. reflexivity. Qed.

Lemma fle_nan_r (x : Sample) : fle x S754_nan = false.
Proof. destruct x; reflexivity. Qed.

(** On operands that are not NaN the order is total: [!(x < y)] is [y <= x]. *)
Lemma flt_false_fle (x y : Sample) :
  isnan x = false -> isnan y = false -> flt x y = false -> fle y x = true.
Proof.
  intros Hx Hy. unfold flt, fle, SFltb, SFleb.
  rewrite (SFcompare_antisym x y).
  destruct (SFcompare x y) as [[]|] eqn:E; simpl; try congruence.
  apply SFcompare_nan_iff in E. destruct E; congruence.
Qed.

Lemma flt_fle (x y : Sample) : flt x y = true -> fle x y = true.
Proof.
  unfold flt, fle, SFltb, SFleb. destruct (SFcompare x y) as [[]|]; congruence.
Qed.

Lemma flt_asym (x y : Sample) : flt x y = true -> flt y x = false.
Proof.
  unfold flt, SFltb. rewrite (SFcompare_antisym x y).
  destruct (SFcompare x y) as [[]|]; simpl; congruence.
Qed.

Lemma fle_refl (x : Sample) : isnan x = false -> fle x x = true.
Proof.
  intros Hx. unfold fle, SFleb.
  destruct x as [sx|sx| |sx mx ex]; simpl in *; try congruence.
  - destruct sx; reflexivity.
  - destruct sx; rewrite Z.compare_refl, Pos.compare_cont_refl; reflexivity.
Qed.

Lemma fle_not_nan (x y : Sample) :
  fle x y = true -> isnan x = false /\ isnan y = false.
Proof.
  destruct x, y; simpl; try discriminate; auto.
Qed.

Lemma isfinite_not_nan (x : Sample) : isfinite x = true -> isnan x = false.
Proof. destruct x; simpl; congruence. Qed.

Lemma fle_flt_false (x y : Sample) : fle x y = true -> flt y x = false.
Proof.
  unfold flt, fle, SFltb, SFleb. rewrite (SFcompare_antisym x y).
  destruct (SFcompare x y) as [[]|]; simpl; congruence.
Qed.

Lemma flt_irrefl (x : Sample) : flt x x = false.
Proof.
  destruct (flt x x) eqn:E; auto. apply flt_asym in E as E'. congruence.
Qed.

(** Between bounds in order, [std::clamp] is [lo] below [lo], [hi] above
    [hi] and the value itself otherwise. *)
Lemma clamp_ordered (v lo hi : Sample) :
  flt hi lo = false ->
  clamp v lo hi = if flt v lo then lo else if flt hi v then hi else v.
Proof.
  intros Hhl. unfold clamp, fmin, fmax.
  destruct (flt v lo); [rewrite Hhl|]; reflexivity.
Qed.

(** [std::clamp] returns one of its three arguments. *)
Lemma clamp_cases (v lo hi : Sample) :
  (flt v lo = true /\ flt hi lo = false /\ clamp v lo hi = lo)
  \/ (flt v lo = true /\ flt hi lo = true /\ clamp v lo hi = hi)
  \/ (flt v lo = false /\ flt hi v = true /\ clamp v lo hi = hi)
  \/ (flt v lo = false /\ flt hi v = false /\ clamp v lo hi = v).
Proof.
  unfold clamp, fmin, fmax. destruct (flt v lo); [destruct (flt hi lo)|destruct (flt hi v)];
    auto 6.
Qed.

(** The three cases between bounds in order. *)
Lemma clamp_ordered_cases (v lo hi : Sample) :
  flt hi lo = false ->
  (flt v lo = true /\ clamp v lo hi = lo)
  \/ (flt v lo = false /\ flt hi v = true /\ clamp v lo hi = hi)
  \/ (flt v lo = false /\ flt hi v = false /\ clamp v lo hi = v).
Proof.
  intros Hhl. rewrite (clamp_ordered v lo hi Hhl).
  destruct (flt v lo), (flt hi v); auto.
Qed.

Lemma clamp_nan (lo hi : Sample) : clamp S754_nan lo hi = S754_nan.
Proof. unfold clamp, fmin, fmax. rewrite flt_nan_l, flt_nan_r. reflexivity. Qed.

Lemma clamp_isnan (v lo hi : Sample) :
  isnan lo = false -> isnan hi = false ->
  isnan (clamp v lo hi) = isnan v.
Proof.
  intros Hlo Hhi.
  destruct (clamp_cases v lo hi)
    as [(H & _ & ->)|[(H & _ & ->)|[(_ & H & ->)|(_ & _ & ->)]]];
    try reflexivity.
  - rewrite Hlo. destruct v; try reflexivity. discriminate H.
  - rewrite Hhi. destruct v; try reflexivity. discriminate H.
  - rewrite Hhi. destruct v; try reflexivity. rewrite flt_nan_r in H. discriminate H.
Qed.

(** A value that is not NaN is clamped into [[lo, hi]]. *)
Lemma clamp_in_range (v lo hi : Sample) :
  fle lo hi = true -> isnan v = false ->
  in_range lo hi (clamp v lo hi) = true.
Proof.
  intros Hle Hv. destruct (fle_not_nan _ _ Hle) as [Hlo Hhi].
  unfold in_range.
  destruct (clamp_ordered_cases v lo hi (fle_flt_false _ _ Hle))
    as [[_ ->]|[(_ & _ & ->)|(H1 & H2 & ->)]].
  - rewrite fle_refl, Hle; auto.
  - rewrite Hle, fle_refl; auto.
  - rewrite (flt_false_fle v lo), (flt_false_fle hi v); auto.
Qed.

(** Whatever the value, the result is NaN or lies in [[lo, hi]]. *)
Lemma clamp_nan_or_in_range (v lo hi : Sample) :
  fle lo hi = true ->
  isnan (clamp v lo hi) || in_range lo hi (clamp v lo hi) = true.
Proof.
  intros Hle. destruct (isnan v) eqn:Hv.
  - destruct v; try discriminate. rewrite clamp_nan. reflexivity.
  - rewrite clamp_in_range by assumption. apply orb_true_r.
Qed.

Lemma clamp_idem (v lo hi : Sample) :
  fle lo hi = true -> clamp (clamp v lo hi) lo hi = clamp v lo hi.
Proof.
  intros Hle. pose proof (fle_flt_false _ _ Hle) as Hhl.
  destruct (clamp_ordered_cases v lo hi Hhl) as [[_ E]|[(_ & _ & E)|(H1 & H2 & E)]];
    rewrite E; rewrite (clamp_ordered _ lo hi Hhl).
  - rewrite flt_irrefl, Hhl. reflexivity.
  - rewrite Hhl, flt_irrefl. reflexivity.
  - rewrite H1, H2. reflexivity.
Qed.

End CompareFacts.

(** * FoldShaper: the output clip and the reported latency *)

Section FoldShaperFacts.
Context {F : Format}.

Lemma clip_bounds_ordered : fle (of_Z (-1024)) (of_Z 1024) = true.
Proof. destruct F; reflexivity. Qed.

Lemma clamp_isfinite (v lo hi : Sample) :
  isfinite v = true -> isfinite lo = true -> isfinite hi = true ->
  isfinite (clamp v lo hi) = true.
Proof.
  intros Hv Hlo Hhi.
  destruct (clamp_cases v lo hi)
    as [(_ & _ & ->)|[(_ & _ & ->)|[(_ & _ & ->)|(_ & _ & ->)]]];
    assumption.
Qed.

Lemma safeClip_isfinite (x : Sample) : isfinite (FoldShaper.safeClip x) = true.
Proof.
  unfold FoldShaper.safeClip. destruct (isfinite x) eqn:Hx.
  - apply clamp_isfinite; [assumption | destruct F; reflexivity ..].
  - destruct F; reflexivity.
Qed.

Lemma safeClip_in_range (x : Sample) :
  in_range (of_Z (-1024)) (of_Z 1024) (FoldShaper.safeClip x) = true.
Proof.
  unfold FoldShaper.safeClip. destruct (isfinite x) eqn:Hx.
  - apply clamp_in_range; [apply clip_bounds_ordered|].
    apply isfinite_not_nan, Hx.
  - destruct F; reflexivity.
Qed.

End FoldShaperFacts.

(** C4. For every input, NaN and the infinities included, [safeClip]
    returns a finite value of [[-1024, 1024]]: the input clamped to that
    range when it is finite, and [0] otherwise. [FoldShaper::process]
    ends in [safeClip], so it returns a finite value of [[-1024, 1024]]
    for every input and every setting of gain, multiply and hardclip
    (whatever [std::pow] returns, and whatever the target makes of an
    [int] conversion that does not fit). *)
Theorem safeClip_finite_bounded :
  forall (F : Format) (x : Sample),
    isfinite (FoldShaper.safeClip x) = true
    /\ in_range (of_Z (-1024)) (of_Z 1024) (FoldShaper.safeClip x) = true
    /\ FoldShaper.safeClip x
       = (if isfinite x then clamp x (of_Z (-1024)) (of_Z 1024) else of_Z 0)
    /\ forall (Up Low Half : Type) (pow : Sample -> Sample -> Sample)
         (int_unrepresentable : Sample -> Z) (s : FoldShaper.t Up Low Half),
         isfinite (FoldShaper.process pow int_unrepresentable s x) = true
         /\ in_range (of_Z (-1024)) (of_Z 1024)
              (FoldShaper.process pow int_unrepresentable s x) = true.
Proof.
  intros F x. split; [apply safeClip_isfinite|].
  split; [apply safeClip_in_range|].
  split; [reflexivity|].
  intros Up Low Half pow cast s. unfold FoldShaper.process.
  split; [apply safeClip_isfinite | apply safeClip_in_range].
Qed.

(** C6. [FoldShaper::latency] returns the integer delay of the upsampler
    kernel, [Fir16FoldUpSample::intDelay = 15], in every state of the
    shaper: whatever gain, multiply and hardclip are and whatever the
    three multirate stages hold. *)
Theorem latency_is_upsampler_intDelay :
  forall (Up Low Half : Type) (s : FoldShaper.t Up Low Half),
    FoldShaper.latency s = FoldShaper.Fir16FoldUpSample.intDelay
    /\ FoldShaper.latency s = 15%Z
    /\ forall (gain multiply : Sample) (hardclip : bool) (up : Up) (low : Low)
         (half : Half),
         FoldShaper.latency (FoldShaper.mk gain multiply hardclip up low half)
         = FoldShaper.latency s.
Proof.
  intros Up Low Half s. repeat split.
Qed.

(** * The adaptive notch filter: the update of [alpha] *)

Section NotchFacts.
Context {F : Format}.
Import DoubleLoopCymbal.

Lemma notch_bounds : (- AdaptiveNotchCPZ.bound) = of_Z (-2)
  /\ AdaptiveNotchCPZ.bound = of_Z 2
  /\ fle (of_Z (-2)) (of_Z 2) = true.
Proof. destruct F; repeat split. Qed.

Lemma process_alpha (s : AdaptiveNotchCPZ.t) (input narrowness : Sample) :
  AdaptiveNotchCPZ.alpha (AdaptiveNotchCPZ.process s input narrowness).2
  = clamp (alpha_update s input narrowness) (of_Z (-2)) (of_Z 2).
Proof.
  destruct notch_bounds as (<- & <- & _).
  unfold AdaptiveNotchCPZ.process, alpha_update.
  destruct (AdaptiveNotchCPZ.signals s input narrowness) as [[v0 y0] s0].
  reflexivity.
Qed.

Lemma process_alpha_nan_or_bounded (s : AdaptiveNotchCPZ.t) (input narrowness : Sample) :
  let s' := (AdaptiveNotchCPZ.process s input narrowness).2 in
  isnan (AdaptiveNotchCPZ.alpha s') || alpha_in_bounds s' = true.
Proof.
  cbv zeta. unfold alpha_in_bounds. rewrite process_alpha.
  apply clamp_nan_or_in_range, notch_bounds.
Qed.

Lemma run_snoc (s : AdaptiveNotchCPZ.t) (calls : list (Sample * Sample))
  (c : Sample * Sample) :
  AdaptiveNotchCPZ.run s (calls ++ [c])
  = (AdaptiveNotchCPZ.process (AdaptiveNotchCPZ.run s calls) c.1 c.2).2.
Proof.
  unfold AdaptiveNotchCPZ.run. rewrite fold_left_app. reflexivity.
Qed.

Lemma run_alpha_nan_or_bounded (s : AdaptiveNotchCPZ.t) (calls : list (Sample * Sample)) :
  let s' := AdaptiveNotchCPZ.run (AdaptiveNotchCPZ.reset s) calls in
  isnan (AdaptiveNotchCPZ.alpha s') || alpha_in_bounds s' = true.
Proof.
  cbv zeta. induction calls as [|c calls _] using rev_ind.
  - unfold alpha_in_bounds. destruct F; reflexivity.
  - rewrite run_snoc. apply process_alpha_nan_or_bounded.
Qed.

End NotchFacts.

(** C2, as the code has it. Every call of [AdaptiveNotchCPZ::process]
    sets [alpha] to [clamp(alpha - y0 * s0 * mu, -2, 2)] with
    [mu = 2/1024], [y0] the two-pole output and [s0] the error signal.
    [std::clamp] hands a NaN through, so starting from [reset()], after
    every sequence of calls [alpha] is either NaN or a number of
    [[-2, 2]]; it is a number of [[-2, 2]] after every call whose update
    value is not NaN. *)
Theorem notch_alpha_clamped_or_nan :
  forall (F : Format) (s : DoubleLoopCymbal.AdaptiveNotchCPZ.t)
    (input narrowness : Sample) (calls : list (Sample * Sample)),
    DoubleLoopCymbal.AdaptiveNotchCPZ.alpha
      (DoubleLoopCymbal.AdaptiveNotchCPZ.process s input narrowness).2
    = clamp (alpha_update s input narrowness) (of_Z (-2)) (of_Z 2)
    /\ DoubleLoopCymbal.AdaptiveNotchCPZ.mu = of_Z 2 / of_Z 1024
    /\ DoubleLoopCymbal.AdaptiveNotchCPZ.alpha
         (DoubleLoopCymbal.AdaptiveNotchCPZ.reset s) = of_Z (-2)
    /\ (let s' := DoubleLoopCymbal.AdaptiveNotchCPZ.run
                    (DoubleLoopCymbal.AdaptiveNotchCPZ.reset s) calls in
        isnan (DoubleLoopCymbal.AdaptiveNotchCPZ.alpha s') || alpha_in_bounds s'
        = true)
    /\ (let s' := (DoubleLoopCymbal.AdaptiveNotchCPZ.process s input narrowness).2 in
        isnan (alpha_update s input narrowness) || alpha_in_bounds s' = true).
Proof.
  intros F s input narrowness calls.
  split; [apply process_alpha|].
  split; [reflexivity|].
  split; [reflexivity|].
  split; [apply run_alpha_nan_or_bounded|].
  cbv zeta. unfold alpha_in_bounds. rewrite process_alpha.
  destruct (isnan (alpha_update s input narrowness)) eqn:E; [reflexivity|].
  simpl. apply clamp_in_range; [apply notch_bounds | exact E].
Qed.

Section NotchCounterexamples.
#[local] Existing Instance binary32.

(** C2 as stated fails: one call with a NaN input sample, from the reset
    state and with narrowness [1/2], leaves [alpha] NaN, outside
    [[-2, 2]]. *)
Lemma notch_alpha_escapes_on_nan_input :
  alpha_in_bounds
    (DoubleLoopCymbal.AdaptiveNotchCPZ.run
       (DoubleLoopCymbal.AdaptiveNotchCPZ.reset DoubleLoopCymbal.AdaptiveNotchCPZ.init)
       [(S754_nan, of_Z 1 / of_Z 2)])
  = false.
Proof. vm_compute. reflexivity. Qed.

(** The same happens with numbers only: a narrowness of [2^100] squares
    to infinity, and [infinity * 0] is NaN. *)
Lemma notch_alpha_escapes_on_large_narrowness :
  alpha_in_bounds
    (DoubleLoopCymbal.AdaptiveNotchCPZ.run
       (DoubleLoopCymbal.AdaptiveNotchCPZ.reset DoubleLoopCymbal.AdaptiveNotchCPZ.init)
       [(of_Z 1, S754_finite false 8388608 77)])
  = false.
Proof. vm_compute. reflexivity. Qed.

End NotchCounterexamples.

(** * Envelope coefficients *)

Section EnvelopeFacts.
Context {F : Format}.

(** [float_epsilon] is [2^-23], the machine epsilon of [float]. *)
Lemma float_epsilon_value : float_epsilon * of_Z (2 ^ 23) = of_Z 1.
Proof. destruct F; vm_compute; reflexivity. Qed.

End EnvelopeFacts.

(** C8. [setTime] computes each decay coefficient as
    [epsilon^(1/lengthInSamples)], [epsilon = 2^-23] being the machine
    epsilon of [float]: [ExpDecay::setTime] without sustain sets [alpha],
    [ExpDSREnvelope::setTime] sets [alphaD] and [alphaR], and neither
    touches the rest of the state. *)
Theorem setTime_coefficients :
  forall (F : Format) (pow : Sample -> Sample -> Sample)
    (d : DoubleLoopCymbal.ExpDecay.t) (e : DoubleLoopCymbal.ExpDSREnvelope.t)
    (decayTimeInSamples releaseTimeInSamples : Sample),
    float_epsilon * of_Z (2 ^ 23) = of_Z 1
    /\ DoubleLoopCymbal.ExpDecay.alpha
         (DoubleLoopCymbal.ExpDecay.setTime pow d decayTimeInSamples false)
       = pow float_epsilon (of_Z 1 / decayTimeInSamples)
    /\ DoubleLoopCymbal.ExpDecay.value
         (DoubleLoopCymbal.ExpDecay.setTime pow d decayTimeInSamples false)
       = DoubleLoopCymbal.ExpDecay.value d
    /\ DoubleLoopCymbal.ExpDSREnvelope.alphaD
         (DoubleLoopCymbal.ExpDSREnvelope.setTime pow e decayTimeInSamples
            releaseTimeInSamples)
       = pow float_epsilon (of_Z 1 / decayTimeInSamples)
    /\ DoubleLoopCymbal.ExpDSREnvelope.alphaR
         (DoubleLoopCymbal.ExpDSREnvelope.setTime pow e decayTimeInSamples
            releaseTimeInSamples)
       = pow float_epsilon (of_Z 1 / releaseTimeInSamples)
    /\ (let e' := DoubleLoopCymbal.ExpDSREnvelope.setTime pow e decayTimeInSamples
                    releaseTimeInSamples in
        DoubleLoopCymbal.ExpDSREnvelope.value e' = DoubleLoopCymbal.ExpDSREnvelope.value e
        /\ DoubleLoopCymbal.ExpDSREnvelope.offset e'
           = DoubleLoopCymbal.ExpDSREnvelope.offset e
        /\ DoubleLoopCymbal.ExpDSREnvelope.state e'
           = DoubleLoopCymbal.ExpDSREnvelope.state e).
Proof.
  intros F pow d e td tr. split; [apply float_epsilon_value|].
  repeat split.
Qed.

(** * Reset is idempotent *)

Section ResetFacts.
Context {F : Format}.
Import DoubleLoopCymbal.

Lemma replicate_reset_idem {A} (z : A) (l : list A) :
  replicate (length (replicate (length l) z)) z = replicate (length l) z.
Proof. rewrite length_replicate. reflexivity. Qed.

Lemma fmap_idem {A} (f : A -> A) (l : list A) :
  idempotent f -> f <$> (f <$> l) = f <$> l.
Proof.
  intros Hf. rewrite <- list_fmap_compose. apply list_fmap_ext.
  intros i x _. apply Hf.
Qed.

Lemma Delay_reset_idem : idempotent Delay.reset.
Proof.
  intros [w b]. unfold Delay.reset; simpl. f_equal. apply replicate_reset_idem.
Qed.

Lemma AdaptiveNotchCPZ_reset_idem : idempotent AdaptiveNotchCPZ.reset.
Proof. intros s. reflexivity. Qed.

Lemma ExpDSREnvelope_reset_idem : idempotent ExpDSREnvelope.reset.
Proof. intros s. reflexivity. Qed.

Lemma ADSREnvelope_reset_idem : idempotent TestBedSynth.ADSREnvelope.reset.
Proof. intros s. reflexivity. Qed.

Lemma EmaHighShelf_reset_idem : idempotent EmaHighShelf.reset.
Proof. intros s. reflexivity. Qed.

Lemma EmaLowShelf_reset_idem : idempotent EmaLowShelf.reset.
Proof. intros s. reflexivity. Qed.

Lemma SerialAllpass_reset_idem : idempotent SerialAllpass.reset.
Proof.
  intros s. unfold SerialAllpass.reset; simpl. f_equal.
  - apply replicate_reset_idem.
  - apply fmap_idem, Delay_reset_idem.
  - apply fmap_idem, EmaHighShelf_reset_idem.
  - apply fmap_idem, EmaLowShelf_reset_idem.
  - apply fmap_idem, AdaptiveNotchCPZ_reset_idem.
Qed.

Lemma other_resets_idem :
  idempotent ExpDecay.reset
  /\ idempotent TransitionReleaseSmoother.reset
  /\ idempotent ExpADEnvelope.reset
  /\ idempotent Highpass2.reset
  /\ idempotent HalfClosedNoise.reset
  /\ idempotent GrowlSynth.SVF.reset
  /\ idempotent TestBedSynth.DoubleEMAFilter.reset
  /\ idempotent TestBedSynth.EasyLfo.reset.
Proof. repeat split. Qed.

Lemma GrowlSynth_Delay_reset_idem : idempotent GrowlSynth.Delay.reset.
Proof.
  intros [w b]. unfold GrowlSynth.Delay.reset; simpl. f_equal.
  apply replicate_reset_idem.
Qed.

Lemma Note_reset_idem {Osc} (osc_reset : Osc -> Osc) :
  idempotent osc_reset -> idempotent (TestBedSynth.Note.reset osc_reset).
Proof.
  intros Ho n. unfold TestBedSynth.Note.reset; simpl. f_equal.
  - apply replicate_reset_idem.
  - apply replicate_reset_idem.
  - apply fmap_idem, ADSREnvelope_reset_idem.
  - apply fmap_idem. intros s. reflexivity.
  - apply fmap_idem, Ho.
Qed.

End ResetFacts.

(** C9. Calling [reset()] twice in a row leaves a component in the state
    one call leaves it in, from every state: for the delay lines, the
    adaptive notch, the envelopes, the shelving and state-variable
    filters, the serial allpass chain, the noise source and the LFO. *)
Theorem reset_idempotent :
  forall F : Format,
    idempotent (DoubleLoopCymbal.Delay.reset (F := F))
    /\ idempotent (DoubleLoopCymbal.AdaptiveNotchCPZ.reset (F := F))
    /\ idempotent (DoubleLoopCymbal.ExpDSREnvelope.reset (F := F))
    /\ idempotent (TestBedSynth.ADSREnvelope.reset (F := F))
    /\ idempotent (DoubleLoopCymbal.SerialAllpass.reset (F := F))
    /\ idempotent (DoubleLoopCymbal.EmaHighShelf.reset (F := F))
    /\ idempotent (DoubleLoopCymbal.EmaLowShelf.reset (F := F))
    /\ idempotent (GrowlSynth.Delay.reset (F := F))
    /\ (idempotent (DoubleLoopCymbal.ExpDecay.reset (F := F))
        /\ idempotent (DoubleLoopCymbal.TransitionReleaseSmoother.reset (F := F))
        /\ idempotent (DoubleLoopCymbal.ExpADEnvelope.reset (F := F))
        /\ idempotent (DoubleLoopCymbal.Highpass2.reset (F := F))
        /\ idempotent (DoubleLoopCymbal.HalfClosedNoise.reset (F := F))
        /\ idempotent (GrowlSynth.SVF.reset (F := F))
        /\ idempotent (TestBedSynth.DoubleEMAFilter.reset (F := F))
        /\ idempotent (TestBedSynth.EasyLfo.reset (F := F))).
Proof.
  intros F.
  split; [apply Delay_reset_idem|].
  split; [apply AdaptiveNotchCPZ_reset_idem|].
  split; [apply ExpDSREnvelope_reset_idem|].
  split; [apply ADSREnvelope_reset_idem|].
  split; [apply SerialAllpass_reset_idem|].
  split; [apply EmaHighShelf_reset_idem|].
  split; [apply EmaLowShelf_reset_idem|].
  split; [apply GrowlSynth_Delay_reset_idem|].
  apply other_resets_idem.
Qed.

(** * Voices at rest are silent *)

Section VoiceFacts.
Context {F : Format} {Osc : Type}.
Import TestBedSynth.
Variable processKp :
  DoubleEMAFilter.t -> Sample -> Sample -> Sample * DoubleEMAFilter.t.
Variable Info : Type.
Variable gainSustainAmplitude : Info -> Sample.
Variable envelopeSustainAmplitude : Info -> nat -> Sample.
Variable lfoPhaseDelta : Info -> nat -> Sample.
Variable lfoWavetable : Info -> nat -> list Sample.
Variable oscMix : Info -> Sample.
Variable osc_process :
  Osc -> Sample -> Sample -> list Sample -> list Sample -> Info -> nat -> Sample * Osc.
Variable lerp : Sample -> Sample -> Sample -> Sample.
Variables nOscillator env0 lfo0 : nat.

Local Abbreviation process :=
  (DSPCore.note_process processKp Info gainSustainAmplitude
     envelopeSustainAmplitude lfoPhaseDelta lfoWavetable oscMix osc_process lerp
     nOscillator env0 lfo0).
Local Abbreviation mix_step :=
  (DSPCore.mix_step processKp Info gainSustainAmplitude
     envelopeSustainAmplitude lfoPhaseDelta lfoWavetable oscMix osc_process lerp
     nOscillator env0 lfo0).
Local Abbreviation repeat_process :=
  (process_repeat processKp Info gainSustainAmplitude envelopeSustainAmplitude
     lfoPhaseDelta lfoWavetable oscMix osc_process lerp nOscillator env0 lfo0).
Local Abbreviation next_envelope :=
  (gainEnvelope_next processKp Info gainSustainAmplitude).
Local Abbreviation silenced_voice :=
  (silenced processKp Info gainSustainAmplitude).

Lemma process_rest (n : Note.t Osc) (sampleRate : Sample) (info : Info) :
  Note.state n = rest -> process n sampleRate info = Some (Note.silence, n).
Proof.
  intros H. unfold DSPCore.note_process, Note.process.
  destruct (decide (Note.state n = rest)); [reflexivity | contradiction].
Qed.

Lemma process_terminated (n : Note.t Osc) (sampleRate : Sample) (info : Info) :
  Note.state n <> rest ->
  ADSREnvelope.isTerminated (next_envelope n info) = true ->
  process n sampleRate info
  = Some (Note.silence,
          Note.with_state (Note.with_gainEnvelope n (next_envelope n info)) rest).
Proof.
  intros Hs Ht. unfold DSPCore.note_process, Note.process.
  destruct (decide (Note.state n = rest)); [contradiction|].
  simpl. unfold gainEnvelope_next in Ht. rewrite Ht. reflexivity.
Qed.

Lemma silenced_rest (n : Note.t Osc) (info : Info) :
  Note.state n = rest \/ ADSREnvelope.isTerminated (next_envelope n info) = true ->
  Note.state (silenced_voice n info) = rest.
Proof.
  intros H. unfold silenced.
  destruct (decide (Note.state n = rest)); [assumption | reflexivity].
Qed.

Lemma process_repeat_rest (k : nat) (n : Note.t Osc) (sampleRate : Sample) (info : Info) :
  Note.state n = rest ->
  repeat_process k n sampleRate info = Some (replicate k Note.silence, n).
Proof.
  intros H. induction k as [|k IH]; simpl; [reflexivity|].
  rewrite process_rest by assumption. simpl. rewrite IH. reflexivity.
Qed.

Lemma mix_step_rest (upRate : Sample) (info : Info) (frame : Note.frame)
  (visited : list (Note.t Osc)) (n : Note.t Osc) :
  Note.state n = rest ->
  mix_step upRate info (Some (frame, visited)) n = Some (frame, visited ++ [n]).
Proof.
  intros H. unfold DSPCore.mix_step. simpl.
  destruct (decide (Note.state n = rest)); [reflexivity | contradiction].
Qed.

(** C10. A voice at rest returns the frame [(0, 0)] from [Note::process]
    and keeps its whole state; a sounding voice whose gain envelope
    reports [isTerminated()] after the envelope's step of this call is set
    to rest and returns [(0, 0)] as well. The voice is at rest afterwards:
    every later call returns [(0, 0)] and changes nothing, and the voice
    loop of [processSample] skips it, leaving the frame as it was. *)
Theorem rest_or_terminated_voice_is_silent :
  forall (n : Note.t Osc) (sampleRate : Sample) (info : Info),
    Note.state n = rest
    \/ ADSREnvelope.isTerminated (next_envelope n info) = true ->
    process n sampleRate info = Some (Note.silence, silenced_voice n info)
    /\ Note.silence = (S754_zero false, S754_zero false)
    /\ Note.state (silenced_voice n info) = rest
    /\ (Note.state n = rest -> silenced_voice n info = n)
    /\ (forall k : nat,
          repeat_process k (silenced_voice n info) sampleRate info
          = Some (replicate k Note.silence, silenced_voice n info))
    /\ (forall (upRate : Sample) (frame : Note.frame) (visited : list (Note.t Osc)),
          mix_step upRate info (Some (frame, visited)) (silenced_voice n info)
          = Some (frame, visited ++ [silenced_voice n info])).
Proof.
  intros n sampleRate info H.
  pose proof (silenced_rest n info H) as Hrest.
  split.
  { unfold silenced. destruct (decide (Note.state n = rest)) as [Hs|Hs].
    - apply process_rest, Hs.
    - destruct H as [H|H]; [contradiction|]. apply process_terminated; assumption. }
  split; [reflexivity|].
  split; [exact Hrest|].
  split.
  { intros Hs. unfold silenced.
    destruct (decide (Note.state n = rest)); [reflexivity | contradiction]. }
  split.
  - intros k. apply process_repeat_rest, Hrest.
  - intros upRate frame visited. apply mix_step_rest, Hrest.
Qed.

End VoiceFacts.

Section VoiceExamples.
#[local] Existing Instance binary32.
Import TestBedSynth.

(** The witness of C10: the released voice above terminates during the
    call, which silences it for good. *)
Lemma rest_or_terminated_voice_is_silent_witness :
  let process :=
    DSPCore.note_process example_processKp unit (fun _ => of_Z 1 / of_Z 2)
      (fun _ _ => of_Z 1 / of_Z 2) (fun _ _ => of_Z 0)
      (fun _ _ => [of_Z 0; of_Z 1]) (fun _ => of_Z 0) example_osc_process
      Std.lerp 2 0 2 in
  let next :=
    silenced example_processKp unit (fun _ => of_Z 1 / of_Z 2) example_faded_voice tt in
  ADSREnvelope.isTerminated
    (gainEnvelope_next example_processKp unit (fun _ => of_Z 1 / of_Z 2)
       example_faded_voice tt) = true
  /\ process example_faded_voice (of_Z 48000) tt = Some (Note.silence, next)
  /\ Note.state next = rest.
Proof.
  cbv zeta. split; [vm_compute; reflexivity|].
  pose proof (rest_or_terminated_voice_is_silent (F := binary32) example_processKp unit
                (fun _ => of_Z 1 / of_Z 2) (fun _ _ => of_Z 1 / of_Z 2)
                (fun _ _ => of_Z 0) (fun _ _ => [of_Z 0; of_Z 1]) (fun _ => of_Z 0)
                example_osc_process Std.lerp 2 0 2 example_faded_voice (of_Z 48000) tt
                (or_intror eq_refl)) as (H1 & _ & H3 & _).
  split; [exact H1 | exact H3].
Defined.

End VoiceExamples.

(** * Filters: what is clamped before the coefficients are computed *)

Section FilterFacts.
Context {F : Format}.
Variable tan : Sample -> Sample.

Lemma cutoff_bounds_ordered :
  fle GrowlSynth.minCutoff GrowlSynth.nyquist = true
  /\ fle DoubleLoopCymbal.Highpass2.minCutoff DoubleLoopCymbal.Highpass2.nyquist = true.
Proof. destruct F; split; reflexivity. Qed.

(** A cutoff that is a number is clamped into [[0.00001, 0.49998]]. *)
Lemma cutoff_clamped (f : Sample) :
  isnan f || in_range GrowlSynth.minCutoff GrowlSynth.nyquist
               (clamp f GrowlSynth.minCutoff GrowlSynth.nyquist) = true.
Proof.
  destruct (isnan f) eqn:E; [reflexivity|]. simpl.
  apply clamp_in_range; [apply cutoff_bounds_ordered | exact E].
Qed.

Lemma SVF_g_clamped (type : GrowlSynth.SVFTool.SVFType) (f A : Sample) :
  GrowlSynth.SVF.g tan type f A
  = GrowlSynth.SVF.g tan type (clamp f GrowlSynth.minCutoff GrowlSynth.nyquist) A.
Proof.
  unfold GrowlSynth.SVF.g. rewrite clamp_idem by apply cutoff_bounds_ordered.
  reflexivity.
Qed.

Lemma SVF_process_clamped (type : GrowlSynth.SVFTool.SVFType)
  (s : GrowlSynth.SVF.t) (v0 f Q gain : Sample) :
  GrowlSynth.SVF.process tan type s v0 f Q gain
  = GrowlSynth.SVF.process tan type s v0
      (clamp f GrowlSynth.minCutoff GrowlSynth.nyquist) Q gain.
Proof.
  unfold GrowlSynth.SVF.process. rewrite <- SVF_g_clamped. reflexivity.
Qed.

Lemma Highpass2_process_clamped (s : DoubleLoopCymbal.Highpass2.t) (input f : Sample) :
  DoubleLoopCymbal.Highpass2.process tan s input f
  = DoubleLoopCymbal.Highpass2.process tan s input
      (clamp f DoubleLoopCymbal.Highpass2.minCutoff DoubleLoopCymbal.Highpass2.nyquist).
Proof.
  unfold DoubleLoopCymbal.Highpass2.process, DoubleLoopCymbal.Highpass2.g.
  rewrite clamp_idem by apply cutoff_bounds_ordered. reflexivity.
Qed.

Lemma one_pole_k_clamped (f : Sample) :
  let c := clamp f GrowlSynth.minCutoff GrowlSynth.nyquist in
  GrowlSynth.LP1.coefficients tan f = GrowlSynth.LP1.coefficients tan c
  /\ GrowlSynth.HP1.coefficients tan f = GrowlSynth.HP1.coefficients tan c
  /\ GrowlSynth.AP1.coefficients tan f = GrowlSynth.AP1.coefficients tan c
  /\ GrowlSynth.SVFHighpass.g tan f = GrowlSynth.SVFHighpass.g tan c.
Proof.
  cbv zeta.
  unfold GrowlSynth.LP1.coefficients, GrowlSynth.HP1.coefficients,
    GrowlSynth.AP1.coefficients, GrowlSynth.LP1.k, GrowlSynth.HP1.k,
    GrowlSynth.AP1.k, GrowlSynth.SVFHighpass.g.
  rewrite clamp_idem by apply cutoff_bounds_ordered. repeat split.
Qed.

(** [Q] reaches the division [1 / Q] as it was passed. *)
Lemma SVF_k_unguarded (type : GrowlSynth.SVFTool.SVFType) (Q A : Sample) :
  GrowlSynth.SVF.k type Q A
  = match type with
    | GrowlSynth.SVFTool.bell => of_Z 1 / Q / A
    | _ => of_Z 1 / Q
    end.
Proof. destruct type; reflexivity. Qed.

Lemma SVF_k_zero_Q (type : GrowlSynth.SVFTool.SVFType) (sign : bool) (A : Sample) :
  isfinite (GrowlSynth.SVF.k type (S754_zero sign) A) = false.
Proof.
  rewrite SVF_k_unguarded.
  assert (of_Z 1 / S754_zero sign = S754_infinity sign) as E
    by (destruct F, sign; reflexivity).
  destruct type; rewrite E; try reflexivity.
  destruct A as [| | |]; reflexivity.
Qed.

End FilterFacts.

(** C7, as the code has it. Every filter clamps the normalized cutoff
    into [[0.00001, 0.49998]] before it takes the tangent (a NaN cutoff
    stays NaN), so [SVF::process], [Highpass2::process] and the
    coefficients of [LP1], [HP1], [AP1] and [SVFHighpass] depend on the
    cutoff only through its clamped value. [Q] is neither clamped nor
    guarded: [k] is [1 / Q] (divided by [A] for the bell type), which is
    not finite when [Q] is zero. *)
Theorem cutoff_clamped_Q_unguarded :
  forall (F : Format) (tan : Sample -> Sample) (type : GrowlSynth.SVFTool.SVFType)
    (s : GrowlSynth.SVF.t) (h : DoubleLoopCymbal.Highpass2.t)
    (v0 f Q gain A : Sample) (sign : bool),
    let c := clamp f GrowlSynth.minCutoff GrowlSynth.nyquist in
    isnan f || in_range GrowlSynth.minCutoff GrowlSynth.nyquist c = true
    /\ isnan c = isnan f
    /\ GrowlSynth.SVF.process tan type s v0 f Q gain
       = GrowlSynth.SVF.process tan type s v0 c Q gain
    /\ DoubleLoopCymbal.Highpass2.process tan h v0 f
       = DoubleLoopCymbal.Highpass2.process tan h v0
           (clamp f DoubleLoopCymbal.Highpass2.minCutoff
              DoubleLoopCymbal.Highpass2.nyquist)
    /\ GrowlSynth.LP1.coefficients tan f = GrowlSynth.LP1.coefficients tan c
    /\ GrowlSynth.HP1.coefficients tan f = GrowlSynth.HP1.coefficients tan c
    /\ GrowlSynth.AP1.coefficients tan f = GrowlSynth.AP1.coefficients tan c
    /\ GrowlSynth.SVFHighpass.g tan f = GrowlSynth.SVFHighpass.g tan c
    /\ GrowlSynth.SVF.k type Q A
       = match type with
         | GrowlSynth.SVFTool.bell => of_Z 1 / Q / A
         | _ => of_Z 1 / Q
         end
    /\ GrowlSynth.SVFHighpass.k Q = of_Z 1 / Q
    /\ isfinite (GrowlSynth.SVF.k type (S754_zero sign) A) = false.
Proof.
  intros F tan type s h v0 f Q gain A sign c. subst c.
  split; [apply cutoff_clamped|].
  split; [apply clamp_isnan; destruct F; reflexivity|].
  split; [apply SVF_process_clamped|].
  split; [apply Highpass2_process_clamped|].
  destruct (one_pole_k_clamped tan f) as (H1 & H2 & H3 & H4).
  repeat (split; [assumption|]).
  split; [apply SVF_k_unguarded|].
  split; [reflexivity | apply SVF_k_zero_Q].
Qed.

Section FilterCounterexamples.
#[local] Existing Instance binary32.

(** C7 as stated fails: with [Q = 0] the lowpass [SVF] computes
    [k = 1 / 0], an infinite coefficient; no guard stands before the
    division. *)
Lemma svf_divides_by_zero_Q :
  is_zero (of_Z 0) = true
  /\ GrowlSynth.SVF.k GrowlSynth.SVFTool.lowpass (of_Z 0) (of_Z 1)
     = S754_infinity false
  /\ GrowlSynth.SVFHighpass.k (of_Z 0) = S754_infinity false.
Proof. repeat split. Qed.

End FilterCounterexamples.

(** * Voice stealing: which voice [noteOn] takes *)

Section OrderFacts.

Lemma compare_lex_trans (e1 e2 e3 : Z) (m1 m2 m3 : positive) :
  match (e1 ?= e2)%Z with
  | Eq => Pos.compare_cont Eq m1 m2 | Lt => Lt | Gt => Gt end = Lt ->
  match (e2 ?= e3)%Z with
  | Eq => Pos.compare_cont Eq m2 m3 | Lt => Lt | Gt => Gt end = Lt ->
  match (e1 ?= e3)%Z with
  | Eq => Pos.compare_cont Eq m1 m3 | Lt => Lt | Gt => Gt end = Lt.
Proof.
  change (Pos.compare_cont Eq m1 m2) with (Pos.compare m1 m2).
  change (Pos.compare_cont Eq m2 m3) with (Pos.compare m2 m3).
  change (Pos.compare_cont Eq m1 m3) with (Pos.compare m1 m3).
  destruct (Z.compare_spec e1 e2), (Z.compare_spec e2 e3), (Z.compare_spec e1 e3);
    try discriminate; try lia; intros Ha Hb; try reflexivity.
  all: rewrite Pos.compare_lt_iff in *; lia.
Qed.

Lemma compare_lex_trans_opp (e1 e2 e3 : Z) (m1 m2 m3 : positive) :
  match (e1 ?= e2)%Z with
  | Eq => CompOpp (Pos.compare_cont Eq m1 m2) | Lt => Gt | Gt => Lt end = Lt ->
  match (e2 ?= e3)%Z with
  | Eq => CompOpp (Pos.compare_cont Eq m2 m3) | Lt => Gt | Gt => Lt end = Lt ->
  match (e1 ?= e3)%Z with
  | Eq => CompOpp (Pos.compare_cont Eq m1 m3) | Lt => Gt | Gt => Lt end = Lt.
Proof.
  change (Pos.compare_cont Eq m1 m2) with (Pos.compare m1 m2).
  change (Pos.compare_cont Eq m2 m3) with (Pos.compare m2 m3).
  change (Pos.compare_cont Eq m1 m3) with (Pos.compare m1 m3).
  destruct (Z.compare_spec e1 e2), (Z.compare_spec e2 e3), (Z.compare_spec e1 e3);
    try discriminate; try lia; intros Ha Hb; try reflexivity.
  all: destruct (Pos.compare_spec m1 m2), (Pos.compare_spec m2 m3),
         (Pos.compare_spec m1 m3); simpl in *;
       try discriminate; try reflexivity; lia.
Qed.

Lemma is_Lt_true (c : comparison) :
  match c with Lt => true | _ => false end = true <-> c = Lt.
Proof. destruct c; split; congruence. Qed.

(** [<] on samples is transitive. *)
Lemma flt_trans (x y z : Sample) :
  flt x y = true -> flt y z = true -> flt x z = true.
Proof.
  unfold flt, SFltb.
  destruct x as [sx|sx| |sx mx ex], y as [sy|sy| |sy my ey], z as [sz|sz| |sz mz ez];
    simpl; try discriminate; try reflexivity;
    try (destruct sx; simpl; try discriminate; try reflexivity;
         destruct sy; simpl; try discriminate; try reflexivity;
         destruct sz; simpl; try discriminate; reflexivity).
  destruct sx, sy, sz; try discriminate; try reflexivity;
    rewrite !is_Lt_true.
  - apply compare_lex_trans_opp.
  - apply compare_lex_trans.
Qed.

End OrderFacts.

Section SortFacts.
Context {A : Type}.
Variable comp : A -> A -> bool.

Lemma unguarded_linear_insert_last (val first : A) (p : list A) :
  last p = Some first -> comp val first = false ->
  last (TestBedSynth.Sort.unguarded_linear_insert comp val p) = Some first.
Proof.
  intros Hl Hc. induction p as [|x p IH]; [discriminate|].
  destruct p as [|y q].
  - simpl in Hl. injection Hl as ->. simpl. rewrite Hc. reflexivity.
  - change (last (x :: y :: q)) with (last (y :: q)) in Hl.
    specialize (IH Hl).
    change (TestBedSynth.Sort.unguarded_linear_insert comp val (x :: y :: q))
      with (if comp val x
            then x :: TestBedSynth.Sort.unguarded_linear_insert comp val (y :: q)
            else val :: x :: y :: q).
    destruct (comp val x).
    + destruct (TestBedSynth.Sort.unguarded_linear_insert comp val (y :: q)) eqn:E;
        [discriminate IH | exact IH].
    + exact Hl.
Qed.

Lemma insert_last (p : list A) (val : A) :
  last (TestBedSynth.Sort.insert comp p val) = front_step comp (last p) val.
Proof.
  unfold TestBedSynth.Sort.insert, front_step.
  destruct (last p) as [first|] eqn:Hl; [|reflexivity].
  destruct (comp val first) eqn:Hc.
  - apply last_snoc.
  - apply unguarded_linear_insert_last; assumption.
Qed.

Lemma fold_insert_last (l p : list A) :
  last (fold_left (TestBedSynth.Sort.insert comp) l p) = fold_left (front_step comp) l (last p).
Proof.
  revert p. induction l as [|x l IH]; intros p; simpl; [reflexivity|].
  rewrite IH, insert_last. reflexivity.
Qed.

(** The first element of the sorted range. *)
Lemma insertion_sort_head (l : list A) :
  head (TestBedSynth.Sort.insertion_sort comp l) = front comp l.
Proof.
  unfold TestBedSynth.Sort.insertion_sort, front.
  rewrite head_reverse, fold_insert_last. reflexivity.
Qed.

(** On at most [_S_threshold] elements [std::sort] is the insertion
    sort. *)
Lemma sort_short (l : list A) :
  (length l <= TestBedSynth.Sort.S_threshold)%nat ->
  TestBedSynth.Sort.sort comp l = Some (TestBedSynth.Sort.insertion_sort comp l).
Proof.
  intros Hl. unfold TestBedSynth.Sort.sort.
  destruct (decide (length l <= TestBedSynth.Sort.S_threshold)%nat); [reflexivity | lia].
Qed.

(** Whatever the comparison, the front of the sorted range is one of
    its elements. *)
Lemma front_fold_elem (l : list A) (f m : A) :
  fold_left (front_step comp) l (Some f) = Some m -> m = f \/ m ∈ l.
Proof.
  revert f. induction l as [|x l IH]; intros f H.
  - injection H as ->. left. reflexivity.
  - cbn [fold_left front_step] in H. destruct (comp x f).
    + destruct (IH x H) as [->|Hin]; right;
        [apply list_elem_of_here | apply list_elem_of_further, Hin].
    + destruct (IH f H) as [->|Hin]; [left; reflexivity|].
      right. apply list_elem_of_further, Hin.
Qed.

Lemma front_fold_some (l : list A) (f : A) :
  is_Some (fold_left (front_step comp) l (Some f)).
Proof.
  revert f. induction l as [|x l IH]; intros f; [eexists; reflexivity|].
  cbn [fold_left front_step]. destruct (comp x f); apply IH.
Qed.

End SortFacts.

Section StealFacts.
Context {F : Format} {Osc : Type}.
Import TestBedSynth.
Variable notes : list (Note.t Osc).
Variable noteId : Z.



(** A voice at rest or carrying the note id is taken before any other:
    the first such voice among the first [nVoice]. *)
Lemma pickResting_reuse (a k i : nat) (n : Note.t Osc) :
  (a <= i < a + k)%nat -> notes !! i = Some n ->
  Note.id n = noteId \/ Note.state n = rest ->
  (forall j, (a <= j < i)%nat -> exists m, notes !! j = Some m /\ busy noteId m) ->
  head (DSPCore.pickResting notes noteId (seq a k) []) = Some i.
Proof.
  revert a. induction k as [|k IH]; intros a Hi Hn Hr Hb; [lia|].
  simpl. destruct (decide (a = i)) as [->|Hne].
  - rewrite Hn.
    destruct (decide (Note.id n = noteId)), (decide (Note.state n = rest));
      simpl; try reflexivity.
    destruct Hr; contradiction.
  - destruct (Hb a) as (m & Hm & Hs & Hid); [lia|]. rewrite Hm.
    destruct (decide (Note.id m = noteId)); [contradiction|].
    destruct (decide (Note.state m = rest)); [contradiction|].
    simpl. apply IH; try assumption; [lia|].
    intros j Hj. apply Hb. lia.
Qed.


End StealFacts.

Section NoteOnFacts.
Context {F : Format} {Osc : Type}.
Import TestBedSynth.

Lemma steal_head (l : list nat) : head (DSPCore.steal l []) = head l.
Proof. destruct l; reflexivity. Qed.

(** The first loop found a voice: the note starts on it and nothing is
    stolen. *)
Lemma noteOn_voice_picked (notes : list (Note.t Osc)) (nVoice : nat) (noteId : Z)
  (x : nat) (p : list nat) :
  DSPCore.pickResting notes noteId (seq 0 nVoice) [] = x :: p ->
  DSPCore.noteOn_voice notes nVoice noteId = Some x
  /\ DSPCore.steals notes nVoice noteId = false.
Proof.
  intros Hp. unfold DSPCore.noteOn_voice, DSPCore.noteIndices, DSPCore.steals.
  rewrite Hp. cbn [length].
  destruct (decide (S (length p) < DSPCore.nUnison)%nat) as [Hl|Hl];
    [unfold DSPCore.nUnison in Hl; lia|].
  split; [reflexivity|]. apply bool_decide_eq_false. exact Hl.
Qed.

(** The first loop found none: [noteOn] steals, and on at most
    [_S_threshold] voices it takes the front of the sorted indices. *)
Lemma noteOn_voice_stolen (notes : list (Note.t Osc)) (nVoice : nat) (noteId : Z) :
  DSPCore.pickResting notes noteId (seq 0 nVoice) [] = [] ->
  DSPCore.steals notes nVoice noteId = true
  /\ ((nVoice <= Sort.S_threshold)%nat ->
      DSPCore.noteOn_voice notes nVoice noteId
      = front (DSPCore.quieter notes) (seq 0 nVoice)).
Proof.
  intros Hp. unfold DSPCore.noteOn_voice, DSPCore.noteIndices, DSPCore.steals.
  rewrite Hp. cbn [length].
  destruct (decide (0 < DSPCore.nUnison)%nat) as [Hl|Hl];
    [|unfold DSPCore.nUnison in Hl; lia].
  split; [apply bool_decide_eq_true; exact Hl|].
  intros Hn. rewrite sort_short by (rewrite length_seq; exact Hn).
  cbn [mbind option_bind]. rewrite steal_head. apply insertion_sort_head.
Qed.

(** The front of the sorted indices [0 .. k] is one of them. *)
Lemma front_seq_in_range (comp : nat -> nat -> bool) (k : nat) :
  exists m, front comp (seq 0 (S k)) = Some m /\ (m < S k)%nat.
Proof.
  unfold front. cbn [seq fold_left front_step].
  destruct (front_fold_some comp (seq 1 k) 0%nat) as [m Hm].
  exists m. split; [exact Hm|].
  destruct (front_fold_elem comp _ _ _ Hm) as [->|Hin]; [lia|].
  apply elem_of_seq in Hin. lia.
Qed.


(** X21. A voice at rest, or one that carries the id of the new note, is
    reused (the first such voice among the first [nVoice]), whatever its
    gain and whether or not it is attacking; nothing is stolen. *)
Lemma noteOn_reuses_free_or_same_id (notes : list (Note.t Osc)) (nVoice : nat)
  (noteId : Z) (i : nat) (n : Note.t Osc) :
  (i < nVoice)%nat -> notes !! i = Some n ->
  Note.id n = noteId \/ Note.state n = rest ->
  (forall j, (j < i)%nat -> exists m, notes !! j = Some m /\ busy noteId m) ->
  DSPCore.noteOn_voice notes nVoice noteId = Some i
  /\ DSPCore.steals notes nVoice noteId = false.
Proof.
  intros Hi Hn Hr Hb.
  assert (head (DSPCore.pickResting notes noteId (seq 0 nVoice) []) = Some i) as Hh.
  { apply (pickResting_reuse notes noteId 0 nVoice i n); try assumption; [lia|].
    intros j Hj. apply Hb. lia. }
  destruct (DSPCore.pickResting notes noteId (seq 0 nVoice) []) as [|x p] eqn:Hp;
    [discriminate|].
  injection Hh as ->. apply (noteOn_voice_picked notes nVoice noteId i p Hp).
Qed.

End NoteOnFacts.


Section NoteOnExamples.
#[local] Existing Instance binary32.
Import TestBedSynth.



(** The comparison handed to [std::sort] does not always keep an
    attacking voice from being stolen: in [example_attacking_pool] no
    voice is at rest or carries the id, the first voice is attacking and
    the second is not, and [noteOn] steals the first. *)
Lemma noteOn_steals_attacking_voice :
  DSPCore.steals example_attacking_pool 2 67 = true
  /\ DSPCore.noteOn_voice example_attacking_pool 2 67 = Some 0%nat
  /\ exists n0 n1 : Note.t unit,
       example_attacking_pool !! 0%nat = Some n0
       /\ example_attacking_pool !! 1%nat = Some n1
       /\ Note.isAttacking n0 = true /\ Note.isAttacking n1 = false.
Proof.
  split; [vm_compute; reflexivity|]. split; [vm_compute; reflexivity|].
  eexists _, _. repeat split.
Qed.

(** The comparison is no strict weak ordering, which [std::sort]
    requires: the attacking voice is equivalent to both others of
    [[1; attacking 0; 1/2]], which are not equivalent to each other. *)
Lemma quieter_not_a_strict_weak_ordering :
  let pool :=
    [example_voice active 60 ADSREnvelope.decay (of_Z 1);
     example_voice active 62 ADSREnvelope.attack (of_Z 0);
     example_voice active 64 ADSREnvelope.decay (of_Z 1 / of_Z 2)] in
  DSPCore.quieter pool 0 1 = false /\ DSPCore.quieter pool 1 0 = false
  /\ DSPCore.quieter pool 1 2 = false /\ DSPCore.quieter pool 2 1 = false
  /\ DSPCore.quieter pool 2 0 = true.
Proof. vm_compute. repeat split. Qed.

End NoteOnExamples.

(** * The delay line with fractional read *)

Section DelayFacts.
Context {F : Format}.
Import DoubleLoopCymbal.

(** [setup] leaves [max(4, maxTimeSamples + 4)] zeros. *)
Lemma Delay_setup_capacity (d d' : Delay.t) (maxTimeSamples : Sample) :
  Delay.setup d maxTimeSamples = Some d' ->
  exists n, Std.to_size_t maxTimeSamples = Some n
    /\ Delay.buf d' = replicate (Z.to_nat (Z.max 4 (n + 4))) (of_Z 0)
    /\ (4 <= Z.of_nat (length (Delay.buf d')))%Z.
Proof.
  unfold Delay.setup. destruct (Std.to_size_t maxTimeSamples) as [n|]; [|discriminate].
  simpl. intros [= <-]. exists n. unfold Delay.reset; simpl.
  rewrite length_resize. split; [reflexivity|]. split; [reflexivity|].
  rewrite length_replicate. lia.
Qed.

Lemma load_store_length {A} (v v' : list A) (i : Z) (x : A) :
  Std.store v i x = Some v' -> length v' = length v.
Proof.
  unfold Std.store. destruct (decide _); [|discriminate].
  intros [= <-]. apply length_insert.
Qed.

Lemma load_defined {A} (v : list A) (i : Z) :
  (0 <= i < Z.of_nat (length v))%Z -> is_Some (Std.load v i).
Proof.
  intros Hi. unfold Std.load. destruct (decide (0 <= i)%Z); [|lia].
  apply lookup_lt_is_Some. lia.
Qed.

(** The read pointers stay inside the buffer for a read offset within
    [[0, size - 4]]. *)
Lemma rptrs_valid (size w timeInt : Z) :
  (4 <= size)%Z -> (0 <= w < size)%Z -> (0 <= timeInt <= size - 4)%Z ->
  let '(r0, r1, r2, r3) := Delay.rptrs size w timeInt in
  (0 <= r0 < size)%Z /\ (0 <= r1 < size)%Z /\ (0 <= r2 < size)%Z /\ (0 <= r3 < size)%Z.
Proof.
  intros Hs Hw Ht. unfold Delay.rptrs, Delay.wrap.
  repeat destruct (decide _); lia.
Qed.

Lemma advance_range (size w : Z) :
  (1 <= size)%Z -> (0 <= w)%Z -> (0 <= Delay.advance size w < size)%Z.
Proof. intros Hs Hw. unfold Delay.advance. destruct (decide _); lia. Qed.

(** What [process] does around the interpolation: it advances the write
    pointer first, wrapping at the capacity, writes the input there, and
    reads four samples at valid indices, provided the clamped time came
    out inside [[0, size - 4]]. *)
Lemma Delay_process_defined (d : Delay.t) (input timeInSamples : Sample) (c : Z) :
  let size := Z.of_nat (length (Delay.buf d)) in
  (4 <= size)%Z -> (0 <= Delay.wptr d)%Z ->
  Delay.clampedTime size timeInSamples = Some c -> (0 <= c <= size - 4)%Z ->
  exists y d',
    Delay.process d input timeInSamples = Some (y, d')
    /\ Delay.wptr d' = Delay.advance size (Delay.wptr d)
    /\ Delay.buf d' = <[Z.to_nat (Delay.wptr d') := input]> (Delay.buf d)
    /\ (0 <= Delay.wptr d' < size)%Z.
Proof.
  intros size Hs Hw Hc Hr. unfold Delay.process. fold size. rewrite Hc. simpl.
  pose proof (advance_range size (Delay.wptr d) ltac:(lia) Hw) as Ha.
  unfold Std.store at 1. fold size.
  destruct (decide (0 <= Delay.advance size (Delay.wptr d) < size)%Z); [|lia].
  simpl.
  pose proof (rptrs_valid size (Delay.advance size (Delay.wptr d)) c Hs Ha Hr) as Hv.
  unfold Delay.rptrs in *. cbv zeta in Hv.
  destruct Hv as (H0 & H1 & H2 & H3).
  set (buf' := <[Z.to_nat (Delay.advance size (Delay.wptr d)) := input]> (Delay.buf d)).
  assert (Z.of_nat (length buf') = size) as Hl
    by (unfold buf'; rewrite length_insert; reflexivity).
  destruct (load_defined buf' _ ltac:(rewrite Hl; exact H0)) as [y0 E0].
  destruct (load_defined buf' _ ltac:(rewrite Hl; exact H1)) as [y1 E1].
  destruct (load_defined buf' _ ltac:(rewrite Hl; exact H2)) as [y2 E2].
  destruct (load_defined buf' _ ltac:(rewrite Hl; exact H3)) as [y3 E3].
  rewrite E0, E1, E2, E3. simpl.
  eexists _, _. split; [reflexivity|]. simpl. repeat split; lia.
Qed.

(** The interpolation offset is computed from the integer [clamped]
    alone: two delay times with the same truncated clamp give the same
    output and state. *)
Lemma Delay_process_ignores_fraction (d : Delay.t) (input t1 t2 : Sample) :
  let size := Z.of_nat (length (Delay.buf d)) in
  Delay.clampedTime size t1 = Delay.clampedTime size t2 ->
  Delay.process d input t1 = Delay.process d input t2.
Proof.
  intros size H. unfold Delay.process. fold size. rewrite H. reflexivity.
Qed.

End DelayFacts.

Section DelayExamples.
#[local] Existing Instance binary32.
Import DoubleLoopCymbal.

(** [example_delay] is what [setup(4)] and six calls of [process] leave. *)
Lemma example_delay_reachable :
  (d ← Delay.setup Delay.init (of_Z 4);
   feed d (of_Z <$> [1; 2; 4; 8; 16; 32]%Z) (of_Z 2))
  = Some example_delay.
Proof. vm_compute. reflexivity. Qed.

(** C3 fails on the code for a delay time with a fraction. With a delay
    of 3.5 samples the clamped read position 2.5 is truncated to 2 by the
    [int] type of [clamped], so the interpolation offset is 0 and the
    output is 8, the sample delayed by 3; interpolating at offset 0.5, as
    the claim has it, gives 5.625. *)
Theorem Delay_process_truncates_fraction :
  Delay.clampedTime 8 (of_Z 7 / of_Z 2) = Some 2%Z
  /\ fst <$> Delay.process example_delay (of_Z 64) (of_Z 7 / of_Z 2)
     = Some (of_Z 8)
  /\ Delay.process example_delay (of_Z 64) (of_Z 7 / of_Z 2)
     = Delay.process example_delay (of_Z 64) (of_Z 3)
  /\ fst <$> process_as_specified example_delay (of_Z 64) (of_Z 7 / of_Z 2)
     = Some (of_Z 45 / of_Z 8)
  /\ lagrange3Interp (of_Z 16) (of_Z 8) (of_Z 4) (of_Z 2) (of_Z 1 / of_Z 2)
     = of_Z 45 / of_Z 8.
Proof. vm_compute. repeat split. Qed.

End DelayExamples.

(** * Exact cases of the rounding *)

Section RoundingFacts.

Lemma digits_xO_iter (m : positive) (k : nat) :
  Zpos (digits2_pos (Nat.iter k xO m)) = (Zpos (digits2_pos m) + Z.of_nat k)%Z.
Proof.
  induction k as [|k IH]; [simpl; lia|].
  rewrite Nat.iter_succ. cbn [digits2_pos]. rewrite Pos2Z.inj_succ, IH. lia.
Qed.

Lemma shr_xO_iter (m : positive) (k : nat) :
  Nat.iter k shr_1
    {| shr_m := Zpos (Nat.iter k xO m); shr_r := false; shr_s := false |}
  = {| shr_m := Zpos m; shr_r := false; shr_s := false |}.
Proof.
  induction k as [|k IH]; [reflexivity|].
  rewrite Nat.iter_succ_r, Nat.iter_succ. cbn [shr_1 orb]. exact IH.
Qed.

Lemma iter_pos_nat {A} (f : A -> A) (p : positive) (x : A) :
  SpecFloat.iter_pos f p x = Nat.iter (Pos.to_nat p) f x.
Proof.
  revert x. induction p as [p IH|p IH|]; intros x; cbn [SpecFloat.iter_pos].
  - rewrite !IH, Pos2Nat.inj_xI, <- Nat.iter_add, <- Nat.iter_succ_r.
    f_equal. lia.
  - rewrite !IH, Pos2Nat.inj_xO, <- Nat.iter_add. f_equal. lia.
  - reflexivity.
Qed.

Lemma mul_pow2 (m : positive) (k : nat) :
  (m * Nat.iter k xO 1)%positive = Nat.iter k xO m.
Proof.
  induction k as [|k IH]; [simpl; lia|].
  rewrite !Nat.iter_succ, Pos.mul_xO_r, IH. reflexivity.
Qed.

Lemma shr_exact (m : positive) (e : Z) (k : positive) :
  shr {| shr_m := Zpos (Nat.iter (Pos.to_nat k) xO m); shr_r := false;
         shr_s := false |} e (Zpos k)
  = ({| shr_m := Zpos m; shr_r := false; shr_s := false |}, (e + Zpos k)%Z).
Proof. unfold shr. rewrite iter_pos_nat, shr_xO_iter. reflexivity. Qed.

Lemma shr_1_nonneg (r : shr_record) : (0 <= shr_m r)%Z -> (0 <= shr_m (shr_1 r))%Z.
Proof.
  destruct r as [m r s]. destruct m as [|[p|p|]|p]; simpl; lia.
Qed.

Lemma shr_nonneg (r : shr_record) (e n : Z) :
  (0 <= shr_m r)%Z -> (0 <= shr_m (shr r e n).1)%Z.
Proof.
  intros H. unfold shr. destruct n as [|p|p]; simpl; try assumption.
  rewrite iter_pos_nat. induction (Pos.to_nat p) as [|k IH]; [assumption|].
  rewrite Nat.iter_succ. apply shr_1_nonneg, IH.
Qed.

Context {F : Format}.

(** No rounding happens on a canonical mantissa shifted left by [k]. *)
Lemma round_aux_shifted (s : bool) (m : positive) (e : Z) (k : positive) :
  valid (S754_finite s m e) = true ->
  binary_round_aux (prec F) (emax F) s (Zpos (Nat.iter (Pos.to_nat k) xO m))
    (e - Zpos k) loc_Exact
  = S754_finite s m e.
Proof.
  unfold valid, valid_binary, bounded, canonical_mantissa.
  intros H. apply andb_true_iff in H as [Hc Hb]. apply Z.eqb_eq in Hc.
  unfold binary_round_aux, shr_fexp.
  cbn [Zdigits2 shr_record_of_loc]. rewrite digits_xO_iter, positive_nat_Z.
  replace (Z.pos (digits2_pos m) + Z.pos k + (e - Z.pos k))%Z
    with (Z.pos (digits2_pos m) + e)%Z by lia.
  rewrite Hc. replace (e - (e - Z.pos k))%Z with (Z.pos k) by lia.
  rewrite shr_exact. cbn [shr_m loc_of_shr_record round_nearest_even].
  replace (e - Z.pos k + Z.pos k)%Z with e by lia.
  cbn [Zdigits2 shr_record_of_loc]. rewrite Hc, Z.sub_diag. cbn [shr shr_m].
  rewrite Hb. reflexivity.
Qed.

(** Nor on a canonical mantissa itself. *)
Lemma round_aux_canonical (s : bool) (m : positive) (e : Z) :
  valid (S754_finite s m e) = true ->
  binary_round_aux (prec F) (emax F) s (Zpos m) e loc_Exact = S754_finite s m e.
Proof.
  unfold valid, valid_binary, bounded, canonical_mantissa.
  intros H. apply andb_true_iff in H as [Hc Hb]. apply Z.eqb_eq in Hc.
  unfold binary_round_aux, shr_fexp.
  cbn [Zdigits2 shr_record_of_loc]. rewrite Hc, Z.sub_diag.
  cbn [shr shr_m loc_of_shr_record round_nearest_even Zdigits2 shr_record_of_loc].
  rewrite Hc, Z.sub_diag. cbn [shr shr_m]. rewrite Hb. reflexivity.
Qed.

(** The rounding never makes a NaN of a non-negative mantissa. *)
Lemma round_aux_not_nan (s : bool) (m e : Z) (l : location) :
  (0 <= m)%Z -> isnan (binary_round_aux (prec F) (emax F) s m e l) = false.
Proof.
  intros Hm. unfold binary_round_aux, shr_fexp.
  set (n1 := (fexp (prec F) (emax F) (Zdigits2 m + e) - e)%Z).
  pose proof (shr_nonneg (shr_record_of_loc m l) e n1) as H1.
  destruct (shr (shr_record_of_loc m l) e n1) as [mrs' e'] eqn:E1.
  simpl in H1.
  assert (0 <= shr_m (shr_record_of_loc m l))%Z as H0
    by (destruct l as [|[]]; simpl; exact Hm).
  specialize (H1 H0).
  set (m2 := round_nearest_even (shr_m mrs') (loc_of_shr_record mrs')).
  assert (0 <= m2)%Z as H2.
  { unfold m2, round_nearest_even.
    destruct (loc_of_shr_record mrs') as [|[]]; try lia.
    destruct (Z.even (shr_m mrs')); lia. }
  set (n2 := (fexp (prec F) (emax F) (Zdigits2 m2 + e') - e')%Z).
  pose proof (shr_nonneg (shr_record_of_loc m2 loc_Exact) e' n2 H2) as H3.
  destruct (shr (shr_record_of_loc m2 loc_Exact) e' n2) as [mrs'' e''].
  simpl in H3. destruct (shr_m mrs'') as [|p|p]; try reflexivity; [|lia].
  destruct (e'' <=? emax F - prec F)%Z; reflexivity.
Qed.

End RoundingFacts.

Section ExactFacts.
Context {F : Format}.

Lemma format_facts :
  (prec F = Zpos fraction_bits + 1 /\ 23 <= Zpos fraction_bits
   /\ emin (prec F) (emax F) <= 1 - prec F /\ 1 <= emax F - prec F)%Z.
Proof. destruct F; cbv; repeat split; discriminate. Qed.

Lemma digits_le (p : positive) (k : nat) :
  (Zpos p < 2 ^ Z.of_nat k)%Z -> (Zpos (digits2_pos p) <= Z.of_nat k)%Z.
Proof.
  revert k. induction p as [p IH|p IH|]; intros k H.
  - destruct k as [|k]; [simpl in H; lia|].
    rewrite Nat2Z.inj_succ, Z.pow_succ_r in H by lia.
    cbn [digits2_pos]. rewrite Pos2Z.inj_succ. specialize (IH k). lia.
  - destruct k as [|k]; [simpl in H; lia|].
    rewrite Nat2Z.inj_succ, Z.pow_succ_r in H by lia.
    cbn [digits2_pos]. rewrite Pos2Z.inj_succ. specialize (IH k). lia.
  - destruct k as [|k]; [simpl in H; lia|]. simpl. lia.
Qed.

(** An integer of at most [prec] bits converts exactly, to a normal number. *)
Lemma of_Z_pos_normal (p : positive) :
  (Zpos (digits2_pos p) <= prec F)%Z ->
  exists m e,
    of_Z (Zpos p) = S754_finite false m e
    /\ Zpos (digits2_pos m) = prec F /\ (1 - prec F <= e <= 0)%Z.
Proof.
  intros Hd. destruct format_facts as (Hp & _ & Hmin & Hmax).
  unfold of_Z, binary_normalize, binary_round.
  assert (fexp (prec F) (emax F) (Zpos (digits2_pos p) + 0)
          = (Zpos (digits2_pos p) - prec F)%Z) as ->
    by (unfold fexp; lia).
  unfold shl_align.
  destruct (Z.pos (digits2_pos p) - prec F - 0)%Z as [|k|k] eqn:Ek; try lia.
  - exists p, 0%Z. split; [|lia].
    apply round_aux_canonical. unfold valid, valid_binary, bounded, canonical_mantissa.
    apply andb_true_iff. split; [apply Z.eqb_eq; unfold fexp; lia | apply Z.leb_le; lia].
  - rewrite Pos2Nat.inj_iter.
    change (nat_rect (fun _ => positive) p (fun _ => xO) (Pos.to_nat k))
      with (Nat.iter (Pos.to_nat k) xO p).
    exists (Nat.iter (Pos.to_nat k) xO p), (Zpos (digits2_pos p) - prec F)%Z.
    assert (Zpos (digits2_pos (Nat.iter (Pos.to_nat k) xO p)) = prec F) as Hdig
      by (rewrite digits_xO_iter, positive_nat_Z; lia).
    split; [|split; [exact Hdig | lia]].
    apply round_aux_canonical. unfold valid, valid_binary, bounded, canonical_mantissa.
    rewrite Hdig.
    apply andb_true_iff. split; [apply Z.eqb_eq; unfold fexp; lia | apply Z.leb_le; lia].
Qed.

Lemma of_Z_two :
  of_Z 2 = S754_finite false (Nat.iter (Pos.to_nat fraction_bits) xO 1%positive)
             (1 - Zpos fraction_bits).
Proof. destruct F; reflexivity. Qed.

(** [Sample(2) * n] is a non-zero number for a positive [n] of at most 23 bits. *)
Lemma norm_finite (n : Z) :
  (1 <= n < 2 ^ 23)%Z ->
  exists m e, of_Z 2 * of_Z n = S754_finite false m e.
Proof.
  intros Hn. destruct format_facts as (Hp & Hfb & Hmin & Hmax).
  destruct n as [|p|p]; try lia.
  destruct (of_Z_pos_normal p) as (m & e & -> & Hd & He).
  { pose proof (digits_le p 23 ltac:(simpl; lia)). lia. }
  rewrite of_Z_two. exists m, (e + 1)%Z.
  unfold fmul, SFmul. rewrite Pos.mul_comm, mul_pow2. cbn [xorb].
  replace (1 - Z.pos fraction_bits + e)%Z with (e + 1 - Zpos fraction_bits)%Z by lia.
  apply round_aux_shifted. unfold valid, valid_binary, bounded, canonical_mantissa.
  rewrite Hd.
  apply andb_true_iff. split; [apply Z.eqb_eq; unfold fexp; lia | apply Z.leb_le; lia].
Qed.

Lemma fdiv_finite_not_nan (sx : bool) (mx : positive) (ex : Z) (sy : bool)
  (my : positive) (ey : Z) :
  isnan (S754_finite sx mx ex / S754_finite sy my ey) = false.
Proof.
  unfold fdiv, SFdiv, SFdiv_core_binary.
  set (m' := match _ with Z.pos _ => _ | 0%Z => _ | Z.neg _ => _ end).
  assert (0 <= m')%Z as Hm'.
  { unfold m'. destruct (_ - _ - _)%Z; try lia. apply Z.shiftl_nonneg. lia. }
  pose proof (Z_div_mod m' (Zpos my) ltac:(lia)) as Hq.
  destruct (Z.div_eucl m' (Zpos my)) as [q r]. destruct Hq as [Hq Hr].
  apply round_aux_not_nan. nia.
Qed.

Lemma feq_finite_eq (x y : Sample) :
  feq x y = true -> isfinite y = true ->
  x = y \/ (is_zero x = true /\ is_zero y = true).
Proof.
  unfold feq, SFeqb.
  destruct x as [sx|sx| |sx mx ex], y as [sy|sy| |sy my ey]; simpl;
    try discriminate; auto;
    try (destruct sx; discriminate); try (destruct sy; discriminate).
  intros H _. left.
  destruct sx, sy; try discriminate;
    destruct (Z.compare_spec ex ey); try discriminate; subst;
    change (Pos.compare_cont Eq mx my) with (Pos.compare mx my) in H;
    destruct (Pos.compare_spec mx my); try discriminate; subst; reflexivity.
Qed.

Lemma feq_refl (x : Sample) : isnan x = false -> feq x x = true.
Proof.
  intros H. pose proof (fle_refl x H) as Hle. pose proof (flt_irrefl x) as Hlt.
  unfold feq, fle, flt, SFeqb, SFleb, SFltb in *.
  destruct (SFcompare x x) as [[]|]; congruence.
Qed.

(** Division by a non-zero number preserves [==] on finite dividends. *)
Lemma fdiv_feq (u a d : Sample) (m : positive) (e : Z) :
  d = S754_finite false m e ->
  feq u a = true -> isfinite a = true -> feq (u / d) (a / d) = true.
Proof.
  intros -> Hua Ha. destruct (feq_finite_eq u a Hua Ha) as [->|[Hu Hz]].
  - apply feq_refl. destruct a as [s|s| |s ma ea]; try discriminate; try reflexivity.
    apply fdiv_finite_not_nan.
  - destruct u, a; try discriminate. reflexivity.
Qed.

Lemma of_Z_one :
  of_Z 1 = S754_finite false (Nat.iter (Pos.to_nat fraction_bits) xO 1%positive)
             (- Zpos fraction_bits)
  /\ of_Z (-1) = S754_finite true (Nat.iter (Pos.to_nat fraction_bits) xO 1%positive)
             (- Zpos fraction_bits).
Proof. destruct F; split; reflexivity. Qed.

Lemma fmul_one_r (x : Sample) : valid x = true -> x * of_Z 1 = x.
Proof.
  intros Hx. destruct of_Z_one as [-> _].
  destruct x as [s|s| |s m e]; try (destruct s; reflexivity); try reflexivity.
  unfold fmul, SFmul. rewrite mul_pow2, xorb_false_r.
  apply (round_aux_shifted s m e fraction_bits Hx).
Qed.

Lemma fmul_minus_one_r (x : Sample) : valid x = true -> x * of_Z (-1) = - x.
Proof.
  intros Hx. destruct of_Z_one as [_ ->].
  destruct x as [s|s| |s m e]; try (destruct s; reflexivity); try reflexivity.
  unfold fmul, SFmul, fneg, SFopp. rewrite mul_pow2, xorb_true_r.
  apply (round_aux_shifted (negb s) m e fraction_bits). exact Hx.
Qed.

End ExactFacts.

(** * The serial allpass chain: the sum over the taps *)

Section SumFacts.
Context {F : Format}.
Import DoubleLoopCymbal.

Lemma partial_sum_ext (f g : nat -> Sample) (n : nat) :
  (forall i, (i < n)%nat -> f i = g i) -> partial_sum f n = partial_sum g n.
Proof.
  induction n as [|n IH]; intros H; [reflexivity|].
  simpl. rewrite IH, H by (intros; try apply H; lia). reflexivity.
Qed.

Lemma tap_app_l (l : list Sample) (x : Sample) (i : nat) :
  (i < length l)%nat -> tap (l ++ [x]) i = tap l i.
Proof. intros H. unfold tap. rewrite lookup_app_l by assumption. reflexivity. Qed.

Lemma tap_app_r (l : list Sample) (x : Sample) : tap (l ++ [x]) (length l) = x.
Proof.
  unfold tap. rewrite lookup_app_r by lia. rewrite Nat.sub_diag. reflexivity.
Qed.

Lemma plain_sum_snoc (l : list Sample) (x : Sample) :
  plain_sum (l ++ [x]) = plain_sum l + x.
Proof.
  unfold plain_sum. rewrite length_app, Nat.add_1_r. simpl.
  rewrite tap_app_r. f_equal. apply partial_sum_ext. intros i Hi.
  apply tap_app_l, Hi.
Qed.

Lemma alternating_sum_snoc (l : list Sample) (x : Sample) :
  alternating_sum (l ++ [x])
  = alternating_sum l + (if Nat.even (length l) then x else - x).
Proof.
  unfold alternating_sum. rewrite length_app, Nat.add_1_r. simpl.
  rewrite tap_app_r. f_equal. apply partial_sum_ext. intros i Hi.
  rewrite tap_app_l by assumption. reflexivity.
Qed.

Lemma sumDirect_plain_sum (l : list Sample) : SerialAllpass.sumDirect l = plain_sum l.
Proof.
  induction l as [|x l IH] using rev_ind; [reflexivity|].
  rewrite plain_sum_snoc, <- IH.
  unfold SerialAllpass.sumDirect, Std.accumulate. rewrite fold_left_app. reflexivity.
Qed.

Lemma sign_after_succ (k : nat) : - sign_after k = sign_after (S k).
Proof.
  unfold sign_after. rewrite Nat.even_succ, <- Nat.negb_even.
  destruct (Nat.even k); destruct F; reflexivity.
Qed.

Lemma sumAlt_loop (l : list Sample) :
  Forall (fun x => valid x = true) l ->
  fold_left SerialAllpass.sumAlt_step l (of_Z 0, of_Z 1)
  = (alternating_sum l, sign_after (length l)).
Proof.
  induction l as [|x l IH] using rev_ind; intros Hv; [reflexivity|].
  apply Forall_app in Hv as [Hl Hx]. rewrite Forall_singleton in Hx.
  rewrite fold_left_app, IH by assumption.
  cbn [fold_left]. unfold SerialAllpass.sumAlt_step. cbn [fst snd].
  rewrite sign_after_succ, alternating_sum_snoc, length_app, Nat.add_1_r.
  f_equal. f_equal. unfold sign_after.
  destruct (Nat.even (length l)); [apply fmul_one_r | apply fmul_minus_one_r];
    exact Hx.
Qed.

Lemma sumAlt_alternating_sum (l : list Sample) :
  Forall (fun x => valid x = true) l -> SerialAllpass.sumAlt l = alternating_sum l.
Proof.
  intros Hv. unfold SerialAllpass.sumAlt. rewrite sumAlt_loop by assumption.
  reflexivity.
Qed.

End SumFacts.

(** C5, as the code has it. For every state of the tap buffer (of
    well-formed samples) and every [altSignMix], [sum] returns
    [lerp(S_direct, S_alt, altSignMix) / (2 * nAllpass)], [S_direct] being
    the plain sum of the taps and [S_alt] their sum with the signs
    [+, -, +, ...]. When both sums are finite, so that [std::lerp] returns
    its end points, [sum(0)] is the plain sum and [sum(1)] the
    alternating one, each divided by [2 * nAllpass]. *)
Theorem sum_is_normalized_lerp :
  forall (F : Format) (lerp : Sample -> Sample -> Sample -> Sample)
    (s : DoubleLoopCymbal.SerialAllpass.t) (altSignMix : Sample),
    Forall (fun x => valid x = true) (DoubleLoopCymbal.SerialAllpass.buffer s) ->
    let S_direct := plain_sum (DoubleLoopCymbal.SerialAllpass.buffer s) in
    let S_alt := alternating_sum (DoubleLoopCymbal.SerialAllpass.buffer s) in
    let norm := of_Z 2 * of_Z (DoubleLoopCymbal.SerialAllpass.nAllpass s) in
    DoubleLoopCymbal.SerialAllpass.sum lerp s altSignMix
    = lerp S_direct S_alt altSignMix / norm
    /\ ((1 <= DoubleLoopCymbal.SerialAllpass.nAllpass s < 2 ^ 23)%Z ->
        isfinite S_direct = true -> isfinite S_alt = true ->
        lerp_hits_endpoints lerp S_direct S_alt ->
        feq (DoubleLoopCymbal.SerialAllpass.sum lerp s (of_Z 0)) (S_direct / norm) = true
        /\ feq (DoubleLoopCymbal.SerialAllpass.sum lerp s (of_Z 1)) (S_alt / norm) = true).
Proof.
  intros F lerp s altSignMix Hv S_direct S_alt norm.
  assert (forall t, DoubleLoopCymbal.SerialAllpass.sum lerp s t
                    = lerp S_direct S_alt t / norm) as Hsum.
  { intros t. unfold DoubleLoopCymbal.SerialAllpass.sum.
    rewrite sumDirect_plain_sum, sumAlt_alternating_sum by assumption.
    reflexivity. }
  split; [apply Hsum|].
  intros Hn Hd Ha [H0 H1].
  destruct (norm_finite _ Hn) as (m & e & Hnorm).
  rewrite !Hsum. split; eapply fdiv_feq; eassumption.
Qed.

Section SumExamples.
#[local] Existing Instance binary32.
Import DoubleLoopCymbal.

(** The witness of C5: with the taps 1, 2, 4 and the [std::lerp] of
    libstdc++, [sum(0) = 7/6] and [sum(1) = 3/6]. *)
Lemma sum_is_normalized_lerp_witness :
  Forall (fun x => valid x = true) (SerialAllpass.buffer example_chain)
  /\ (1 <= SerialAllpass.nAllpass example_chain < 2 ^ 23)%Z
  /\ lerp_hits_endpoints Std.lerp (plain_sum (SerialAllpass.buffer example_chain))
       (alternating_sum (SerialAllpass.buffer example_chain))
  /\ SerialAllpass.sum Std.lerp example_chain (of_Z 1 / of_Z 2)
     = Std.lerp (of_Z 7) (of_Z 3) (of_Z 1 / of_Z 2) / of_Z 6
  /\ feq (SerialAllpass.sum Std.lerp example_chain (of_Z 0)) (of_Z 7 / of_Z 6) = true
  /\ feq (SerialAllpass.sum Std.lerp example_chain (of_Z 1)) (of_Z 3 / of_Z 6) = true.
Proof.
  assert (Forall (fun x => valid x = true) (SerialAllpass.buffer example_chain)) as Hv
    by (repeat constructor).
  assert (1 <= SerialAllpass.nAllpass example_chain < 2 ^ 23)%Z as Hn
    by (unfold SerialAllpass.nAllpass; simpl; lia).
  assert (lerp_hits_endpoints Std.lerp
            (plain_sum (SerialAllpass.buffer example_chain))
            (alternating_sum (SerialAllpass.buffer example_chain))) as He
    by (split; vm_compute; reflexivity).
  destruct (sum_is_normalized_lerp binary32 Std.lerp example_chain (of_Z 1 / of_Z 2) Hv)
    as [Hsum Hends].
  destruct (Hends Hn eq_refl eq_refl He) as [H0 H1].
  split; [exact Hv|]. split; [exact Hn|]. split; [exact He|].
  split; [exact Hsum|]. split; [exact H0 | exact H1].
Defined.

(** C5 as stated fails where a sum overflows: with the taps [FLT_MAX] and
    [-FLT_MAX] the plain sum is 0 and the alternating sum is infinite, so
    [std::lerp] returns NaN at [t = 0] and [sum(0)] is NaN, not the plain
    sum over [2 * nAllpass], which is 0. *)
Lemma sum_endpoint_lost_on_overflow :
  forallb valid (SerialAllpass.buffer example_saturated_chain) = true
  /\ plain_sum (SerialAllpass.buffer example_saturated_chain) = of_Z 0
  /\ alternating_sum (SerialAllpass.buffer example_saturated_chain)
     = S754_infinity false
  /\ SerialAllpass.sum Std.lerp example_saturated_chain (of_Z 0) = S754_nan
  /\ plain_sum (SerialAllpass.buffer example_saturated_chain)
     / (of_Z 2 * of_Z (SerialAllpass.nAllpass example_saturated_chain)) = of_Z 0
  /\ feq (SerialAllpass.sum Std.lerp example_saturated_chain (of_Z 0))
       (plain_sum (SerialAllpass.buffer example_saturated_chain)
        / (of_Z 2 * of_Z (SerialAllpass.nAllpass example_saturated_chain)))
     = false.
Proof. vm_compute. repeat split. Qed.

End SumExamples.

(** * Integer conversions, ring buffers and runs of calls *)

Local Open Scope Z_scope.

Section DigitFacts.

Lemma digits2_pos_bounds (p : positive) :
  2 ^ (Zpos (digits2_pos p) - 1) <= Zpos p < 2 ^ Zpos (digits2_pos p).
Proof.
  induction p as [p IH|p IH|]; cbn [digits2_pos].
  - rewrite Pos2Z.inj_succ.
    replace (Z.succ (Zpos (digits2_pos p)) - 1) with (Z.succ (Zpos (digits2_pos p) - 1)) by lia.
    rewrite !Z.pow_succ_r by lia. lia.
  - rewrite Pos2Z.inj_succ.
    replace (Z.succ (Zpos (digits2_pos p)) - 1) with (Z.succ (Zpos (digits2_pos p) - 1)) by lia.
    rewrite !Z.pow_succ_r by lia. lia.
  - simpl. lia.
Qed.

Lemma Zdigits2_nonneg (m : Z) : 0 <= Zdigits2 m.
Proof. destruct m; simpl; lia. Qed.

Lemma Zdigits2_bounds (m : Z) :
  0 < m -> 2 ^ (Zdigits2 m - 1) <= m < 2 ^ Zdigits2 m.
Proof. destruct m as [|p|p]; try lia. intros _. apply digits2_pos_bounds. Qed.

Lemma Zdigits2_unique (m d : Z) :
  2 ^ (d - 1) <= m < 2 ^ d -> 0 < m -> Zdigits2 m = d.
Proof.
  intros H Hm. pose proof (Zdigits2_bounds m Hm) as Hb.
  pose proof (Zdigits2_nonneg m) as Hn.
  assert (0 < d) as Hd.
  { destruct (Z.lt_ge_cases 0 d); [assumption|].
    assert (2 ^ d <= 2 ^ 0) by (apply Z.pow_le_mono_r; lia). simpl in *. lia. }
  destruct (Z.lt_trichotomy (Zdigits2 m) d) as [Hlt|[Heq|Hgt]]; [|assumption|].
  - assert (2 ^ Zdigits2 m <= 2 ^ (d - 1)) by (apply Z.pow_le_mono_r; lia). lia.
  - assert (2 ^ d <= 2 ^ (Zdigits2 m - 1)) by (apply Z.pow_le_mono_r; lia). lia.
Qed.

Lemma Zdigits2_mono (a b : Z) : 0 <= a <= b -> Zdigits2 a <= Zdigits2 b.
Proof.
  intros [Ha Hab]. destruct (Z.eq_dec a 0) as [->|Hne]; [apply Zdigits2_nonneg|].
  pose proof (Zdigits2_bounds a ltac:(lia)) as Hba.
  pose proof (Zdigits2_bounds b ltac:(lia)) as Hbb.
  destruct (Z.le_gt_cases (Zdigits2 a) (Zdigits2 b)); [assumption|].
  assert (2 ^ Zdigits2 b <= 2 ^ (Zdigits2 a - 1)).
  { apply Z.pow_le_mono_r; [lia|]. lia. }
  lia.
Qed.

Lemma Zdigits2_div_pow2 (m n : Z) :
  0 <= n -> 0 < m / 2 ^ n -> Zdigits2 (m / 2 ^ n) = Zdigits2 m - n.
Proof.
  intros Hn Hq.
  assert (0 < 2 ^ n) as Hp by (apply Z.pow_pos_nonneg; lia).
  assert (0 < m) as Hm.
  { destruct (Z.lt_ge_cases 0 m); [assumption|].
    assert (m / 2 ^ n <= 0) by (apply Z.div_le_upper_bound; lia). lia. }
  pose proof (Zdigits2_bounds m Hm) as [Hlo Hhi].
  assert (n < Zdigits2 m) as Hlt.
  { destruct (Z.lt_ge_cases n (Zdigits2 m)); [assumption|].
    assert (2 ^ Zdigits2 m <= 2 ^ n) by (apply Z.pow_le_mono_r; lia).
    rewrite Z.div_small in Hq by lia. lia. }
  apply Zdigits2_unique; [|assumption].
  split.
  - apply Z.div_le_lower_bound; [assumption|].
    rewrite <- Z.pow_add_r by lia.
    replace (n + (Zdigits2 m - n - 1)) with (Zdigits2 m - 1) by lia. assumption.
  - apply Z.div_lt_upper_bound; [assumption|].
    rewrite <- Z.pow_add_r by lia.
    replace (n + (Zdigits2 m - n)) with (Zdigits2 m) by lia. assumption.
Qed.

Lemma shr_1_div2 (r : shr_record) : 0 <= shr_m r -> shr_m (shr_1 r) = shr_m r / 2.
Proof.
  destruct r as [m r s]. destruct m as [|[p|p|]|p]; cbn [shr_1 shr_m]; intros H; try lia.
  - reflexivity.
  - rewrite Pos2Z.inj_xI. apply Z.div_unique with (r := 1); lia.
  - rewrite Pos2Z.inj_xO. apply Z.div_unique with (r := 0); lia.
  - reflexivity.
Qed.

Lemma shr_iter_div (k : nat) (r : shr_record) :
  0 <= shr_m r ->
  shr_m (Nat.iter k shr_1 r) = shr_m r / 2 ^ Z.of_nat k.
Proof.
  intros H. induction k as [|k IH]; [simpl; rewrite Z.div_1_r; reflexivity|].
  rewrite Nat.iter_succ, shr_1_div2, IH.
  - rewrite Nat2Z.inj_succ, Z.pow_succ_r by lia.
    rewrite Z.div_div by (try apply Z.pow_pos_nonneg; lia). f_equal. lia.
  - rewrite IH. apply Z.div_pos; [assumption|]. apply Z.pow_pos_nonneg; lia.
Qed.

Lemma shr_div (r : shr_record) (e n : Z) :
  0 <= n -> 0 <= shr_m r ->
  (shr r e n).2 = e + n /\ shr_m (shr r e n).1 = shr_m r / 2 ^ n.
Proof.
  intros Hn Hm. unfold shr. destruct n as [|p|p]; try lia; cbn [fst snd].
  - split; [lia|]. rewrite Z.div_1_r. reflexivity.
  - split; [reflexivity|]. rewrite iter_pos_nat, shr_iter_div, positive_nat_Z by assumption.
    reflexivity.
Qed.

End DigitFacts.

Section ValidFacts.
Context {F : Format}.

Lemma fexp_mono (a b : Z) : a <= b -> fexp (prec F) (emax F) a <= fexp (prec F) (emax F) b.
Proof. unfold fexp. lia. Qed.

Lemma fexp_ge_emin (a : Z) : emin (prec F) (emax F) <= fexp (prec F) (emax F) a.
Proof. unfold fexp. lia. Qed.

Lemma prec_pos : 0 < prec F.
Proof. destruct F; reflexivity. Qed.

(** One shift to the exponent the format asks for: what it leaves. *)
Lemma shr_fexp_spec (m e : Z) (l : location) :
  0 <= m -> e <= fexp (prec F) (emax F) (Zdigits2 m + e) ->
  let r := shr_fexp (prec F) (emax F) m e l in
  r.2 = fexp (prec F) (emax F) (Zdigits2 m + e)
  /\ 0 <= shr_m r.1
  /\ (0 < shr_m r.1 -> Zdigits2 (shr_m r.1) + r.2 = Zdigits2 m + e)
  /\ (shr_m r.1 = 0 -> r.2 = emin (prec F) (emax F)).
Proof.
  intros Hm He. unfold shr_fexp.
  set (n := fexp (prec F) (emax F) (Zdigits2 m + e) - e).
  assert (shr_m (shr_record_of_loc m l) = m) as Hrec by (destruct l as [|[]]; reflexivity).
  destruct (shr_div (shr_record_of_loc m l) e n ltac:(lia) ltac:(lia)) as [H2 H1].
  cbv zeta. rewrite H2, H1, Hrec.
  assert (0 < 2 ^ n) as Hp by (apply Z.pow_pos_nonneg; lia).
  split; [lia|]. split; [apply Z.div_pos; lia|]. split.
  - intros Hq. rewrite Zdigits2_div_pow2 by lia. lia.
  - intros Hq. pose proof prec_pos as HP.
    destruct (Z.eq_dec m 0) as [->|Hne].
    + simpl in *. unfold fexp in *. lia.
    + pose proof (Zdigits2_bounds m ltac:(lia)) as [Hlo Hhi].
      assert (m < 2 ^ n) as Hlt.
      { destruct (Z.lt_ge_cases m (2 ^ n)); [assumption|].
        assert (1 <= m / 2 ^ n) by (apply Z.div_le_lower_bound; lia). lia. }
      assert (Zdigits2 m - 1 < n) as Hd.
      { destruct (Z.lt_ge_cases (Zdigits2 m - 1) n); [assumption|].
        assert (2 ^ n <= 2 ^ (Zdigits2 m - 1)) by (apply Z.pow_le_mono_r; lia). lia. }
      unfold fexp in *. lia.
Qed.

Lemma round_nearest_even_bounds (m : Z) (l : location) :
  m <= round_nearest_even m l <= m + 1.
Proof. unfold round_nearest_even. destruct l as [|[]]; try lia. destruct (Z.even m); lia. Qed.

(** Rounding a mantissa that is not shorter than the format asks for
    gives a number of the format. *)
Lemma round_aux_valid (s : bool) (m e : Z) (l : location) :
  0 <= m -> e <= fexp (prec F) (emax F) (Zdigits2 m + e) ->
  valid (binary_round_aux (prec F) (emax F) s m e l) = true.
Proof.
  intros Hm He. unfold binary_round_aux.
  pose proof (shr_fexp_spec m e l Hm He) as H1. cbv zeta in H1.
  destruct (shr_fexp (prec F) (emax F) m e l) as [r1 e1]. cbn [fst snd] in H1.
  destruct H1 as (He1 & Hm1 & Hd1 & Hz1).
  set (m2 := round_nearest_even (shr_m r1) (loc_of_shr_record r1)).
  pose proof (round_nearest_even_bounds (shr_m r1) (loc_of_shr_record r1)) as Hb.
  fold m2 in Hb.
  assert (e1 <= fexp (prec F) (emax F) (Zdigits2 m2 + e1)) as He2.
  { destruct (Z.eq_dec (shr_m r1) 0) as [Hz|Hnz].
    - rewrite (Hz1 Hz). apply fexp_ge_emin.
    - specialize (Hd1 ltac:(lia)).
      pose proof (Zdigits2_mono (shr_m r1) m2 ltac:(lia)) as Hmono.
      rewrite He1 at 1. rewrite <- Hd1. apply fexp_mono. lia. }
  pose proof (shr_fexp_spec m2 e1 loc_Exact ltac:(lia) He2) as H2. cbv zeta in H2.
  destruct (shr_fexp (prec F) (emax F) m2 e1 loc_Exact) as [r3 e3]. cbn [fst snd] in H2.
  destruct H2 as (He3 & Hm3 & Hd3 & _).
  destruct (shr_m r3) as [|p|p] eqn:E3; try reflexivity.
  destruct (e3 <=? emax F - prec F) eqn:Eb; [|reflexivity].
  unfold valid, valid_binary, bounded, canonical_mantissa.
  rewrite Eb, andb_true_r. apply Z.eqb_eq.
  specialize (Hd3 ltac:(lia)). simpl in Hd3. rewrite Hd3. lia.
Qed.

Lemma binary_round_valid (s : bool) (m : positive) (e : Z) :
  valid (binary_round (prec F) (emax F) s m e) = true.
Proof.
  unfold binary_round, shl_align.
  set (e' := fexp (prec F) (emax F) (Zpos (digits2_pos m) + e)).
  destruct (e' - e) as [|d|d] eqn:Ed.
  - apply round_aux_valid; [lia|]. simpl. fold e'. lia.
  - apply round_aux_valid; [lia|]. simpl. fold e'. lia.
  - apply round_aux_valid; [lia|]. simpl.
    rewrite Pos2Nat.inj_iter.
    change (nat_rect (fun _ => positive) m (fun _ => xO) (Pos.to_nat d))
      with (Nat.iter (Pos.to_nat d) xO m).
    rewrite digits_xO_iter, positive_nat_Z.
    replace (Zpos (digits2_pos m) + Zpos d + e') with (Zpos (digits2_pos m) + e) by lia.
    fold e'. lia.
Qed.

Lemma binary_normalize_valid (m e : Z) (sz : bool) :
  valid (binary_normalize (prec F) (emax F) m e sz) = true.
Proof. destruct m; [reflexivity | apply binary_round_valid ..]. Qed.

Lemma valid_opp (x : Sample) : valid (SFopp x) = valid x.
Proof. destruct x; reflexivity. Qed.

(** Sums and differences of numbers of the format are numbers of the format. *)
Lemma fadd_valid (x y : Sample) :
  valid x = true -> valid y = true -> valid (x + y)%fl = true.
Proof.
  intros Hx Hy. unfold fadd, SFadd.
  destruct x as [sx|sx| |sx mx ex], y as [sy|sy| |sy my ey];
    try reflexivity; try assumption;
    try (destruct sx, sy; reflexivity).
  apply binary_normalize_valid.
Qed.

Lemma fsub_valid (x y : Sample) :
  valid x = true -> valid y = true -> valid (x - y)%fl = true.
Proof.
  intros Hx Hy. unfold fsub, SFsub.
  destruct x as [sx|sx| |sx mx ex], y as [sy|sy| |sy my ey];
    try reflexivity; try assumption;
    try (destruct sx, sy; reflexivity).
  apply binary_normalize_valid.
Qed.

Lemma of_Z_valid (z : Z) : valid (of_Z z) = true.
Proof. apply binary_normalize_valid. Qed.

End ValidFacts.

Section TruncFacts.
Context {F : Format}.

(** A canonical mantissa has at most [prec] digits, and exactly [prec]
    above the smallest exponent. *)
Lemma valid_finite (s : bool) (m : positive) (e : Z) :
  valid (S754_finite s m e) = true ->
  Zpos m < 2 ^ prec F /\ emin (prec F) (emax F) <= e
  /\ (emin (prec F) (emax F) < e -> 2 ^ (prec F - 1) <= Zpos m).
Proof.
  unfold valid, valid_binary, bounded, canonical_mantissa.
  intros H. apply andb_true_iff in H as [Hc _]. apply Z.eqb_eq in Hc.
  pose proof (digits2_pos_bounds m) as [Hlo Hhi]. pose proof (@prec_pos F) as HP.
  unfold fexp in Hc.
  assert (Zpos (digits2_pos m) <= prec F) as Hd by lia.
  split; [|split; [lia|]].
  - assert (2 ^ Zpos (digits2_pos m) <= 2 ^ prec F) by (apply Z.pow_le_mono_r; lia). lia.
  - intros He. assert (Zpos (digits2_pos m) = prec F) as <- by lia. exact Hlo.
Qed.

Lemma iter_xO_pow (n : nat) : Zpos (Nat.iter n xO 1%positive) = 2 ^ Z.of_nat n.
Proof.
  induction n as [|n IH]; [reflexivity|].
  rewrite Nat.iter_succ, Pos2Z.inj_xO, IH, Nat2Z.inj_succ, Z.pow_succ_r; lia.
Qed.

(** An integer of at most [prec] bits converts to a normal number of the
    same value. *)
Lemma of_Z_pos_exact (p : positive) :
  Zpos p < 2 ^ prec F ->
  exists m k,
    of_Z (Zpos p) = S754_finite false m (- k)
    /\ 0 <= k < prec F /\ Zpos m = Zpos p * 2 ^ k
    /\ 2 ^ (prec F - 1) <= Zpos m < 2 ^ prec F.
Proof.
  intros Hp. pose proof (@prec_pos F) as HP.
  destruct format_facts as (_ & _ & Hmin & Hmax).
  pose proof (digits2_pos_bounds p) as [Hlo Hhi].
  assert (Zpos (digits2_pos p) <= prec F) as Hd.
  { destruct (Z.le_gt_cases (Zpos (digits2_pos p)) (prec F)); [assumption|].
    assert (2 ^ prec F <= 2 ^ (Zpos (digits2_pos p) - 1)) by (apply Z.pow_le_mono_r; lia).
    lia. }
  unfold of_Z, binary_normalize, binary_round.
  assert (fexp (prec F) (emax F) (Zpos (digits2_pos p) + 0)
          = Zpos (digits2_pos p) - prec F) as ->
    by (unfold fexp; lia).
  unfold shl_align.
  destruct (Z.pos (digits2_pos p) - prec F - 0) as [|k|k] eqn:Ek; try lia.
  - exists p, 0. assert (Zpos (digits2_pos p) = prec F) as Hdp by lia.
    split; [|split; [lia|split; [simpl; lia|rewrite <- Hdp; split; assumption]]].
    apply round_aux_canonical. unfold valid, valid_binary, bounded, canonical_mantissa.
    apply andb_true_iff. split; [apply Z.eqb_eq; unfold fexp; lia | apply Z.leb_le; lia].
  - rewrite Pos2Nat.inj_iter.
    change (nat_rect (fun _ => positive) p (fun _ => xO) (Pos.to_nat k))
      with (Nat.iter (Pos.to_nat k) xO p).
    exists (Nat.iter (Pos.to_nat k) xO p), (Zpos k).
    assert (Zpos (digits2_pos (Nat.iter (Pos.to_nat k) xO p)) = prec F) as Hdig
      by (rewrite digits_xO_iter, positive_nat_Z; lia).
    assert (Zpos (Nat.iter (Pos.to_nat k) xO p) = Zpos p * 2 ^ Zpos k) as Hval.
    { rewrite <- mul_pow2, Pos2Z.inj_mul, iter_xO_pow, positive_nat_Z. reflexivity. }
    split; [|split; [lia|split; [exact Hval|]]].
    + replace (- Zpos k) with (Zpos (digits2_pos p) - prec F) by lia.
      apply round_aux_canonical. unfold valid, valid_binary, bounded, canonical_mantissa.
      rewrite Hdig.
      apply andb_true_iff. split; [apply Z.eqb_eq; unfold fexp; lia | apply Z.leb_le; lia].
    + pose proof (digits2_pos_bounds (Nat.iter (Pos.to_nat k) xO p)) as Hb.
      rewrite Hdig in Hb. exact Hb.
Qed.

Lemma shiftl_neg (m k : Z) : 0 <= k -> Z.shiftl m (- k) = m / 2 ^ k.
Proof.
  intros Hk. rewrite <- Z.shiftr_opp_r, Z.opp_involutive. apply Z.shiftr_div_pow2, Hk.
Qed.

(** The conversion back: [int(Sample(n)) = n]. *)
Lemma ftrunc_of_Z (n : Z) : 0 <= n < 2 ^ prec F -> ftrunc (of_Z n) = Some n.
Proof.
  intros [H0 Hn]. destruct n as [|p|p]; try lia; [reflexivity|].
  destruct (of_Z_pos_exact p Hn) as (m & k & -> & Hk & Hm & _).
  simpl. f_equal. rewrite shiftl_neg, Hm by lia.
  apply Z.div_mul. apply Z.pow_nonzero; lia.
Qed.

Lemma flt_finite_pos (m1 m2 : positive) (e1 e2 : Z) :
  flt (S754_finite false m1 e1) (S754_finite false m2 e2) = false ->
  e2 < e1 \/ (e1 = e2 /\ Zpos m2 <= Zpos m1).
Proof.
  unfold flt, SFltb. simpl.
  change (Pos.compare_cont Eq m1 m2) with (Pos.compare m1 m2).
  destruct (Z.compare_spec e1 e2); try discriminate; try lia.
  destruct (Pos.compare_spec m1 m2); try discriminate; lia.
Qed.

Lemma div_pow2_le (m b k kb : Z) :
  0 <= kb < k -> 0 <= m < 2 * (b * 2 ^ kb) -> m / 2 ^ k <= b.
Proof.
  intros Hk Hm.
  assert (0 < 2 ^ kb) as Hp by (apply Z.pow_pos_nonneg; lia).
  assert (0 < 2 ^ (k - kb - 1)) as Hq by (apply Z.pow_pos_nonneg; lia).
  replace k with (kb + 1 + (k - kb - 1)) by lia.
  rewrite Z.pow_add_r, Z.pow_add_r by lia. change (2 ^ 1) with 2.
  apply Z.div_le_upper_bound; [lia|]. nia.
Qed.

(** The integer part of a number between two integers lies between them. *)
Lemma ftrunc_between (v : Sample) (a b : Z) :
  valid v = true -> 0 <= a -> 0 <= b < 2 ^ prec F -> a < 2 ^ prec F ->
  flt v (of_Z a) = false -> flt (of_Z b) v = false -> isnan v = false ->
  exists z, ftrunc v = Some z /\ a <= z <= b.
Proof.
  intros Hv Ha Hb Ha' Hlo Hhi Hn. pose proof (@prec_pos F) as HP.
  destruct v as [s|s| |s m e]; try discriminate.
  - (* zero *)
    exists 0. split; [reflexivity|]. split; [|lia].
    destruct a as [|p|p]; try lia.
    destruct (of_Z_pos_exact p Ha') as (ma & ka & Ea & _). rewrite Ea in Hlo.
    discriminate Hlo.
  - (* infinity *)
    destruct s.
    + destruct a as [|p|p]; try lia; [discriminate Hlo|].
      destruct (of_Z_pos_exact p Ha') as (ma & ka & Ea & _). rewrite Ea in Hlo.
      discriminate Hlo.
    + destruct b as [|p|p]; try lia; [discriminate Hhi|].
      destruct (of_Z_pos_exact p ltac:(lia)) as (mb & kb & Eb & _). rewrite Eb in Hhi.
      discriminate Hhi.
  - (* finite *)
    destruct s.
    { destruct a as [|p|p]; try lia; [discriminate Hlo|].
      destruct (of_Z_pos_exact p Ha') as (ma & ka & Ea & _). rewrite Ea in Hlo.
      discriminate Hlo. }
    destruct (valid_finite _ _ _ Hv) as (Hm & Hemin & Hnorm).
    destruct format_facts as (_ & _ & Hmin & _).
    destruct b as [|pb|pb]; try lia; [discriminate Hhi|].
    destruct (of_Z_pos_exact pb ltac:(lia)) as (mb & kb & Eb & Hkb & Hmb & Hmb').
    rewrite Eb in Hhi. apply flt_finite_pos in Hhi.
    assert (e <= - kb) as He by lia.
    exists (Z.shiftl (Zpos m) e). split; [reflexivity|].
    replace e with (- (- e)) by lia. rewrite shiftl_neg by lia.
    assert (0 < 2 ^ (- e)) as Hpe by (apply Z.pow_pos_nonneg; lia).
    split.
    + destruct a as [|pa|pa]; try lia; [apply Z.div_pos; lia|].
      destruct (of_Z_pos_exact pa Ha') as (ma & ka & Ea & Hka & Hma & Hma').
      rewrite Ea in Hlo. apply flt_finite_pos in Hlo.
      apply Z.div_le_lower_bound; [assumption|].
      destruct Hlo as [Hlt|[Heq Hle]].
      * specialize (Hnorm ltac:(lia)).
        assert (2 ^ (- e) * 2 <= 2 ^ ka).
        { replace ka with (- e + 1 + (ka + e - 1)) by lia.
          rewrite Z.pow_add_r, Z.pow_add_r by lia. change (2 ^ 1) with 2.
          assert (0 < 2 ^ (ka + e - 1)) by (apply Z.pow_pos_nonneg; lia). nia. }
        assert (2 ^ prec F = 2 * 2 ^ (prec F - 1)) as Hpp.
        { replace (prec F) with (Z.succ (prec F - 1)) at 1 by lia.
          apply Z.pow_succ_r. lia. }
        nia.
      * assert (- e = ka) as -> by lia. nia.
    + destruct Hhi as [Hlt|[Heq Hle]].
      * apply (div_pow2_le _ _ _ kb); [lia|].
        assert (2 ^ prec F = 2 * 2 ^ (prec F - 1)) as Hpp.
        { replace (prec F) with (Z.succ (prec F - 1)) at 1 by lia.
          apply Z.pow_succ_r. lia. }
        lia.
      * assert (- e = kb) as -> by lia.
        apply Z.div_le_upper_bound; [apply Z.pow_pos_nonneg; lia|]. nia.
Qed.

Lemma of_Z_not_nan (z : Z) : isnan (of_Z z) = false.
Proof.
  unfold of_Z, binary_normalize. destruct z as [|p|p]; [reflexivity| |];
    unfold binary_round; destruct (shl_align _ _ _) as [m e];
    apply round_aux_not_nan; lia.
Qed.

Lemma of_Z_le (a b : Z) :
  0 <= a <= b -> b < 2 ^ prec F -> flt (of_Z b) (of_Z a) = false.
Proof.
  intros Hab Hb.
  destruct a as [|pa|pa]; try lia.
  - destruct b as [|pb|pb]; try lia; [reflexivity|].
    destruct (of_Z_pos_exact pb Hb) as (mb & kb & -> & _). reflexivity.
  - destruct b as [|pb|pb]; try lia.
    destruct (of_Z_pos_exact pa ltac:(lia)) as (ma & ka & -> & Hka & Hma & Hma').
    destruct (of_Z_pos_exact pb Hb) as (mb & kb & -> & Hkb & Hmb & Hmb').
    unfold flt, SFltb. simpl.
    change (Pos.compare_cont Eq mb ma) with (Pos.compare mb ma).
    destruct (Z.compare_spec (- kb) (- ka)) as [Heq|Hlt|Hgt]; try reflexivity.
    + assert (ka = kb) as -> by lia.
      assert (0 < 2 ^ kb) by (apply Z.pow_pos_nonneg; lia).
      destruct (Pos.compare_spec mb ma); try reflexivity. nia.
    + exfalso. assert (2 ^ ka * 2 <= 2 ^ kb).
      { replace kb with (ka + 1 + (kb - ka - 1)) by lia.
        rewrite Z.pow_add_r, Z.pow_add_r by lia. change (2 ^ 1) with 2.
        assert (0 < 2 ^ (kb - ka - 1)) by (apply Z.pow_pos_nonneg; lia).
        assert (0 < 2 ^ ka) by (apply Z.pow_pos_nonneg; lia). nia. }
      assert (2 ^ prec F = 2 * 2 ^ (prec F - 1)) as Hpp.
      { replace (prec F) with (Z.succ (prec F - 1)) at 1 by lia.
        apply Z.pow_succ_r. pose proof (@prec_pos F). lia. }
      nia.
Qed.

(** [int(std::clamp(v, Sample(a), Sample(b)))] for a number [v]: defined,
    and between [a] and [b]. *)
Lemma to_int_clamp (v : Sample) (a b : Z) :
  valid v = true -> isnan v = false ->
  0 <= a <= b -> b < 2 ^ prec F -> b <= INT_MAX ->
  exists c, to_int (clamp v (of_Z a) (of_Z b)) = Some c /\ a <= c <= b.
Proof.
  intros Hv Hn Hab Hb Hi.
  assert (forall z, a <= z <= b -> ftrunc (of_Z z) = Some z) as Hof
    by (intros z Hz; apply ftrunc_of_Z; lia).
  assert (forall x z, ftrunc x = Some z -> a <= z <= b ->
            exists c, to_int x = Some c /\ a <= c <= b) as Hto.
  { intros x z Hx Hz. exists z. unfold to_int. rewrite Hx. simpl.
    destruct (decide (INT_MIN <= z <= INT_MAX)) as [_|Hr]; [split; [reflexivity|lia]|].
    unfold INT_MIN in Hr. lia. }
  destruct (clamp_ordered_cases v (of_Z a) (of_Z b) (of_Z_le a b Hab Hb))
    as [[_ ->]|[(_ & _ & ->)|(H1 & H2 & ->)]].
  - apply (Hto _ a); [apply Hof|]; lia.
  - apply (Hto _ b); [apply Hof|]; lia.
  - destruct (ftrunc_between v a b) as (z & Hz & Hr); try assumption; try lia.
    apply (Hto _ z); assumption.
Qed.

Lemma fsub_diag (x : Sample) : isfinite x = true -> (x - x)%fl = S754_zero false.
Proof.
  destruct x as [s|s| |s m e]; try discriminate; intros _.
  - destruct s; reflexivity.
  - unfold fsub, SFsub. cbv zeta. rewrite Z.sub_diag. reflexivity.
Qed.

Lemma of_Z_finite (z : Z) : Z.abs z < 2 ^ prec F -> isfinite (of_Z z) = true.
Proof.
  intros H. destruct z as [|p|p]; [reflexivity| |].
  - destruct (of_Z_pos_exact p ltac:(lia)) as (m & k & -> & _). reflexivity.
  - pose proof (of_Z_pos_exact p ltac:(lia)) as (m & k & E & _).
    unfold of_Z, binary_normalize in *.
    unfold binary_round in *. destruct (shl_align _ _ _) as [m' e'].
    unfold binary_round_aux in *.
    destruct (shr_fexp _ _ _ _ _) as [r1 e1].
    destruct (shr_fexp _ _ _ _ _) as [r2 e2].
    destruct (shr_m r2); try discriminate; try reflexivity.
    destruct (e2 <=? emax F - prec F); [reflexivity | discriminate].
Qed.

End TruncFacts.

(* ---------- vocabulary ---------- *)

(* ---------- facts ---------- *)
Section RingFacts.
Context {F : Format}.

Lemma ago_snoc_0 (xs : list Sample) (x : Sample) : ago (xs ++ [x]) 0 = x.
Proof. unfold ago. rewrite reverse_snoc. reflexivity. Qed.

Lemma ago_snoc_S (xs : list Sample) (x : Sample) (j : Z) :
  0 < j -> ago (xs ++ [x]) j = ago xs (j - 1).
Proof.
  intros Hj. unfold ago. rewrite reverse_snoc.
  replace (Z.to_nat j) with (S (Z.to_nat (j - 1))) by lia. reflexivity.
Qed.

Lemma load_insert_eq {A} (l : list A) (i : Z) (x : A) :
  0 <= i < Z.of_nat (length l) -> Std.load (<[Z.to_nat i := x]> l) i = Some x.
Proof.
  intros Hi. unfold Std.load. destruct (decide (0 <= i)); [|lia].
  apply list_lookup_insert_eq. lia.
Qed.

Lemma load_insert_ne {A} (l : list A) (i j : Z) (x : A) :
  0 <= i -> 0 <= j -> i <> j -> Std.load (<[Z.to_nat i := x]> l) j = Std.load l j.
Proof.
  intros Hi Hj Hne. unfold Std.load. destruct (decide (0 <= j)); [|lia].
  apply list_lookup_insert_ne. lia.
Qed.

Lemma load_replicate {A} (n : nat) (x : A) (i : Z) :
  0 <= i < Z.of_nat n -> Std.load (replicate n x) i = Some x.
Proof.
  intros Hi. unfold Std.load. destruct (decide (0 <= i)); [|lia].
  apply lookup_replicate_2. lia.
Qed.

(** [if (rptr < 0) rptr += size] is the remainder, one turn around. *)
Lemma mod_wrap (a size : Z) :
  - size <= a < size -> a mod size = if decide (a < 0) then a + size else a.
Proof.
  intros Ha. destruct (decide (a < 0)).
  - rewrite <- (Z_mod_plus_full a 1 size), Z.mod_small; lia.
  - apply Z.mod_small. lia.
Qed.

(** A zeroed ring holds the empty history, wherever the pointer is. *)
Lemma ring_holds_zero (n : nat) (w : Z) :
  ring_holds (replicate n (of_Z 0)) w [].
Proof.
  intros j Hj. rewrite length_replicate in *.
  rewrite load_replicate by (apply Z.mod_pos_bound; lia). reflexivity.
Qed.

Lemma ring_holds_mod (buf : list Sample) (w w' : Z) (xs : list Sample) :
  w mod Z.of_nat (length buf) = w' mod Z.of_nat (length buf) ->
  ring_holds buf w xs -> ring_holds buf w' xs.
Proof.
  intros Hw H j Hj. rewrite <- (H j Hj). f_equal.
  rewrite (Zminus_mod w'), <- Hw, <- Zminus_mod. reflexivity.
Qed.

(** Writing the next input one slot further keeps the ring. *)
Lemma ring_holds_push (buf : list Sample) (w w' : Z) (xs : list Sample) (x : Sample) :
  0 <= w' < Z.of_nat (length buf) ->
  w' = (w + 1) mod Z.of_nat (length buf) ->
  ring_holds buf w xs ->
  ring_holds (<[Z.to_nat w' := x]> buf) w' (xs ++ [x]).
Proof.
  intros Hw' Hw H j Hj. rewrite length_insert in *.
  set (size := Z.of_nat (length buf)) in *.
  destruct (Z.eq_dec j 0) as [->|Hne].
  - rewrite Z.sub_0_r, Z.mod_small, load_insert_eq, ago_snoc_0 by lia. reflexivity.
  - rewrite ago_snoc_S by lia.
    assert ((w' - j) mod size = (w - (j - 1)) mod size) as Hidx.
    { rewrite Hw, Zminus_mod_idemp_l. f_equal. lia. }
    rewrite load_insert_ne.
    + rewrite Hidx. apply H. lia.
    + lia.
    + apply Z.mod_pos_bound. lia.
    + intros Heq. rewrite (mod_wrap (w' - j)) in Heq by lia.
      destruct (decide (w' - j < 0)); lia.
Qed.

End RingFacts.

Section DelayHistoryFacts.
Context {F : Format}.
Import DoubleLoopCymbal.

Lemma pow_24_le_prec : 2 ^ 24 <= 2 ^ prec F.
Proof. apply Z.pow_le_mono_r; [lia|]. destruct F; simpl; lia. Qed.

Lemma binary_normalize_not_nan (m e : Z) (sz : bool) :
  isnan (binary_normalize (prec F) (emax F) m e sz) = false.
Proof.
  destruct m as [|p|p]; [reflexivity| |]; simpl; unfold binary_round;
    destruct (shl_align _ _ _) as [m' e']; apply round_aux_not_nan; lia.
Qed.

(** A difference is NaN only for a NaN operand or two infinities. *)
Lemma fsub_isnan (x y : Sample) :
  isfinite y = true -> isnan (x - y)%fl = isnan x.
Proof.
  intros Hy. unfold fsub, SFsub.
  destruct x as [sx|sx| |sx mx ex], y as [sy|sy| |sy my ey]; try discriminate;
    try reflexivity; try (destruct sx, sy; reflexivity).
  apply binary_normalize_not_nan.
Qed.

Lemma of_Z_one_finite : isfinite (of_Z 1) = true.
Proof. destruct F; reflexivity. Qed.

(** The clamped delay time of a number is an integer of [[1, size - 4]]. *)
Lemma clampedTime_defined (size : Z) (t : Sample) :
  5 <= size <= 2 ^ 24 -> usable_time t ->
  exists c, Delay.clampedTime size t = Some c /\ 1 <= c <= size - 4.
Proof.
  intros Hs [Hv Hn]. pose proof pow_24_le_prec as Hp.
  unfold Delay.clampedTime. apply to_int_clamp.
  - apply fsub_valid; [assumption | apply of_Z_valid].
  - rewrite fsub_isnan by apply of_Z_one_finite. assumption.
  - lia.
  - lia.
  - unfold INT_MAX. lia.
Qed.

Lemma fsub_nan_l (y : Sample) : (S754_nan - y)%fl = S754_nan.
Proof. reflexivity. Qed.

Lemma clampedTime_nan (size : Z) (t : Sample) :
  isnan t = true -> Delay.clampedTime size t = None.
Proof.
  intros Hn. destruct t; try discriminate.
  unfold Delay.clampedTime. rewrite fsub_nan_l, clamp_nan. reflexivity.
Qed.

Lemma advance_mod (size w : Z) :
  0 < size -> 0 <= w < size -> Delay.advance size w = (w + 1) mod size.
Proof.
  intros Hs Hw. unfold Delay.advance. destruct (decide (w + 1 >= size)).
  - replace (w + 1) with size by lia. rewrite Z.mod_same; lia.
  - rewrite Z.mod_small; lia.
Qed.

Lemma wrap_mod (size r : Z) : - size <= r < size -> Delay.wrap size r = r mod size.
Proof. intros Hr. unfold Delay.wrap. rewrite mod_wrap by assumption. reflexivity. Qed.

Lemma of_Z_zero : of_Z 0 = S754_zero false.
Proof. reflexivity. Qed.

(** One call of [process] on a ring that holds the history: it returns
    the interpolation, at offset zero, of the four inputs from [c] calls
    ago on, [c] being the clamped time, and the ring holds the history
    with the new input. *)
Lemma Delay_process_reads (d : Delay.t) (x t : Sample) (xs : list Sample) :
  let size := Z.of_nat (length (Delay.buf d)) in
  5 <= size <= 2 ^ 24 -> 0 <= Delay.wptr d -> usable_time t ->
  ring_holds (Delay.buf d) (Delay.advance size (Delay.wptr d) - 1) xs ->
  exists c d',
    Delay.clampedTime size t = Some c /\ 1 <= c <= size - 4
    /\ Delay.process d x t
       = Some (lagrange3Interp (ago (xs ++ [x]) c) (ago (xs ++ [x]) (c + 1))
                 (ago (xs ++ [x]) (c + 2)) (ago (xs ++ [x]) (c + 3)) (of_Z 0), d')
    /\ 0 <= Delay.wptr d'
    /\ length (Delay.buf d') = length (Delay.buf d)
    /\ ring_holds (Delay.buf d') (Delay.advance size (Delay.wptr d') - 1) (xs ++ [x]).
Proof.
  intros size Hs Hw Ht Hring. pose proof pow_24_le_prec as Hp.
  destruct (clampedTime_defined size t Hs Ht) as (c & Hc & Hr).
  pose proof (advance_range size (Delay.wptr d) ltac:(lia) Hw) as Ha.
  set (w' := Delay.advance size (Delay.wptr d)) in *.
  set (buf' := <[Z.to_nat w' := x]> (Delay.buf d)).
  assert (Z.of_nat (length buf') = size) as Hl
    by (unfold buf'; rewrite length_insert; reflexivity).
  assert (ring_holds buf' w' (xs ++ [x])) as Hring'.
  { apply (ring_holds_push _ (w' - 1)); [fold size; lia | | exact Hring].
    fold size. replace (w' - 1 + 1) with w' by lia. rewrite Z.mod_small; lia. }
  assert (forall i, 0 <= i <= 3 ->
            Std.load buf' (Delay.wrap size (w' - c - i)) = Some (ago (xs ++ [x]) (c + i)))
    as Hload.
  { intros i Hi. rewrite wrap_mod by lia.
    replace (w' - c - i) with (w' - (c + i)) by lia.
    rewrite <- Hl. apply Hring'. lia. }
  exists c, {| Delay.wptr := w'; Delay.buf := buf' |}.
  split; [exact Hc|]. split; [exact Hr|]. split.
  - unfold Delay.process. fold size. rewrite Hc. cbn [mbind option_bind].
    fold w'. unfold Std.store at 1. fold size.
    destruct (decide (0 <= w' < size)); [|lia]. cbn [mbind option_bind].
    unfold Delay.rptrs. fold buf'.
    pose proof (Hload 0 ltac:(lia)) as H0. rewrite Z.sub_0_r, Z.add_0_r in H0.
    rewrite H0, (Hload 1), (Hload 2), (Hload 3) by lia. cbn [mbind option_bind].
    rewrite fsub_diag by (apply of_Z_finite; lia). reflexivity.
  - cbn [Delay.wptr Delay.buf]. split; [lia|]. split; [unfold buf'; apply length_insert|].
    refine (ring_holds_mod _ _ _ _ _ Hring'). rewrite Hl.
    rewrite advance_mod by lia. rewrite Zminus_mod_idemp_l. f_equal. lia.
Qed.

End DelayHistoryFacts.

Section DelayRunFacts.
Context {F : Format}.
Import DoubleLoopCymbal.

Lemma Delay_run_snoc (d : Delay.t) (calls : list (Sample * Sample)) (c : Sample * Sample) :
  Delay_run d (calls ++ [c])
  = (d' ← Delay_run d calls; snd <$> Delay.process d' c.1 c.2).
Proof. unfold Delay_run. rewrite foldl_snoc. reflexivity. Qed.

(** A run from a zeroed buffer is defined for delay times that are
    numbers, and leaves a ring that holds the inputs of the run. *)
Lemma Delay_run_holds (d : Delay.t) (calls : list (Sample * Sample)) :
  let size := Z.of_nat (length (Delay.buf d)) in
  5 <= size <= 2 ^ 24 -> 0 <= Delay.wptr d ->
  Forall (fun c => usable_time c.2) calls ->
  exists d',
    Delay_run (Delay.reset d) calls = Some d'
    /\ 0 <= Delay.wptr d'
    /\ length (Delay.buf d') = length (Delay.buf d)
    /\ ring_holds (Delay.buf d') (Delay.advance size (Delay.wptr d') - 1) calls.*1.
Proof.
  intros size Hs Hw. induction calls as [|c calls IH] using rev_ind; intros Hc.
  - exists (Delay.reset d). split; [reflexivity|]. split; [exact Hw|].
    unfold Delay.reset; cbn [Delay.buf Delay.wptr]. rewrite length_replicate.
    split; [reflexivity|]. apply ring_holds_zero.
  - apply Forall_app in Hc as [Hc Ht]. rewrite Forall_singleton in Ht.
    destruct (IH Hc) as (d1 & Hrun & Hw1 & Hl1 & Hr1).
    pose proof (Delay_process_reads d1 c.1 c.2 calls.*1) as Hstep. cbv zeta in Hstep.
    rewrite Hl1 in Hstep. fold size in Hstep.
    destruct (Hstep Hs Hw1 Ht Hr1) as (k & d2 & _ & _ & Hp & Hw2 & Hl2 & Hr2).
    exists d2. rewrite Delay_run_snoc, Hrun. cbn [mbind option_bind]. rewrite Hp.
    split; [reflexivity|]. split; [exact Hw2|]. split; [exact Hl2|].
    rewrite fmap_app. exact Hr2.
Qed.

End DelayRunFacts.

(** X1. After [reset()], whatever calls of [process] came since (with
    delay times that are numbers), a call [process(x, t)] returns the
    cubic interpolation, at offset zero, of the inputs of [c], [c + 1],
    [c + 2] and [c + 3] calls ago, where [c] is [t - 1] clamped to
    [[1, size - 4]] and cut to an integer; inputs from before the reset
    count as zero. *)
Theorem Delay_process_reads_history :
  forall (F : Format) (d : DoubleLoopCymbal.Delay.t) (calls : list (Sample * Sample))
    (x t : Sample),
    let size := Z.of_nat (length (DoubleLoopCymbal.Delay.buf d)) in
    let inputs := calls.*1 ++ [x] in
    5 <= size <= 2 ^ 24 -> 0 <= DoubleLoopCymbal.Delay.wptr d ->
    Forall (fun c => usable_time c.2) calls -> usable_time t ->
    exists d1 c d2,
      Delay_run (DoubleLoopCymbal.Delay.reset d) calls = Some d1
      /\ DoubleLoopCymbal.Delay.clampedTime size t = Some c /\ 1 <= c <= size - 4
      /\ DoubleLoopCymbal.Delay.process d1 x t
         = Some (DoubleLoopCymbal.lagrange3Interp (ago inputs c) (ago inputs (c + 1))
                   (ago inputs (c + 2)) (ago inputs (c + 3)) (of_Z 0), d2).
Proof.
  intros F d calls x t size inputs Hs Hw Hc Ht.
  destruct (Delay_run_holds d calls Hs Hw Hc) as (d1 & Hrun & Hw1 & Hl1 & Hr1).
  fold size in Hr1.
  pose proof (Delay_process_reads d1 x t calls.*1) as Hstep. cbv zeta in Hstep.
  rewrite Hl1 in Hstep. fold size in Hstep.
  destruct (Hstep Hs Hw1 Ht Hr1) as (c & d2 & Hct & Hr & Hp & _).
  exists d1, c, d2. split; [exact Hrun|]. split; [exact Hct|]. split; [exact Hr|].
  exact Hp.
Qed.

(** X2. [process] never reads or writes outside the buffer: for a buffer
    of 5 to [2^24] samples, a write pointer that is not negative and a
    delay time of the format, the call is defined exactly when the delay
    time is not NaN, and it leaves the write pointer inside the buffer
    and the capacity as it was. *)
Theorem Delay_process_in_bounds :
  forall (F : Format) (d : DoubleLoopCymbal.Delay.t) (x t : Sample),
    let size := Z.of_nat (length (DoubleLoopCymbal.Delay.buf d)) in
    5 <= size <= 2 ^ 24 -> 0 <= DoubleLoopCymbal.Delay.wptr d -> valid t = true ->
    (is_Some (DoubleLoopCymbal.Delay.process d x t) <-> isnan t = false)
    /\ forall y d', DoubleLoopCymbal.Delay.process d x t = Some (y, d') ->
         0 <= DoubleLoopCymbal.Delay.wptr d' < size
         /\ length (DoubleLoopCymbal.Delay.buf d') = length (DoubleLoopCymbal.Delay.buf d).
Proof.
  intros F d x t size Hs Hw Hv.
  destruct (isnan t) eqn:Hn.
  - assert (DoubleLoopCymbal.Delay.process d x t = None) as Hnone.
    { unfold DoubleLoopCymbal.Delay.process. fold size.
      rewrite clampedTime_nan by assumption. reflexivity. }
    rewrite Hnone. split; [|discriminate].
    split; [intros [? ?]; discriminate | discriminate].
  - destruct (clampedTime_defined size t Hs (conj Hv Hn)) as (c & Hc & Hr).
    destruct (Delay_process_defined d x t c ltac:(fold size; lia) Hw Hc ltac:(fold size; lia))
      as (y & d' & Hp & Hw' & Hb & Hrange).
    rewrite Hp. split; [split; [reflexivity | intros _; eexists; reflexivity]|].
    intros y0 d0 [= <- <-]. split; [exact Hrange|].
    rewrite Hb. apply length_insert.
Qed.

Section GrowlDelayFacts.
Context {F : Format}.
Variable lerp : Sample -> Sample -> Sample -> Sample.
Import GrowlSynth.

(** The read position of a number: an integer delay of [[0, size - 1]]
    and what is left of the clamped time. *)
Lemma readPosition_defined (size : Z) (t : Sample) :
  1 <= size <= 2 ^ 24 -> usable_time t ->
  exists c, Delay.readPosition size t
            = Some (c, (clamp t (of_Z 0) (of_Z (size - 1)) - of_Z c)%fl)
            /\ 0 <= c <= size - 1.
Proof.
  intros Hs [Hv Hn]. pose proof pow_24_le_prec as Hp.
  destruct (to_int_clamp t 0 (size - 1) Hv Hn) as (c & Hc & Hr); try lia.
  { unfold INT_MAX. lia. }
  exists c. unfold Delay.readPosition. rewrite Hc. split; [reflexivity | exact Hr].
Qed.

Lemma readPosition_nan (size : Z) (t : Sample) :
  isnan t = true -> Delay.readPosition size t = None.
Proof.
  intros Hn. destruct t; try discriminate.
  unfold Delay.readPosition. rewrite clamp_nan. reflexivity.
Qed.

(** One call of [process] on a ring that holds the history. *)
Lemma GrowlSynth_Delay_process_reads (d : Delay.t) (x t : Sample) (xs : list Sample) :
  let size := Z.of_nat (length (Delay.buf d)) in
  2 <= size <= 2 ^ 24 -> 0 <= Delay.wptr d < size -> usable_time t ->
  ring_holds (Delay.buf d) (Delay.wptr d - 1) xs ->
  exists c f d',
    Delay.readPosition size t = Some (c, f) /\ 0 <= c <= size - 1
    /\ Delay.process lerp d x t
       = Some (lerp (ago (xs ++ [x]) c) (ago (xs ++ [x]) ((c + 1) mod size)) f, d')
    /\ 0 <= Delay.wptr d' < size
    /\ length (Delay.buf d') = length (Delay.buf d)
    /\ ring_holds (Delay.buf d') (Delay.wptr d' - 1) (xs ++ [x]).
Proof.
  intros size Hs Hw Ht Hring.
  destruct (readPosition_defined size t ltac:(lia) Ht) as (c & Hc & Hr).
  set (f := (clamp t (of_Z 0) (of_Z (size - 1)) - of_Z c)%fl) in *.
  set (buf' := <[Z.to_nat (Delay.wptr d) := x]> (Delay.buf d)).
  assert (Z.of_nat (length buf') = size) as Hl
    by (unfold buf'; rewrite length_insert; reflexivity).
  assert (ring_holds buf' (Delay.wptr d) (xs ++ [x])) as Hring'.
  { apply (ring_holds_push _ (Delay.wptr d - 1)); [fold size; lia | | exact Hring].
    fold size. replace (Delay.wptr d - 1 + 1) with (Delay.wptr d) by lia.
    rewrite Z.mod_small; lia. }
  set (rptr0 := if decide (Delay.wptr d - c < 0) then Delay.wptr d - c + size
                else Delay.wptr d - c).
  assert (rptr0 = (Delay.wptr d - c) mod size) as Hr0
    by (unfold rptr0; rewrite mod_wrap by lia; reflexivity).
  assert (0 <= rptr0 < size) as Hr0' by (rewrite Hr0; apply Z.mod_pos_bound; lia).
  assert ((if decide (rptr0 <> 0) then rptr0 else size) - 1
          = (Delay.wptr d - (c + 1) mod size) mod size) as Hr1.
  { rewrite Zminus_mod_idemp_r.
    replace (Delay.wptr d - (c + 1)) with (Delay.wptr d - c - 1) by lia.
    rewrite <- Zminus_mod_idemp_l, <- Hr0. rewrite (mod_wrap (rptr0 - 1)) by lia.
    destruct (decide (rptr0 <> 0)), (decide (rptr0 - 1 < 0)); lia. }
  exists c, f,
    {| Delay.wptr := if decide (Delay.wptr d + 1 >= size) then 0 else Delay.wptr d + 1;
       Delay.buf := buf' |}.
  split; [exact Hc|]. split; [exact Hr|]. split.
  - unfold Delay.process. fold size. rewrite Hc. cbn [mbind option_bind].
    unfold Std.store at 1. fold size.
    destruct (decide (0 <= Delay.wptr d < size)); [|lia]. cbn [mbind option_bind].
    fold buf' rptr0. rewrite Hr1, Hr0, <- Hl.
    rewrite (Hring' c), (Hring' ((c + 1) mod Z.of_nat (length buf'))).
    + reflexivity.
    + apply Z.mod_pos_bound. lia.
    + lia.
  - cbn [Delay.wptr Delay.buf].
    split; [destruct (decide (Delay.wptr d + 1 >= size)); lia|].
    split; [unfold buf'; apply length_insert|].
    refine (ring_holds_mod _ _ _ _ _ Hring'). rewrite Hl.
    destruct (decide (Delay.wptr d + 1 >= size)).
    + replace (Delay.wptr d) with (0 - 1 + 1 * size) at 1 by lia.
      apply Z_mod_plus_full.
    + f_equal. lia.
Qed.

Lemma GrowlSynth_Delay_run_snoc (d : Delay.t) (calls : list (Sample * Sample))
  (c : Sample * Sample) :
  GrowlSynth_Delay_run lerp d (calls ++ [c])
  = (d' ← GrowlSynth_Delay_run lerp d calls; snd <$> Delay.process lerp d' c.1 c.2).
Proof. unfold GrowlSynth_Delay_run. rewrite foldl_snoc. reflexivity. Qed.

Lemma GrowlSynth_Delay_run_holds (d : Delay.t) (calls : list (Sample * Sample)) :
  let size := Z.of_nat (length (Delay.buf d)) in
  2 <= size <= 2 ^ 24 -> 0 <= Delay.wptr d < size ->
  Forall (fun c => usable_time c.2) calls ->
  exists d',
    GrowlSynth_Delay_run lerp (Delay.reset d) calls = Some d'
    /\ 0 <= Delay.wptr d' < size
    /\ length (Delay.buf d') = length (Delay.buf d)
    /\ ring_holds (Delay.buf d') (Delay.wptr d' - 1) calls.*1.
Proof.
  intros size Hs Hw. induction calls as [|c calls IH] using rev_ind; intros Hc.
  - exists (Delay.reset d). split; [reflexivity|]. split; [exact Hw|].
    unfold Delay.reset; cbn [Delay.buf Delay.wptr]. rewrite length_replicate.
    split; [reflexivity|]. apply ring_holds_zero.
  - apply Forall_app in Hc as [Hc Ht]. rewrite Forall_singleton in Ht.
    destruct (IH Hc) as (d1 & Hrun & Hw1 & Hl1 & Hr1).
    pose proof (GrowlSynth_Delay_process_reads d1 c.1 c.2 calls.*1) as Hstep.
    cbv zeta in Hstep. rewrite Hl1 in Hstep. fold size in Hstep.
    destruct (Hstep Hs Hw1 Ht Hr1) as (k & f & d2 & _ & _ & Hp & Hw2 & Hl2 & Hr2).
    exists d2. rewrite GrowlSynth_Delay_run_snoc, Hrun. cbn [mbind option_bind]. rewrite Hp.
    split; [reflexivity|]. split; [exact Hw2|]. split; [exact Hl2|].
    rewrite fmap_app. exact Hr2.
Qed.

End GrowlDelayFacts.

(** X3. The delay line of GrowlSynth reads its history with the
    fraction: after [reset()] and any calls since, [process(x, t)]
    returns [std::lerp] of the inputs of [c] and [c + 1] calls ago at
    the fraction [f], where [c] is the integer part of [t] clamped to
    [[0, size - 1]] and [f] what is left of it; the current input
    counts as zero calls ago, and the buffer holds [size] inputs, so
    that [size] calls ago is the current input again. *)
Theorem GrowlSynth_Delay_process_reads_history :
  forall (F : Format) (lerp : Sample -> Sample -> Sample -> Sample)
    (d : GrowlSynth.Delay.t) (calls : list (Sample * Sample)) (x t : Sample),
    let size := Z.of_nat (length (GrowlSynth.Delay.buf d)) in
    let inputs := calls.*1 ++ [x] in
    2 <= size <= 2 ^ 24 -> 0 <= GrowlSynth.Delay.wptr d < size ->
    Forall (fun c => usable_time c.2) calls -> usable_time t ->
    exists d1 c f d2,
      GrowlSynth_Delay_run lerp (GrowlSynth.Delay.reset d) calls = Some d1
      /\ GrowlSynth.Delay.readPosition size t = Some (c, f) /\ 0 <= c <= size - 1
      /\ GrowlSynth.Delay.process lerp d1 x t
         = Some (lerp (ago inputs c) (ago inputs ((c + 1) mod size)) f, d2).
Proof.
  intros F lerp d calls x t size inputs Hs Hw Hc Ht.
  destruct (GrowlSynth_Delay_run_holds lerp d calls Hs Hw Hc) as (d1 & Hrun & Hw1 & Hl1 & Hr1).
  fold size in Hw1.
  pose proof (GrowlSynth_Delay_process_reads lerp d1 x t calls.*1) as Hstep.
  cbv zeta in Hstep. rewrite Hl1 in Hstep. fold size in Hstep.
  destruct (Hstep Hs Hw1 Ht Hr1) as (c & f & d2 & Hct & Hr & Hp & _).
  exists d1, c, f, d2. split; [exact Hrun|]. split; [exact Hct|]. split; [exact Hr|].
  exact Hp.
Qed.

Section GrowlDelayBounds.
Context {F : Format}.
Variable lerp : Sample -> Sample -> Sample -> Sample.
Import GrowlSynth.

(** A write pointer outside the buffer makes the write of [process]
    leave the buffer. *)
Lemma GrowlSynth_Delay_process_stale (d : Delay.t) (x t : Sample) :
  ~ (0 <= Delay.wptr d < Z.of_nat (length (Delay.buf d))) ->
  Delay.process lerp d x t = None.
Proof.
  intros Hw. unfold Delay.process.
  destruct (Delay.readPosition _ t) as [[c f]|]; [|reflexivity].
  cbn [mbind option_bind]. unfold Std.store.
  destruct (decide (0 <= Delay.wptr d < Z.of_nat (length (Delay.buf d)))); [contradiction|].
  reflexivity.
Qed.

Lemma GrowlSynth_Delay_process_defined (d : Delay.t) (x t : Sample) :
  let size := Z.of_nat (length (Delay.buf d)) in
  2 <= size <= 2 ^ 24 -> 0 <= Delay.wptr d < size -> usable_time t ->
  exists y d',
    Delay.process lerp d x t = Some (y, d')
    /\ 0 <= Delay.wptr d' < size
    /\ length (Delay.buf d') = length (Delay.buf d).
Proof.
  intros size Hs Hw Ht.
  destruct (readPosition_defined size t ltac:(lia) Ht) as (c & Hc & Hr).
  unfold Delay.process. fold size. rewrite Hc. cbn [mbind option_bind].
  unfold Std.store. fold size.
  destruct (decide (0 <= Delay.wptr d < size)); [|lia]. cbn [mbind option_bind].
  set (buf' := <[Z.to_nat (Delay.wptr d) := x]> (Delay.buf d)).
  assert (Z.of_nat (length buf') = size) as Hl
    by (unfold buf'; rewrite length_insert; reflexivity).
  set (rptr0 := if decide (Delay.wptr d - c < 0) then Delay.wptr d - c + size
                else Delay.wptr d - c).
  assert (0 <= rptr0 < size) as Hr0 by (unfold rptr0; destruct (decide _); lia).
  destruct (load_defined buf' rptr0 ltac:(lia)) as [y0 E0].
  destruct (load_defined buf' ((if decide (rptr0 <> 0) then rptr0 else size) - 1)
              ltac:(destruct (decide (rptr0 <> 0)); lia)) as [y1 E1].
  rewrite E0, E1. cbn [mbind option_bind].
  eexists _, _. split; [reflexivity|]. cbn [Delay.wptr Delay.buf].
  split; [destruct (decide (Delay.wptr d + 1 >= size)); lia|].
  unfold buf'. apply length_insert.
Qed.

End GrowlDelayBounds.

(** X4. The delay line of GrowlSynth writes at the write pointer before
    it advances it: for a buffer of 2 to [2^24] samples and a delay time
    of the format, [process] is defined exactly when the delay time is
    not NaN and the write pointer is inside the buffer, and it then
    leaves the write pointer inside the buffer and the capacity as it
    was. *)
Theorem GrowlSynth_Delay_process_in_bounds :
  forall (F : Format) (lerp : Sample -> Sample -> Sample -> Sample)
    (d : GrowlSynth.Delay.t) (x t : Sample),
    let size := Z.of_nat (length (GrowlSynth.Delay.buf d)) in
    2 <= size <= 2 ^ 24 -> valid t = true ->
    (is_Some (GrowlSynth.Delay.process lerp d x t)
     <-> isnan t = false /\ 0 <= GrowlSynth.Delay.wptr d < size)
    /\ forall y d', GrowlSynth.Delay.process lerp d x t = Some (y, d') ->
         0 <= GrowlSynth.Delay.wptr d' < size
         /\ length (GrowlSynth.Delay.buf d') = length (GrowlSynth.Delay.buf d).
Proof.
  intros F lerp d x t size Hs Hv.
  destruct (decide (0 <= GrowlSynth.Delay.wptr d < size)) as [Hw|Hw].
  - destruct (isnan t) eqn:Hn.
    + assert (GrowlSynth.Delay.process lerp d x t = None) as Hnone.
      { unfold GrowlSynth.Delay.process. fold size.
        rewrite readPosition_nan by assumption. reflexivity. }
      rewrite Hnone. split; [|discriminate].
      split; [intros [? ?]; discriminate | intros [? _]; discriminate].
    + destruct (GrowlSynth_Delay_process_defined lerp d x t Hs Hw (conj Hv Hn))
        as (y & d' & Hp & Hw' & Hl).
      rewrite Hp. split; [split; [intros _; split; [reflexivity | exact Hw] |
                                  intros _; eexists; reflexivity]|].
      intros y0 d0 [= <- <-]. split; assumption.
  - rewrite (GrowlSynth_Delay_process_stale lerp d x t Hw).
    split; [|discriminate].
    split; [intros [? ?]; discriminate | intros [_ ?]; contradiction].
Qed.

(** X5. [setup] resizes and zeroes the buffer and leaves the write
    pointer where it was: after a [setup] that makes the buffer no
    longer than the write pointer, every call of [process] writes
    outside the buffer. *)
Theorem GrowlSynth_Delay_setup_keeps_wptr :
  forall (F : Format) (d d' : GrowlSynth.Delay.t) (sampleRate maxTimeSeconds : Sample),
    GrowlSynth.Delay.setup d sampleRate maxTimeSeconds = Some d' ->
    GrowlSynth.Delay.wptr d' = GrowlSynth.Delay.wptr d
    /\ (2 <= length (GrowlSynth.Delay.buf d'))%nat
    /\ GrowlSynth.Delay.buf d'
       = replicate (length (GrowlSynth.Delay.buf d')) (of_Z 0)
    /\ (Z.of_nat (length (GrowlSynth.Delay.buf d')) <= GrowlSynth.Delay.wptr d ->
        forall lerp x t, GrowlSynth.Delay.process lerp d' x t = None).
Proof.
  intros F d d' sampleRate maxTimeSeconds. unfold GrowlSynth.Delay.setup.
  destruct (Std.to_size_t _) as [n|]; [|discriminate].
  cbn [mbind option_bind]. intros [= <-].
  unfold GrowlSynth.Delay.reset. cbn [GrowlSynth.Delay.wptr GrowlSynth.Delay.buf].
  rewrite length_resize, length_replicate.
  split; [reflexivity|]. split; [lia|]. split; [reflexivity|].
  intros Hw lerp x t. apply GrowlSynth_Delay_process_stale.
  cbn [GrowlSynth.Delay.wptr GrowlSynth.Delay.buf]. rewrite length_replicate. lia.
Qed.

Section EnvelopeRunFacts.
Context {F : Format}.
Import TestBedSynth.
Variable processKp :
  DoubleEMAFilter.t -> Sample -> Sample -> Sample * DoubleEMAFilter.t.

Lemma ADSREnvelope_run_snoc (e : ADSREnvelope.t) (amps : list Sample) (a : Sample) :
  ADSREnvelope_run processKp e (amps ++ [a])
  = (let r := ADSREnvelope_run processKp e amps in
     let '(y, e') := ADSREnvelope.process processKp r.2 a in (r.1 ++ [y], e')).
Proof. unfold ADSREnvelope_run. rewrite fold_left_app. reflexivity. Qed.

(** During the attack [process] counts the calls; it moves on to the
    decay with the call that brings the counter to [attackLength]. *)
Lemma ADSREnvelope_attack_step (e : ADSREnvelope.t) (a : Sample) :
  ADSREnvelope.state e = ADSREnvelope.attack ->
  0 <= ADSREnvelope.counter e < 2 ^ 64 - 1 ->
  let e' := (ADSREnvelope.process processKp e a).2 in
  ADSREnvelope.counter e' = ADSREnvelope.counter e + 1
  /\ ADSREnvelope.attackLength e' = ADSREnvelope.attackLength e
  /\ ADSREnvelope.state e'
     = if decide (ADSREnvelope.counter e + 1 >= ADSREnvelope.attackLength e)
       then ADSREnvelope.decay else ADSREnvelope.attack.
Proof.
  intros Hs Hc. unfold ADSREnvelope.process. rewrite Hs.
  rewrite (Z.mod_small (ADSREnvelope.counter e + 1)) by lia.
  destruct (processKp _ _ _) as [y sm]. cbn [snd ADSREnvelope.counter
    ADSREnvelope.attackLength ADSREnvelope.state]. repeat split.
Qed.

Lemma ADSREnvelope_decay_step (e : ADSREnvelope.t) (a : Sample) :
  ADSREnvelope.state e = ADSREnvelope.decay ->
  ADSREnvelope.state (ADSREnvelope.process processKp e a).2 = ADSREnvelope.decay.
Proof.
  intros Hs. unfold ADSREnvelope.process. rewrite Hs.
  destruct (processKp _ _ _) as [y sm]. reflexivity.
Qed.

Lemma ADSREnvelope_process_attackLength (e : ADSREnvelope.t) (a : Sample) :
  ADSREnvelope.attackLength (ADSREnvelope.process processKp e a).2
  = ADSREnvelope.attackLength e.
Proof.
  unfold ADSREnvelope.process. destruct (ADSREnvelope.state e).
  - destruct (processKp _ _ _) as [y sm]. reflexivity.
  - destruct (processKp _ _ _) as [y sm]. reflexivity.
  - destruct (fle _ _); destruct (processKp _ _ _) as [y sm]; reflexivity.
  - reflexivity.
Qed.

Lemma ADSREnvelope_run_attack (e : ADSREnvelope.t) (n : Z) (amps : list Sample) :
  0 <= n < 2 ^ 64 ->
  let r := (ADSREnvelope_run processKp (ADSREnvelope.noteOn e n) amps).2 in
  ADSREnvelope.attackLength r = n
  /\ if decide (Z.of_nat (length amps) < Z.max n 1)
     then ADSREnvelope.state r = ADSREnvelope.attack
          /\ ADSREnvelope.counter r = Z.of_nat (length amps)
     else ADSREnvelope.state r = ADSREnvelope.decay.
Proof.
  intros Hn. induction amps as [|a amps IH] using rev_ind.
  - cbn. split; [reflexivity|]. destruct (decide _); [split; reflexivity | lia].
  - cbv zeta in *. rewrite ADSREnvelope_run_snoc. cbv zeta.
    set (r := (ADSREnvelope_run processKp (ADSREnvelope.noteOn e n) amps)) in *.
    pose proof (ADSREnvelope_attack_step r.2 a) as Hstep.
    pose proof (ADSREnvelope_decay_step r.2 a) as Hdec.
    pose proof (ADSREnvelope_process_attackLength r.2 a) as Hkeep.
    destruct (ADSREnvelope.process processKp r.2 a) as [y e'].
    cbn [snd] in *. rewrite length_app, Nat.add_1_r, Nat2Z.inj_succ.
    destruct IH as [Hlen IH].
    destruct (decide (Z.of_nat (length amps) < Z.max n 1)) as [Hlt|Hge].
    + destruct IH as [Hs Hc]. destruct (Hstep Hs ltac:(lia)) as (Hc' & Hl' & Hs').
      split; [congruence|]. rewrite Hs', Hc, Hlen.
      destruct (decide (Z.succ (Z.of_nat (length amps)) < Z.max n 1)),
        (decide (Z.of_nat (length amps) + 1 >= n)); try lia; try reflexivity.
      split; [reflexivity | lia].
    + destruct (decide (Z.succ (Z.of_nat (length amps)) < Z.max n 1)); [lia|].
      split; [congruence | apply Hdec, IH].
Qed.

End EnvelopeRunFacts.

(** X6. The attack lasts [attackLength] calls, and one call when
    [attackLength] is zero: after [noteOn(n)], the envelope is attacking
    for the first [max(n, 1) - 1] calls of [process] and decaying from
    call [max(n, 1)] on, whatever the smoother does. *)
Theorem ADSREnvelope_attack_lasts :
  forall (F : Format)
    (processKp : TestBedSynth.DoubleEMAFilter.t -> Sample -> Sample ->
                 Sample * TestBedSynth.DoubleEMAFilter.t)
    (e : TestBedSynth.ADSREnvelope.t) (attackSamples : Z) (amps : list Sample),
    0 <= attackSamples < 2 ^ 64 ->
    TestBedSynth.ADSREnvelope.state
      (ADSREnvelope_run processKp (TestBedSynth.ADSREnvelope.noteOn e attackSamples) amps).2
    = if decide (Z.of_nat (length amps) < Z.max attackSamples 1)
      then TestBedSynth.ADSREnvelope.attack else TestBedSynth.ADSREnvelope.decay.
Proof.
  intros F processKp e n amps Hn.
  destruct (ADSREnvelope_run_attack processKp e n amps Hn) as [_ H].
  destruct (decide (Z.of_nat (length amps) < Z.max n 1)); [apply H | exact H].
Qed.

Section EnvelopePhaseFacts.
Context {F : Format}.
Import TestBedSynth.
Variable processKp :
  DoubleEMAFilter.t -> Sample -> Sample -> Sample * DoubleEMAFilter.t.

Lemma ADSREnvelope_process_phase (e : ADSREnvelope.t) (a : Sample) :
  (phase (ADSREnvelope.state e)
   <= phase (ADSREnvelope.state (ADSREnvelope.process processKp e a).2))%nat.
Proof.
  unfold ADSREnvelope.process. destruct (ADSREnvelope.state e) eqn:Hs.
  - destruct (processKp _ _ _) as [y sm]. cbn. destruct (decide _); cbn; lia.
  - destruct (processKp _ _ _) as [y sm]. cbn. lia.
  - destruct (fle _ _); destruct (processKp _ _ _) as [y sm]; cbn; lia.
  - cbn. rewrite Hs. cbn. lia.
Qed.

Lemma ADSREnvelope_run_phase (e : ADSREnvelope.t) (amps : list Sample) :
  (phase (ADSREnvelope.state e)
   <= phase (ADSREnvelope.state (ADSREnvelope_run processKp e amps).2))%nat.
Proof.
  induction amps as [|a amps IH] using rev_ind; [cbn; lia|].
  rewrite ADSREnvelope_run_snoc. cbv zeta.
  pose proof (ADSREnvelope_process_phase (ADSREnvelope_run processKp e amps).2 a) as H.
  destruct (ADSREnvelope.process processKp _ a) as [y e']. cbn [snd] in *. lia.
Qed.

Lemma ADSREnvelope_run_terminated (e : ADSREnvelope.t) (amps : list Sample) :
  ADSREnvelope.state e = ADSREnvelope.terminated ->
  ADSREnvelope_run processKp e amps = (replicate (length amps) (of_Z 0), e).
Proof.
  intros Hs. induction amps as [|a amps IH] using rev_ind; [reflexivity|].
  rewrite ADSREnvelope_run_snoc, IH. cbv zeta. cbn [fst snd].
  unfold ADSREnvelope.process. rewrite Hs.
  rewrite length_app, Nat.add_1_r. rewrite replicate_S_end. reflexivity.
Qed.

End EnvelopePhaseFacts.

(** X7. [process] never takes an envelope back to an earlier phase
    (attack, decay, release, terminated, in this order; only [noteOn]
    and [noteOff] do), and a terminated envelope, as [reset()] leaves
    it, returns 0 and stays as it is for every number of calls. *)
Theorem ADSREnvelope_phases_only_advance :
  forall (F : Format)
    (processKp : TestBedSynth.DoubleEMAFilter.t -> Sample -> Sample ->
                 Sample * TestBedSynth.DoubleEMAFilter.t)
    (e : TestBedSynth.ADSREnvelope.t) (amps : list Sample),
    (phase (TestBedSynth.ADSREnvelope.state e)
     <= phase (TestBedSynth.ADSREnvelope.state (ADSREnvelope_run processKp e amps).2))%nat
    /\ ADSREnvelope_run processKp (TestBedSynth.ADSREnvelope.reset e) amps
       = (replicate (length amps) (of_Z 0), TestBedSynth.ADSREnvelope.reset e).
Proof.
  intros F processKp e amps. split.
  - apply ADSREnvelope_run_phase.
  - apply ADSREnvelope_run_terminated. reflexivity.
Qed.

Section NoteOffFacts.
Context {F : Format} {Osc : Type}.
Import TestBedSynth.

Lemma ADSREnvelope_noteOff_idem (e : ADSREnvelope.t) :
  ADSREnvelope.noteOff (ADSREnvelope.noteOff e) = ADSREnvelope.noteOff e.
Proof. reflexivity. Qed.

Lemma Note_noteOff_idem (n : Note.t Osc) : Note.noteOff (Note.noteOff n) = Note.noteOff n.
Proof.
  unfold Note.noteOff. destruct (Note.state n) eqn:Hs; cbn; rewrite ?Hs; try reflexivity.
  all: f_equal; rewrite <- list_fmap_compose; apply list_fmap_ext; intros; reflexivity.
Qed.

Lemma Note_noteOff_id (n : Note.t Osc) : Note.id (Note.noteOff n) = Note.id n.
Proof. unfold Note.noteOff. destruct (Note.state n); reflexivity. Qed.

Lemma Note_noteOff_rest (n : Note.t Osc) :
  Note.state n = rest -> Note.noteOff n = n.
Proof. intros Hs. unfold Note.noteOff. rewrite Hs. reflexivity. Qed.

Lemma Note_noteOff_sounding (n : Note.t Osc) :
  Note.state n <> rest ->
  Note.state (Note.noteOff n) = release
  /\ ADSREnvelope.state (Note.gainEnvelope (Note.noteOff n)) = ADSREnvelope.release
  /\ Forall (fun e => ADSREnvelope.state e = ADSREnvelope.release)
       (Note.envelope (Note.noteOff n)).
Proof.
  intros Hs. unfold Note.noteOff.
  destruct (Note.state n); try contradiction; cbn;
    (split; [reflexivity|]; split; [reflexivity|]);
    apply Forall_fmap, Forall_true; intros; reflexivity.
Qed.

End NoteOffFacts.

(** X8. [noteOff(noteId)] touches the sounding voices that carry the
    id and no other: such a voice is left in release, its gain envelope
    and its other envelopes released; a voice at rest or with another id
    is left as it is; and a second [noteOff] of the same id changes
    nothing more. *)
Theorem DSPCore_noteOff_releases :
  forall (F : Format) (Osc : Type) (notes : list (TestBedSynth.Note.t Osc)) (noteId : Z),
    TestBedSynth.DSPCore.noteOff (TestBedSynth.DSPCore.noteOff notes noteId) noteId
    = TestBedSynth.DSPCore.noteOff notes noteId
    /\ forall (i : nat) (n : TestBedSynth.Note.t Osc),
         notes !! i = Some n ->
         exists n',
           TestBedSynth.DSPCore.noteOff notes noteId !! i = Some n'
           /\ (TestBedSynth.Note.id n <> noteId \/ TestBedSynth.Note.state n = TestBedSynth.rest ->
               n' = n)
           /\ (TestBedSynth.Note.id n = noteId -> TestBedSynth.Note.state n <> TestBedSynth.rest ->
               TestBedSynth.Note.state n' = TestBedSynth.release
               /\ TestBedSynth.ADSREnvelope.state (TestBedSynth.Note.gainEnvelope n')
                  = TestBedSynth.ADSREnvelope.release
               /\ Forall (fun e => TestBedSynth.ADSREnvelope.state e
                                   = TestBedSynth.ADSREnvelope.release)
                    (TestBedSynth.Note.envelope n')).
Proof.
  intros F Osc notes noteId. unfold TestBedSynth.DSPCore.noteOff. split.
  - rewrite <- list_fmap_compose. apply list_fmap_ext. intros i n _. cbn.
    destruct (decide (TestBedSynth.Note.id n = noteId)) as [Hid|Hid].
    + rewrite Note_noteOff_id. destruct (decide _); [|contradiction].
      apply Note_noteOff_idem.
    + destruct (decide _); [contradiction | reflexivity].
  - intros i n Hn. rewrite list_lookup_fmap, Hn. cbn. eexists. split; [reflexivity|].
    destruct (decide (TestBedSynth.Note.id n = noteId)) as [Hid|Hid].
    + split.
      * intros [Hne|Hr]; [contradiction | apply Note_noteOff_rest, Hr].
      * intros _ Hs. apply Note_noteOff_sounding, Hs.
    + split; [reflexivity | contradiction].
Qed.

Section NoteOnRangeFacts.
Context {F : Format} {Osc : Type}.
Import TestBedSynth.

Lemma pickResting_elem (notes : list (Note.t Osc)) (noteId : Z)
  (indices acc : list nat) (x : nat) :
  x ∈ DSPCore.pickResting notes noteId indices acc -> x ∈ acc \/ x ∈ indices.
Proof.
  revert acc. induction indices as [|i indices IH]; intros acc Hx; [left; exact Hx|].
  cbn [DSPCore.pickResting] in Hx.
  destruct (notes !! i) as [n|]; [|left; exact Hx].
  set (ni1 := if decide (Note.id n = noteId) then acc ++ [i] else acc) in *.
  set (ni2 := if decide (Note.state n = rest) then ni1 ++ [i] else ni1) in *.
  assert (forall y, y ∈ ni2 -> y ∈ acc \/ y = i) as Hni.
  { intros y Hy. unfold ni2, ni1 in Hy.
    destruct (decide (Note.state n = rest)), (decide (Note.id n = noteId));
      repeat (apply elem_of_app in Hy as [Hy|Hy]);
      try (apply list_elem_of_singleton in Hy); auto. }
  destruct (decide (DSPCore.nUnison <= length ni2)%nat).
  - destruct (Hni x Hx) as [?| ->]; [left; assumption | right; apply list_elem_of_here].
  - destruct (IH ni2 Hx) as [Hy|Hy]; [|right; apply list_elem_of_further, Hy].
    destruct (Hni x Hy) as [?| ->]; [left; assumption | right; apply list_elem_of_here].
Qed.

End NoteOnRangeFacts.

(** X9. [noteOn] always finds a voice among the first [nVoice]: for
    [0 < nVoice <= notes.size()] and at most [_S_threshold = 16] voices
    (where [std::sort] is the insertion sort), the index it starts the
    note on, [noteIndices[0]], exists and is below [nVoice], whatever
    the states and gains of the voices. *)
Theorem noteOn_voice_in_range :
  forall (F : Format) (Osc : Type) (notes : list (TestBedSynth.Note.t Osc))
    (nVoice : nat) (noteId : Z),
    (0 < nVoice <= length notes)%nat ->
    (nVoice <= TestBedSynth.Sort.S_threshold)%nat ->
    exists (v : nat) (n : TestBedSynth.Note.t Osc),
      TestBedSynth.DSPCore.noteOn_voice notes nVoice noteId = Some v
      /\ (v < nVoice)%nat /\ notes !! v = Some n.
Proof.
  intros F Osc notes nVoice noteId [Hpos Hlen] Hshort.
  assert (exists v, TestBedSynth.DSPCore.noteOn_voice notes nVoice noteId = Some v
                    /\ (v < nVoice)%nat) as (v & Hv & Hlt).
  { destruct (TestBedSynth.DSPCore.pickResting notes noteId (seq 0 nVoice) [])
      as [|x p] eqn:Hp.
    - destruct (noteOn_voice_stolen notes nVoice noteId Hp) as [_ Hfront].
      rewrite (Hfront Hshort).
      destruct nVoice as [|k]; [lia|]. apply front_seq_in_range.
    - assert (x ∈ TestBedSynth.DSPCore.pickResting notes noteId (seq 0 nVoice) []) as Hx
        by (rewrite Hp; apply list_elem_of_here).
      apply pickResting_elem in Hx as [Hx|Hx]; [inversion Hx|].
      apply elem_of_seq in Hx.
      exists x. split; [|lia].
      apply (noteOn_voice_picked notes nVoice noteId x p Hp). }
  destruct (lookup_lt_is_Some_2 notes v ltac:(lia)) as [n Hn].
  exists v, n. repeat split; assumption.
Qed.

(** X10. An attack of zero or one sample divides the ramp by zero
    ([attackLength / 2] is 0) and is over after one call: the target
    handed to the smoother is [min(1 / 0, 1) = 1], not a NaN, and the
    envelope goes on to the decay. *)
Theorem ADSREnvelope_short_attack :
  forall (F : Format)
    (processKp : TestBedSynth.DoubleEMAFilter.t -> Sample -> Sample ->
                 Sample * TestBedSynth.DoubleEMAFilter.t)
    (e : TestBedSynth.ADSREnvelope.t) (sustainAmplitude : Sample) (attackSamples : Z),
    let first :=
      processKp (TestBedSynth.DoubleEMAFilter.reset (TestBedSynth.ADSREnvelope.smoother e))
        (of_Z 1) (TestBedSynth.ADSREnvelope.atkKp e) in
    let after :=
      {| TestBedSynth.ADSREnvelope.state := TestBedSynth.ADSREnvelope.decay;
         TestBedSynth.ADSREnvelope.attackLength := attackSamples;
         TestBedSynth.ADSREnvelope.counter := 1;
         TestBedSynth.ADSREnvelope.atkKp := TestBedSynth.ADSREnvelope.atkKp e;
         TestBedSynth.ADSREnvelope.decKp := TestBedSynth.ADSREnvelope.decKp e;
         TestBedSynth.ADSREnvelope.relKp := TestBedSynth.ADSREnvelope.relKp e;
         TestBedSynth.ADSREnvelope.smoother := first.2 |} in
    0 <= attackSamples <= 1 ->
    fmin (of_Z 1 / of_Z (attackSamples / 2))%fl (of_Z 1) = of_Z 1
    /\ TestBedSynth.ADSREnvelope.process processKp
         (TestBedSynth.ADSREnvelope.noteOn e attackSamples) sustainAmplitude
       = (first.1, after).
Proof.
  intros F processKp e a n first after Hn.
  assert (n / 2 = 0) as Hhalf by (apply Z.div_small; lia).
  assert (fmin (of_Z 1 / of_Z 0)%fl (of_Z 1) = of_Z 1) as Hmin
    by (destruct F; reflexivity).
  rewrite Hhalf. split; [exact Hmin|].
  unfold TestBedSynth.ADSREnvelope.process, TestBedSynth.ADSREnvelope.noteOn.
  cbn [TestBedSynth.ADSREnvelope.state TestBedSynth.ADSREnvelope.counter
       TestBedSynth.ADSREnvelope.attackLength TestBedSynth.ADSREnvelope.smoother
       TestBedSynth.ADSREnvelope.atkKp TestBedSynth.ADSREnvelope.decKp
       TestBedSynth.ADSREnvelope.relKp].
  change ((0 + 1) mod 2 ^ 64) with 1. rewrite Hhalf, Hmin.
  subst first after.
  destruct (processKp _ _ _) as [y sm]. cbn [fst snd].
  destruct (decide (1 >= n)); [reflexivity | lia].
Qed.

Section ModFacts.

Lemma snoc_lookup {A} (l : list A) (x : A) : (l ++ [x]) !! length l = Some x.
Proof. rewrite lookup_app_r, Nat.sub_diag by lia. reflexivity. Qed.

Lemma mod_add_ne (size i k l : Z) :
  0 <= k < l -> l < size -> (i + l) mod size <> (i + k) mod size.
Proof.
  intros Hk Hl Heq.
  assert (((i + l) - (i + k)) mod size = 0) as H
    by (rewrite Zminus_mod, Heq, Z.sub_diag; apply Z.mod_0_l; lia).
  replace (i + l - (i + k)) with (l - k) in H by lia.
  rewrite Z.mod_small in H; lia.
Qed.



End ModFacts.

Section TransitionFacts.
Context {F : Format}.
Import TestBedSynth.

(** [trStop] is the slot before [trIndex], around the buffer: the
    wrap of [trIndex - 1] below zero in [size_t] is undone. *)
Lemma stopIndex_mod (trIndex size : Z) :
  0 <= trIndex < size -> size < 2 ^ 64 ->
  DSPCore.stopIndex trIndex size = (trIndex - 1) mod size.
Proof.
  intros Hi Hs. unfold DSPCore.stopIndex.
  destruct (Z.eq_dec trIndex 0) as [->|Hne].
  - change ((0 - 1) mod 2 ^ 64) with (2 ^ 64 - 1).
    destruct (decide (2 ^ 64 - 1 >= size)); [|lia].
    replace (2 ^ 64 - 1 + size) with (size - 1 + 1 * 2 ^ 64) by lia.
    rewrite Z_mod_plus_full, (Z.mod_small (size - 1)) by lia.
    replace (0 - 1) with (size - 1 + (-1) * size) by lia.
    rewrite Z_mod_plus_full, Z.mod_small; lia.
  - rewrite (Z.mod_small (trIndex - 1) (2 ^ 64)) by lia.
    destruct (decide (trIndex - 1 >= size)); [lia|].
    rewrite Z.mod_small; lia.
Qed.



End TransitionFacts.


Section FillFacts.
Context {F : Format} {Osc : Type}.
Import TestBedSynth.
Variable processKp :
  DoubleEMAFilter.t -> Sample -> Sample -> Sample * DoubleEMAFilter.t.
Variable Info : Type.
Variable gainSustainAmplitude : Info -> Sample.
Variable envelopeSustainAmplitude : Info -> nat -> Sample.
Variable lfoPhaseDelta : Info -> nat -> Sample.
Variable lfoWavetable : Info -> nat -> list Sample.
Variable oscMix : Info -> Sample.
Variable osc_process :
  Osc -> Sample -> Sample -> list Sample -> list Sample -> Info -> nat -> Sample * Osc.
Variable lerp : Sample -> Sample -> Sample -> Sample.
Variables nOscillator env0 lfo0 : nat.

Local Abbreviation process :=
  (DSPCore.note_process processKp Info gainSustainAmplitude
     envelopeSustainAmplitude lfoPhaseDelta lfoWavetable oscMix osc_process lerp
     nOscillator env0 lfo0).
Local Abbreviation repeat_process :=
  (process_repeat processKp Info gainSustainAmplitude
     envelopeSustainAmplitude lfoPhaseDelta lfoWavetable oscMix osc_process lerp
     nOscillator env0 lfo0).
Local Abbreviation fill_step :=
  (DSPCore.fill_step processKp Info gainSustainAmplitude
     envelopeSustainAmplitude lfoPhaseDelta lfoWavetable oscMix osc_process lerp
     nOscillator env0 lfo0).
Local Abbreviation fillTransitionBuffer :=
  (DSPCore.fillTransitionBuffer processKp Info gainSustainAmplitude
     envelopeSustainAmplitude lfoPhaseDelta lfoWavetable oscMix osc_process lerp
     nOscillator env0 lfo0).

Lemma process_repeat_snoc (k : nat) (n : Note.t Osc) (upRate : Sample) (info : Info) :
  repeat_process (S k) n upRate info
  = ('(fs, n1) ← repeat_process k n upRate info;
     '(f, n2) ← process n1 upRate info;
     Some (fs ++ [f], n2)).
Proof.
  revert n. induction k as [|k IH]; intros n.
  - cbn [process_repeat mbind option_bind].
    destruct (process n upRate info) as [[f n1]|]; reflexivity.
  - change (repeat_process (S (S k)) n upRate info)
      with ('(f, n1) ← process n upRate info;
            '(fs, n2) ← repeat_process (S k) n1 upRate info;
            Some (f :: fs, n2)).
    change (repeat_process (S k) n upRate info)
      with ('(f, n1) ← process n upRate info;
            '(fs, n2) ← repeat_process k n1 upRate info;
            Some (f :: fs, n2)).
    destruct (process n upRate info) as [[f n1]|]; [|reflexivity].
    cbn [mbind option_bind]. rewrite IH.
    destruct (repeat_process k n1 upRate info) as [[fs n2]|]; [|reflexivity].
    cbn [mbind option_bind].
    destruct (process n2 upRate info) as [[g n3]|]; reflexivity.
Qed.


Lemma process_repeat_length (k : nat) (n n' : Note.t Osc) (upRate : Sample)
  (info : Info) (fs : list Note.frame) :
  repeat_process k n upRate info = Some (fs, n') -> length fs = k.
Proof.
  revert n fs n'. induction k as [|k IH]; intros n fs n' H.
  - injection H as <- _. reflexivity.
  - cbn [process_repeat] in H.
    destruct (process n upRate info) as [[g m]|]; [|discriminate].
    cbn [mbind option_bind] in H.
    destruct (repeat_process k m upRate info) as [[gs m']|] eqn:E; [|discriminate].
    cbn [mbind option_bind] in H. injection H as <- _.
    cbn [length]. f_equal. apply (IH m gs m' E).
Qed.

(** The loop of [fillTransitionBuffer] after [j] turns. *)
Lemma fill_loop (note : Note.t Osc) (tb : list Note.frame) (upRate : Sample)
  (info : Info) (i : Z) (j : nat) (frames : list Note.frame) (note' : Note.t Osc) :
  let size := Z.of_nat (length tb) in
  1 <= size <= 2 ^ 63 -> 0 <= i < size -> (j <= length tb)%nat ->
  repeat_process j note upRate info = Some (frames, note') ->
  exists tb',
    fold_left (fill_step upRate info i size) (seq 0 j) (Some (note, tb))
    = Some (note', tb')
    /\ length tb' = length tb
    /\ (forall l, Z.of_nat j <= l < size ->
          transition_frame tb' i l = transition_frame tb i l)
    /\ (forall (l : nat) (f : Note.frame), frames !! l = Some f ->
          exists fr, transition_frame tb i (Z.of_nat l) = Some fr
            /\ transition_frame tb' i (Z.of_nat l)
               = Some ((fr.1 + f.1 * fade size (Z.of_nat l))%fl,
                       (fr.2 + f.2 * fade size (Z.of_nat l))%fl)).
Proof.
  intros size Hs Hi. revert frames note'.
  induction j as [|j IH]; intros frames note' Hj Hrep.
  - injection Hrep as <- <-. exists tb. split; [reflexivity|]. split; [reflexivity|].
    split; [reflexivity|]. intros l f Hf. discriminate Hf.
  - rewrite process_repeat_snoc in Hrep.
    destruct (repeat_process j note upRate info) as [[fs n1]|] eqn:Hr1; [|discriminate].
    cbn [mbind option_bind] in Hrep.
    destruct (process n1 upRate info) as [[f n2]|] eqn:Hp; [|discriminate].
    cbn [mbind option_bind] in Hrep. injection Hrep as <- <-.
    destruct (IH fs n1 ltac:(lia) eq_refl) as (tb1 & Hfold & Hl1 & Hkeep & Hdone).
    pose proof (process_repeat_length _ _ _ _ _ _ Hr1) as Hfs.
    set (idx := (i + Z.of_nat j) mod size).
    pose proof (Z.mod_pos_bound (i + Z.of_nat j) size ltac:(lia)) as Hb. fold idx in Hb.
    destruct (load_defined tb idx ltac:(fold size; lia)) as [fr Hfr].
    assert (Std.load tb1 idx = Some fr) as Hfr1.
    { rewrite <- Hfr. pose proof (Hkeep (Z.of_nat j) ltac:(lia)) as H.
      unfold transition_frame in H. rewrite Hl1 in H. exact H. }
    set (new := ((fr.1 + f.1 * fade size (Z.of_nat j))%fl,
                 (fr.2 + f.2 * fade size (Z.of_nat j))%fl)).
    exists (<[Z.to_nat idx := new]> tb1).
    assert (length (<[Z.to_nat idx := new]> tb1) = length tb) as Hl2
      by (rewrite length_insert; exact Hl1).
    split; [|split; [exact Hl2|split]].
    + rewrite seq_S, fold_left_app, Hfold. cbn [fold_left Nat.add].
      unfold DSPCore.fill_step at 1. cbn [mbind option_bind]. rewrite Hp.
      cbn [mbind option_bind].
      rewrite (Z.mod_small (i + Z.of_nat j) (2 ^ 64)) by lia. fold idx.
      unfold Note.frame in *. rewrite Hfr1. cbn [mbind option_bind]. unfold Std.store. rewrite Hl1. fold size.
      destruct (decide (0 <= idx < size)); [|lia]. reflexivity.
    + intros l Hlr. rewrite <- Hkeep by lia. unfold transition_frame.
      rewrite Hl2, Hl1. fold size.
      apply load_insert_ne; [lia | apply Z.mod_pos_bound; lia |].
      intros Heq. symmetry in Heq. revert Heq. apply mod_add_ne; lia.
    + intros l g Hg. destruct (decide (l < length fs)%nat) as [Hlt|Hge].
      * rewrite lookup_app_l in Hg by assumption.
        destruct (Hdone l g Hg) as (fr' & Hfr' & Hnew).
        exists fr'. split; [exact Hfr'|]. rewrite <- Hnew. unfold transition_frame.
        rewrite Hl2, Hl1. fold size.
        apply load_insert_ne; [lia | apply Z.mod_pos_bound; lia |].
        apply mod_add_ne; lia.
      * assert (l = j) as ->.
        { apply lookup_lt_Some in Hg. rewrite length_app in Hg. simpl in Hg. lia. }
        rewrite <- Hfs in Hg at 1. rewrite snoc_lookup in Hg. injection Hg as <-.
        exists fr. split; [exact Hfr|]. unfold transition_frame. rewrite Hl2. fold size idx.
        apply load_insert_eq. rewrite Hl1. fold size. lia.
Qed.

(** X12. [fillTransitionBuffer] fades the stolen voice out into the
    transition buffer: for a sounding voice it runs [Note::process] once
    per buffer frame, [size] calls in all, adds frame [j] of the voice,
    scaled by [1 - j / size], to buffer frame [trIndex + j]
    (cyclically), sets [isTransitioning] and puts [trStop] one slot
    before [trIndex] around the buffer; for a voice at rest it does
    nothing. *)
Theorem fillTransitionBuffer_fades_voice_out
  (notes : list (Note.t Osc)) (tr : DSPCore.transition) (noteIndex : nat)
  (note note' : Note.t Osc) (upRate : Sample) (info : Info)
  (frames : list Note.frame) :
  let tb := DSPCore.transitionBuffer tr in
  let size := Z.of_nat (length tb) in
  let i := DSPCore.trIndex tr in
  1 <= size <= 2 ^ 63 -> 0 <= i < size ->
  notes !! noteIndex = Some note ->
  repeat_process (length tb) note upRate info = Some (frames, note') ->
  (Note.state note = rest ->
   fillTransitionBuffer upRate info notes tr noteIndex = Some (notes, tr))
  /\ (Note.state note <> rest ->
      exists tb',
        fillTransitionBuffer upRate info notes tr noteIndex
        = Some (<[noteIndex := note']> notes,
                {| DSPCore.isTransitioning := true; DSPCore.trIndex := i;
                   DSPCore.trStop := (i - 1) mod size;
                   DSPCore.transitionBuffer := tb' |})
        /\ length tb' = length tb
        /\ length frames = length tb
        /\ forall (j : nat) (f : Note.frame), frames !! j = Some f ->
             exists fr, transition_frame tb i (Z.of_nat j) = Some fr
               /\ transition_frame tb' i (Z.of_nat j)
                  = Some ((fr.1 + f.1 * fade size (Z.of_nat j))%fl,
                          (fr.2 + f.2 * fade size (Z.of_nat j))%fl)).
Proof.
  intros tb size i Hs Hi Hn Hrep. subst tb size i.
  unfold DSPCore.fillTransitionBuffer. rewrite Hn. cbn [mbind option_bind]. split.
  - intros Hr. destruct (decide (Note.state note = rest)); [reflexivity | contradiction].
  - intros Hr. destruct (decide (Note.state note = rest)); [contradiction|].
    destruct (fill_loop note (DSPCore.transitionBuffer tr) upRate info (DSPCore.trIndex tr)
                (length (DSPCore.transitionBuffer tr)) frames note' Hs Hi
                ltac:(lia) Hrep) as (tb' & Hfold & Hl & _ & Hdone).
    exists tb'. rewrite Hfold. cbn [mbind option_bind].
    rewrite stopIndex_mod by lia.
    split; [reflexivity|]. split; [exact Hl|]. split; [|exact Hdone].
    apply (process_repeat_length _ _ _ _ _ _ Hrep).
Qed.

End FillFacts.


Section LfoFacts.
#[local] Existing Instance binary32.
Import TestBedSynth.

(** A negative increment of at most [2^-25] in size takes the phase
    from 0 to exactly 1: [1 - 2^-k] rounds to 1. *)
Lemma wrapped_phase_one (k : Z) :
  25 <= k <= 149 -> wrapped_phase (of_Z 0) (minus_pow2 k) = of_Z 1.
Proof.
  intros Hk.
  assert (bool_decide
            (Forall (fun k => wrapped_phase (of_Z 0) (minus_pow2 k) = of_Z 1)
               (seqZ 25 125)) = true) as H by (vm_compute; reflexivity).
  apply bool_decide_eq_true in H. rewrite Forall_forall in H. apply H. apply elem_of_seqZ. lia.
Qed.

(** X13. [EasyLfo::process] reads one element past its table when a small
    negative increment wraps the phase: from phase 0 (as [reset()]
    leaves it), an increment [-2^-k] with [25 <= k <= 149] gives the
    phase [0 - 2^-k - floor(0 - 2^-k) = 1 - 2^-k], which rounds to
    [1.0f], so the index [size_t(tableSize * phase)] is [tableSize],
    for every table of 1 to [2^24 - 1] elements. *)
Theorem EasyLfo_process_reads_past_table :
  forall (processKp : TestBedSynth.DoubleEMAFilter.t -> Sample -> Sample ->
                      Sample * TestBedSynth.DoubleEMAFilter.t)
    (smoother : TestBedSynth.DoubleEMAFilter.t) (smootherKp : Sample)
    (table : list Sample) (k : Z),
    25 <= k <= 149 -> 1 <= Z.of_nat (length table) < 2 ^ 24 ->
    wrapped_phase (of_Z 0) (minus_pow2 k) = of_Z 1
    /\ Std.to_size_t (of_Z (Z.of_nat (length table)) * of_Z 1)%fl
       = Some (Z.of_nat (length table))
    /\ Std.load table (Z.of_nat (length table)) = None
    /\ TestBedSynth.EasyLfo.process processKp
         {| TestBedSynth.EasyLfo.phase := of_Z 0;
            TestBedSynth.EasyLfo.smoother := smoother |}
         (minus_pow2 k) smootherKp table
       = None.
Proof.
  intros processKp smoother smootherKp table k Hk Hn.
  pose proof (wrapped_phase_one k Hk) as Hw.
  assert (Std.to_size_t (of_Z (Z.of_nat (length table)) * of_Z 1)%fl
          = Some (Z.of_nat (length table))) as Hidx.
  { rewrite fmul_one_r by apply of_Z_valid.
    unfold Std.to_size_t. rewrite ftrunc_of_Z by (simpl; lia). cbn [mbind option_bind].
    destruct (decide (0 <= Z.of_nat (length table) < 2 ^ 64)); [reflexivity | lia]. }
  assert (Std.load table (Z.of_nat (length table)) = None) as Hload.
  { unfold Std.load. destruct (decide _); [|reflexivity].
    apply lookup_ge_None. lia. }
  split; [exact Hw|]. split; [exact Hidx|]. split; [exact Hload|].
  unfold TestBedSynth.EasyLfo.process. cbn [TestBedSynth.EasyLfo.phase].
  unfold wrapped_phase in Hw. cbv zeta in Hw. rewrite Hw, Hidx.
  cbn [mbind option_bind]. rewrite Hload. reflexivity.
Qed.

End LfoFacts.


(** * Signs and non-numbers *)

Local Open Scope fl_scope.

Section NanFacts.
Context {F : Format}.

Lemma fmul_nan_r (x : Sample) : x * S754_nan = S754_nan.
Proof. destruct x; reflexivity. Qed.

Lemma fadd_nan_r (x : Sample) : x + S754_nan = S754_nan.
Proof. destruct x; reflexivity. Qed.

Lemma fsub_nan_r (x : Sample) : x - S754_nan = S754_nan.
Proof. destruct x; reflexivity. Qed.

Lemma fmul_nan_l (y : Sample) : S754_nan * y = S754_nan.
Proof. reflexivity. Qed.

Lemma fadd_nan_l (y : Sample) : S754_nan + y = S754_nan.
Proof. reflexivity. Qed.

End NanFacts.

Section NotchNanFacts.
Context {F : Format}.
Import DoubleLoopCymbal.

Lemma notch_signals_nan (s : AdaptiveNotchCPZ.t) (input narrowness : Sample) :
  AdaptiveNotchCPZ.alpha s = S754_nan \/ input = S754_nan ->
  exists s0, AdaptiveNotchCPZ.signals s input narrowness = (S754_nan, S754_nan, s0).
Proof.
  intros H. unfold AdaptiveNotchCPZ.signals. eexists.
  destruct H as [-> | ->].
  - rewrite fmul_nan_r, fmul_nan_l, fsub_nan_r, !fsub_nan_l, !fadd_nan_l. reflexivity.
  - rewrite clamp_nan, !fsub_nan_l, !fadd_nan_l. reflexivity.
Qed.

Lemma notch_process_nan (s : AdaptiveNotchCPZ.t) (input narrowness : Sample) :
  AdaptiveNotchCPZ.alpha s = S754_nan \/ input = S754_nan ->
  (AdaptiveNotchCPZ.process s input narrowness).1 = S754_nan
  /\ AdaptiveNotchCPZ.alpha (AdaptiveNotchCPZ.process s input narrowness).2 = S754_nan.
Proof.
  intros H. destruct (notch_signals_nan s input narrowness H) as [s0 Hs].
  unfold AdaptiveNotchCPZ.process. rewrite Hs. cbn [fst snd AdaptiveNotchCPZ.alpha].
  rewrite !fmul_nan_l, fsub_nan_r, clamp_nan. split; reflexivity.
Qed.

Lemma notch_run_nan (s : AdaptiveNotchCPZ.t) (calls : list (Sample * Sample)) :
  AdaptiveNotchCPZ.alpha s = S754_nan ->
  AdaptiveNotchCPZ.alpha (AdaptiveNotchCPZ.run s calls) = S754_nan.
Proof.
  revert s. induction calls as [|c calls IH]; intros s Hs; [exact Hs|].
  cbn [AdaptiveNotchCPZ.run fold_left]. apply IH.
  apply notch_process_nan. left. exact Hs.
Qed.

End NotchNanFacts.

(** X14. One NaN input sample disables the adaptive notch until the next
    [reset()]: whatever the state it arrives in and whatever the calls
    that follow, [alpha] is NaN from then on and every output is NaN. *)
Theorem notch_nan_input_is_absorbing :
  forall (F : Format) (s : DoubleLoopCymbal.AdaptiveNotchCPZ.t) (narrowness : Sample)
    (calls : list (Sample * Sample)) (input' narrowness' : Sample),
    let poisoned := (DoubleLoopCymbal.AdaptiveNotchCPZ.process s S754_nan narrowness).2 in
    let later := DoubleLoopCymbal.AdaptiveNotchCPZ.run poisoned calls in
    (DoubleLoopCymbal.AdaptiveNotchCPZ.process s S754_nan narrowness).1 = S754_nan
    /\ DoubleLoopCymbal.AdaptiveNotchCPZ.alpha later = S754_nan
    /\ (DoubleLoopCymbal.AdaptiveNotchCPZ.process later input' narrowness').1 = S754_nan
    /\ DoubleLoopCymbal.AdaptiveNotchCPZ.alpha
         (DoubleLoopCymbal.AdaptiveNotchCPZ.reset later) = of_Z (-2).
Proof.
  intros F s narrowness calls input' narrowness' poisoned later.
  destruct (notch_process_nan s S754_nan narrowness (or_intror eq_refl)) as [Hout Halpha].
  assert (DoubleLoopCymbal.AdaptiveNotchCPZ.alpha later = S754_nan) as Hlater
    by (apply notch_run_nan, Halpha).
  split; [exact Hout|]. split; [exact Hlater|]. split; [|reflexivity].
  apply notch_process_nan. left. exact Hlater.
Qed.

Section FoldNonFinite.
Context {F : Format} {Up Low Half : Type}.
Variable pow : Sample -> Sample -> Sample.
Variable int_unrepresentable : Sample -> Z.

Lemma copysign_nan (y : Sample) : copysign S754_nan y = S754_nan.
Proof. unfold copysign. destruct (signbit y); reflexivity. Qed.

(** Where the fractional part [absed - floored] is NaN, so is the value
    handed to [safeClip]. *)
Lemma fold_of_nan_fraction (s : FoldShaper.t Up Low Half) (x0 : Sample) :
  let x1 := if FoldShaper.hardclip s then clamp x0 (of_Z (-1)) (of_Z 1) else x0 in
  let absed := fabs (x1 * FoldShaper.gain s) in
  absed - ffloor absed = S754_nan ->
  FoldShaper.fold pow int_unrepresentable s x0 = S754_nan.
Proof.
  intros x1 absed H. unfold FoldShaper.fold. fold x1. fold absed. rewrite H.
  repeat first [rewrite fmul_nan_r | rewrite fadd_nan_l | rewrite fsub_nan_r
               | rewrite copysign_nan].
  destruct (decide _); [reflexivity|]. destruct (_ <=? _); reflexivity.
Qed.

Lemma fold_nan (s : FoldShaper.t Up Low Half) :
  FoldShaper.fold pow int_unrepresentable s S754_nan = S754_nan.
Proof.
  apply fold_of_nan_fraction. rewrite clamp_nan.
  destruct (FoldShaper.hardclip s); reflexivity.
Qed.

Lemma fold_infinity (s : FoldShaper.t Up Low Half) (b : bool) :
  FoldShaper.hardclip s = false ->
  FoldShaper.fold pow int_unrepresentable s (S754_infinity b) = S754_nan.
Proof.
  intros Hc. apply fold_of_nan_fraction. rewrite Hc.
  destruct (FoldShaper.gain s) as [sg|sg| |sg mg eg]; reflexivity.
Qed.

End FoldNonFinite.

(** X15. A sample that is not a number gives silence: [process] returns
    exactly [+0] for a NaN input whatever the settings, and for an
    infinite input when [hardclip] is off (with [hardclip] on, the
    infinite input is clipped to [+-1] first). *)
Theorem FoldShaper_process_non_finite_input :
  forall (F : Format) (Up Low Half : Type) (pow : Sample -> Sample -> Sample)
    (int_unrepresentable : Sample -> Z) (gain multiply : Sample) (hardclip : bool)
    (up : Up) (low : Low) (half : Half) (negative : bool),
    FoldShaper.process pow int_unrepresentable
      (FoldShaper.mk gain multiply hardclip up low half) S754_nan = of_Z 0
    /\ FoldShaper.process pow int_unrepresentable
         (FoldShaper.mk gain multiply false up low half) (S754_infinity negative) = of_Z 0
    /\ FoldShaper.process pow int_unrepresentable
         (FoldShaper.mk gain multiply true up low half) (S754_infinity negative)
       = FoldShaper.process pow int_unrepresentable
           (FoldShaper.mk gain multiply true up low half)
           (if negative then of_Z (-1) else of_Z 1).
Proof.
  intros. unfold FoldShaper.process. split; [|split].
  - rewrite fold_nan. reflexivity.
  - rewrite fold_infinity by reflexivity. reflexivity.
  - f_equal. unfold FoldShaper.fold. cbn [FoldShaper.hardclip].
    assert (clamp (S754_infinity negative) (of_Z (-1)) (of_Z 1)
            = clamp (if negative then of_Z (-1) else of_Z 1) (of_Z (-1)) (of_Z 1)) as ->
      by (destruct negative, F; reflexivity).
    reflexivity.
Qed.

Section SignFacts.
Context {F : Format}.

Lemma fneg_involutive (x : Sample) : - - x = x.
Proof. destruct x as [s|s| |s m e]; simpl; rewrite ?negb_involutive; reflexivity. Qed.

Lemma fabs_fneg (x : Sample) : fabs (- x) = fabs x.
Proof. destruct x; reflexivity. Qed.

Lemma isnan_fneg (x : Sample) : isnan (- x) = isnan x.
Proof. destruct x; reflexivity. Qed.

Lemma signbit_fneg (x : Sample) : isnan x = false -> signbit (- x) = negb (signbit x).
Proof. destruct x; try discriminate; reflexivity. Qed.

Lemma copysign_fneg (v y : Sample) :
  isnan y = false -> copysign v (- y) = - copysign v y.
Proof.
  intros Hy. unfold copysign. rewrite signbit_fneg by assumption.
  destruct (signbit y); simpl; [rewrite fneg_involutive|]; reflexivity.
Qed.

Lemma SFcompare_opp (a b : Sample) :
  SFcompare (- a) (- b) = CompOpp <$> SFcompare a b.
Proof.
  destruct a as [sa|sa| |sa ma ea], b as [sb|sb| |sb mb eb]; simpl; try reflexivity;
    try (destruct sa; reflexivity); try (destruct sb; reflexivity);
    try (destruct sa, sb; reflexivity).
  destruct sa, sb; simpl; try reflexivity;
    destruct (ea ?= eb)%Z; simpl; rewrite ?CompOpp_involutive; reflexivity.
Qed.

Lemma flt_fneg (a b : Sample) : (- a <? - b) = (b <? a).
Proof.
  unfold flt, SFltb. rewrite SFcompare_opp, (SFcompare_antisym a b). reflexivity.
Qed.

(** Clamping to a symmetric range commutes with the change of sign. *)
Lemma clamp_fneg (x c : Sample) :
  (c <? - c) = false -> clamp (- x) (- c) c = - clamp x (- c) c.
Proof.
  intros Hc. rewrite (clamp_ordered x (- c) c Hc), (clamp_ordered (- x) (- c) c Hc).
  rewrite flt_fneg. rewrite <- (fneg_involutive c) at 3. rewrite flt_fneg.
  destruct (c <? x) eqn:H1, (x <? - c) eqn:H2; try reflexivity.
  - rewrite (flt_trans _ _ _ H1 H2) in Hc. discriminate.
  - rewrite fneg_involutive. reflexivity.
Qed.

Lemma round_aux_fneg (s : bool) (m e : Z) (l : location) :
  - binary_round_aux (prec F) (emax F) s m e l
  = binary_round_aux (prec F) (emax F) (negb s) m e l.
Proof.
  unfold binary_round_aux.
  destruct (shr_fexp _ _ m e l) as [r1 e1].
  destruct (shr_fexp _ _ _ e1 loc_Exact) as [r2 e2].
  destruct (shr_m r2); try reflexivity.
  destruct (e2 <=? emax F - prec F)%Z; reflexivity.
Qed.

Lemma fmul_fneg_l (x y : Sample) : (- x) * y = - (x * y).
Proof.
  unfold fmul, SFmul.
  destruct x as [sx|sx| |sx mx ex], y as [sy|sy| |sy my ey]; simpl;
    rewrite ?negb_xorb_l; try reflexivity.
  rewrite round_aux_fneg, negb_xorb_l. reflexivity.
Qed.

Lemma binary_round_fneg (s : bool) (m : positive) (e : Z) :
  - binary_round (prec F) (emax F) s m e = binary_round (prec F) (emax F) (negb s) m e.
Proof.
  unfold binary_round. destruct (shl_align _ _ _) as [m' e']. apply round_aux_fneg.
Qed.

Lemma binary_normalize_fneg (z e : Z) :
  same_number (binary_normalize (prec F) (emax F) (- z) e false)
    (- binary_normalize (prec F) (emax F) z e false).
Proof.
  destruct z as [|p|p]; simpl.
  - right. split; reflexivity.
  - left. rewrite binary_round_fneg. reflexivity.
  - left. rewrite binary_round_fneg. reflexivity.
Qed.

(** A difference changes sign with its operands, up to the sign of an
    exact zero. *)
Lemma fsub_fneg (a b : Sample) : same_number ((- a) - (- b)) (- (a - b)).
Proof.
  unfold fsub, SFsub.
  destruct a as [sa|sa| |sa ma ea], b as [sb|sb| |sb mb eb]; simpl;
    rewrite ?negb_involutive;
    try (left; reflexivity);
    try (destruct sa, sb; simpl; (left; reflexivity) || (right; split; reflexivity)).
  match goal with
  | |- same_number (binary_normalize _ _ ?u _ _) (- binary_normalize _ _ ?v _ _) =>
      replace u with (- v)%Z; [apply binary_normalize_fneg|]
  end.
  destruct sa, sb; simpl; lia.
Qed.

Lemma same_number_feq (a b : Sample) :
  same_number a b -> isnan a = false -> (a =? b) = true.
Proof.
  intros [->|[Ha Hb]] Hn.
  - apply feq_refl. exact Hn.
  - destruct a, b; try discriminate. reflexivity.
Qed.

Lemma of_Z_fneg_1024 : of_Z (-1024) = - of_Z 1024 /\ of_Z (-1) = - of_Z 1.
Proof. destruct F; split; reflexivity. Qed.

Lemma isfinite_fneg (x : Sample) : isfinite (- x) = isfinite x.
Proof. destruct x; reflexivity. Qed.

Lemma safeClip_fneg (u v : Sample) :
  same_number u (- v) ->
  same_number (FoldShaper.safeClip u) (- FoldShaper.safeClip v).
Proof.
  destruct of_Z_fneg_1024 as [E _].
  assert ((of_Z 1024 <? - of_Z 1024) = false) as Hc by (destruct F; reflexivity).
  intros [->|[Hu Hv]].
  - unfold FoldShaper.safeClip. rewrite isfinite_fneg.
    destruct (isfinite v).
    + left. rewrite E. apply clamp_fneg. exact Hc.
    + right. destruct F; split; reflexivity.
  - right. destruct u as [su| | |], v as [sv| | |]; try discriminate.
    destruct F; split; reflexivity.
Qed.

End SignFacts.

Section FoldOddFacts.
Context {F : Format} {Up Low Half : Type}.
Variable pow : Sample -> Sample -> Sample.
Variable int_unrepresentable : Sample -> Z.

Lemma fold_fneg (s : FoldShaper.t Up Low Half) (x : Sample) :
  isnan x = false ->
  same_number (FoldShaper.fold pow int_unrepresentable s (- x))
    (- FoldShaper.fold pow int_unrepresentable s x).
Proof.
  intros Hx. destruct of_Z_fneg_1024 as [_ E1].
  unfold FoldShaper.fold.
  set (y := if FoldShaper.hardclip s then clamp x (of_Z (-1)) (of_Z 1) else x).
  assert ((if FoldShaper.hardclip s then clamp (- x) (of_Z (-1)) (of_Z 1) else - x)
          = - y) as ->.
  { unfold y. destruct (FoldShaper.hardclip s); [|reflexivity].
    rewrite E1. apply clamp_fneg. destruct F; reflexivity. }
  assert (isnan y = false) as Hy.
  { unfold y. destruct (FoldShaper.hardclip s); [|exact Hx].
    rewrite clamp_isnan by (destruct F; reflexivity). exact Hx. }
  rewrite fmul_fneg_l, fabs_fneg.
  rewrite !(copysign_fneg _ y Hy).
  destruct (decide _); [apply fsub_fneg|].
  destruct (_ <=? _); left; reflexivity.
Qed.

End FoldOddFacts.

(** X16. The fold shaper is odd: [process(-x)] is [-process(x)] for every
    input and every setting, where [==] takes the zeros of either sign
    for one number. *)
Theorem FoldShaper_process_odd :
  forall (F : Format) (Up Low Half : Type) (pow : Sample -> Sample -> Sample)
    (int_unrepresentable : Sample -> Z) (s : FoldShaper.t Up Low Half) (x : Sample),
    (FoldShaper.process pow int_unrepresentable s (- x)
     =? - FoldShaper.process pow int_unrepresentable s x) = true.
Proof.
  intros F Up Low Half pow int_unrepresentable s x.
  apply same_number_feq.
  - unfold FoldShaper.process. destruct (isnan x) eqn:Hx.
    + destruct x; try discriminate. simpl (- S754_nan).
      rewrite fold_nan. right. destruct F; split; reflexivity.
    + apply safeClip_fneg, fold_fneg, Hx.
  - apply isfinite_not_nan, safeClip_isfinite.
Qed.


(** X17. With [sustain] set, [setTime] makes the decay hold: after
    [trigger(gain)], every call of [process] returns [gain] and leaves
    the state as it is, for a [gain] of the format. *)
Theorem ExpDecay_sustain_holds :
  forall (F : Format) (pow : Sample -> Sample -> Sample) (s : DoubleLoopCymbal.ExpDecay.t)
    (decayTimeInSamples gain : Sample) (k : nat),
    valid gain = true ->
    let held :=
      DoubleLoopCymbal.ExpDecay.trigger
        (DoubleLoopCymbal.ExpDecay.setTime pow s decayTimeInSamples true) gain in
    ExpDecay_outputs k held = (replicate k gain, held).
Proof.
  intros F pow s decayTimeInSamples gain k Hv held.
  induction k as [|k IH]; [reflexivity|].
  cbn [ExpDecay_outputs]. unfold DoubleLoopCymbal.ExpDecay.process.
  assert (DoubleLoopCymbal.ExpDecay.value held * DoubleLoopCymbal.ExpDecay.alpha held = gain)
    as E by (apply fmul_one_r, Hv).
  rewrite E.
  change {| DoubleLoopCymbal.ExpDecay.value := gain;
            DoubleLoopCymbal.ExpDecay.alpha := DoubleLoopCymbal.ExpDecay.alpha held |}
    with held.
  rewrite IH. reflexivity.
Qed.

(** X18. A rate limiter that has reached its target stays on it: with the
    value equal to the target, [process(target, rate)] returns the
    target, for every rate that is not negative (a NaN rate included)
    and every target. *)
Theorem ImmediateRateLimiter_rests_on_target :
  forall (F : Format) (target rate : Sample),
    (rate <? of_Z 0) = false ->
    GrowlSynth.ImmediateRateLimiter.process
      {| GrowlSynth.ImmediateRateLimiter.value := target |} target rate
    = (target, {| GrowlSynth.ImmediateRateLimiter.value := target |}).
Proof.
  intros F target rate Hr. unfold GrowlSynth.ImmediateRateLimiter.process.
  cbn [GrowlSynth.ImmediateRateLimiter.value].
  assert ((rate <? fabs (target - target)) = false) as ->; [|reflexivity].
  destruct (isfinite target) eqn:Hf.
  - rewrite fsub_diag by assumption. exact Hr.
  - destruct target as [s|s| |s m e]; try discriminate.
    + destruct s; simpl; apply flt_nan_r.
    + apply flt_nan_r.
Qed.

Section CommFacts.
Context {F : Format}.

Lemma fmul_comm (x y : Sample) : x * y = y * x.
Proof.
  unfold fmul, SFmul.
  destruct x as [sx|sx| |sx mx ex], y as [sy|sy| |sy my ey];
    rewrite ?(xorb_comm sx sy); try reflexivity.
  rewrite (Pos.mul_comm mx my), (Z.add_comm ex ey). reflexivity.
Qed.

End CommFacts.

(** X19. [Highpass2] of DoubleLoopCymbal is the highpass [SVF] of
    GrowlSynth at a fixed resonance: for a [Q] with [1 / Q = k]
    ([k = 0.7071067811865476]), both return the same sample and leave
    the same two state values, for every input, cutoff and state. *)
Theorem Highpass2_is_SVF_highpass :
  forall (F : Format) (tan : Sample -> Sample) (ic1eq ic2eq input cutoff Q gainAmp : Sample),
    of_Z 1 / Q = DoubleLoopCymbal.Highpass2.k ->
    let hp :=
      DoubleLoopCymbal.Highpass2.process tan
        {| DoubleLoopCymbal.Highpass2.ic1eq := ic1eq;
           DoubleLoopCymbal.Highpass2.ic2eq := ic2eq |} input cutoff in
    GrowlSynth.SVF.process tan GrowlSynth.SVFTool.highpass
      {| GrowlSynth.SVF.s1 := ic1eq; GrowlSynth.SVF.s2 := ic2eq |} input cutoff Q gainAmp
    = (hp.1, {| GrowlSynth.SVF.s1 := DoubleLoopCymbal.Highpass2.ic1eq hp.2;
                GrowlSynth.SVF.s2 := DoubleLoopCymbal.Highpass2.ic2eq hp.2 |}).
Proof.
  intros F tan ic1eq ic2eq input cutoff Q gainAmp HQ hp. subst hp.
  unfold GrowlSynth.SVF.process, DoubleLoopCymbal.Highpass2.process.
  unfold GrowlSynth.SVF.k, GrowlSynth.SVF.g, GrowlSynth.SVF.A, DoubleLoopCymbal.Highpass2.g.
  cbn [GrowlSynth.SVF.s1 GrowlSynth.SVF.s2 DoubleLoopCymbal.Highpass2.ic1eq
       DoubleLoopCymbal.Highpass2.ic2eq fst snd].
  rewrite HQ.
  rewrite (fmul_comm (clamp cutoff GrowlSynth.minCutoff GrowlSynth.nyquist) GrowlSynth.pi).
  reflexivity.
Qed.

Section ChainFacts.
Context {F : Format}.
Import DoubleLoopCymbal.

Lemma notch_loop_none (notchMix notchNarrowness : Sample) (l : list nat) :
  fold_left (DoubleLoopCymbal.SerialAllpass.notch_step notchMix notchNarrowness) l None = None.
Proof. induction l as [|i l IH]; [reflexivity | exact IH]. Qed.

Lemma allpass_step_notch (a b c d e f g : Sample) (x x' : Sample)
  (s s' : SerialAllpass.t) (lerp : Sample -> Sample -> Sample -> Sample) (idx : nat) :
  DoubleLoopCymbal.SerialAllpass.allpass_step lerp a b c d e f g (Some (x, s)) idx = Some (x', s') ->
  SerialAllpass.notch s' = SerialAllpass.notch s.
Proof.
  unfold DoubleLoopCymbal.SerialAllpass.allpass_step. cbn [mbind option_bind].
  destruct (SerialAllpass.lowpass s !! idx) as [lp|]; [|discriminate].
  cbn [mbind option_bind].
  destruct (SerialAllpass.highpass s !! idx) as [hp|]; [|discriminate].
  cbn [mbind option_bind].
  destruct (SerialAllpass.buffer s !! idx) as [bf|]; [|discriminate].
  cbn [mbind option_bind].
  destruct (SerialAllpass.delay s !! idx) as [dl|]; [|discriminate].
  cbn [mbind option_bind].
  destruct (SerialAllpass.timeInSamples s !! idx) as [tm|]; [|discriminate].
  cbn [mbind option_bind].
  destruct (EmaHighShelf.process _ _ _ _ _) as [x0 lp'].
  destruct (EmaLowShelf.process _ _ _ _ _) as [x1 hp'].
  destruct (Delay.process _ _ _) as [[y d']|]; [|discriminate].
  cbn [mbind option_bind]. intros [= _ <-]. reflexivity.
Qed.

Lemma allpass_loop_notch (a b c d e f g : Sample)
  (lerp : Sample -> Sample -> Sample -> Sample) (l : list nat) (x x' : Sample)
  (s s' : SerialAllpass.t) :
  fold_left (DoubleLoopCymbal.SerialAllpass.allpass_step lerp a b c d e f g) l (Some (x, s)) = Some (x', s') ->
  SerialAllpass.notch s' = SerialAllpass.notch s.
Proof.
  revert x s. induction l as [|i l IH]; intros x s H.
  - injection H as _ <-. reflexivity.
  - cbn [fold_left] in H.
    destruct (DoubleLoopCymbal.SerialAllpass.allpass_step lerp a b c d e f g (Some (x, s)) i) as [[x1 s1]|] eqn:E.
    + rewrite (IH x1 s1 H). eapply allpass_step_notch, E.
    + assert (forall l, fold_left (DoubleLoopCymbal.SerialAllpass.allpass_step lerp a b c d e f g) l None = None) as Hn
        by (intros l0; induction l0; [reflexivity | assumption]).
      rewrite Hn in H. discriminate.
Qed.

(** The notch loop leaves the array when it is asked for more filters
    than the chain has. *)
Lemma notch_loop_overrun (notchMix notchNarrowness : Sample) (a k : nat)
  (x : Sample) (s : SerialAllpass.t) :
  (a <= length (SerialAllpass.notch s) < a + k)%nat ->
  fold_left (DoubleLoopCymbal.SerialAllpass.notch_step notchMix notchNarrowness) (seq a k) (Some (x, s)) = None.
Proof.
  revert a x s. induction k as [|k IH]; intros a x s Hr; [lia|].
  cbn [seq fold_left]. unfold DoubleLoopCymbal.SerialAllpass.notch_step at 2. cbn [mbind option_bind].
  destruct (SerialAllpass.notch s !! a) as [nf|] eqn:E.
  - cbn [mbind option_bind].
    destruct (AdaptiveNotchCPZ.process nf x notchNarrowness) as [y nf'].
    apply IH. cbn [SerialAllpass.notch]. rewrite length_insert.
    apply lookup_lt_Some in E. lia.
  - apply notch_loop_none.
Qed.

End ChainFacts.

(** X20. [SerialAllpass::process] does not check [nNotch] against the
    number of notch filters of the chain: with [nNotch] above
    [nAdaptiveNotch] the second loop reads [notch[nAdaptiveNotch]],
    outside the array, whatever the signal and the other arguments. *)
Theorem SerialAllpass_process_notch_overrun :
  forall (F : Format) (lerp : Sample -> Sample -> Sample -> Sample)
    (s : DoubleLoopCymbal.SerialAllpass.t)
    (input highShelfCut highShelfGain lowShelfCut lowShelfGain gain pitchRatio
       timeModAmount : Sample)
    (nNotch : nat) (notchMix notchNarrowness : Sample),
    (length (DoubleLoopCymbal.SerialAllpass.notch s) < nNotch)%nat ->
    DoubleLoopCymbal.SerialAllpass.process lerp s input highShelfCut highShelfGain lowShelfCut
      lowShelfGain gain pitchRatio timeModAmount nNotch notchMix notchNarrowness
    = None.
Proof.
  intros F lerp s input a b c d e f g nNotch notchMix notchNarrowness Hn.
  unfold DoubleLoopCymbal.SerialAllpass.process.
  destruct (fold_left (DoubleLoopCymbal.SerialAllpass.allpass_step lerp a b c d e f g) _ _) as [[x s']|] eqn:E.
  - apply notch_loop_overrun. rewrite (allpass_loop_notch _ _ _ _ _ _ _ _ _ _ _ _ _ E). lia.
  - apply notch_loop_none.
Qed.

Section ChainNanFacts.
Context {F : Format}.
Import DoubleLoopCymbal.

(** The [std::lerp] of libstdc++ and libc++ returns NaN between NaNs. *)
Lemma Std_lerp_nan (t : Sample) : Std.lerp S754_nan S754_nan t = S754_nan.
Proof.
  unfold Std.lerp. cbn [fle SFleb SFcompare andb orb].
  destruct (t =? of_Z 1); [reflexivity|].
  rewrite fsub_nan_l, fmul_nan_r, fadd_nan_l.
  destruct (Bool.eqb _ _); reflexivity.
Qed.

Lemma allpass_loop_none (lerp : Sample -> Sample -> Sample -> Sample)
  (a b c d e f g : Sample) (l : list nat) :
  fold_left (SerialAllpass.allpass_step lerp a b c d e f g) l None = None.
Proof. induction l as [|i l IH]; [reflexivity | exact IH]. Qed.

(** A NaN that enters a stage comes to the delay as the delay time. *)
Lemma allpass_step_nan (lerp : Sample -> Sample -> Sample -> Sample)
  (hsc hsg lsc lsg gain pitchRatio timeModAmount : Sample) (s : SerialAllpass.t)
  (idx : nat) :
  lerp S754_nan S754_nan hsg = S754_nan ->
  lerp S754_nan S754_nan lsg = S754_nan ->
  SerialAllpass.allpass_step lerp hsc hsg lsc lsg gain pitchRatio timeModAmount
    (Some (S754_nan, s)) idx = None.
Proof.
  intros Hh Hl. unfold SerialAllpass.allpass_step. cbn [mbind option_bind].
  destruct (SerialAllpass.lowpass s !! idx) as [lp|]; [|reflexivity].
  cbn [mbind option_bind].
  destruct (SerialAllpass.highpass s !! idx) as [hp|]; [|reflexivity].
  cbn [mbind option_bind].
  destruct (SerialAllpass.buffer s !! idx) as [b|]; [|reflexivity].
  cbn [mbind option_bind].
  destruct (SerialAllpass.delay s !! idx) as [d|]; [|reflexivity].
  cbn [mbind option_bind].
  destruct (SerialAllpass.timeInSamples s !! idx) as [time|]; [|reflexivity].
  cbn [mbind option_bind].
  unfold EmaHighShelf.process, EmaLowShelf.process.
  repeat first [rewrite fmul_nan_r | rewrite fsub_nan_l | rewrite fadd_nan_r
                | rewrite fsub_nan_r | rewrite Hh | rewrite Hl
                | progress cbn [fabs SFabs]].
  unfold Delay.process. rewrite (clampedTime_nan _ S754_nan eq_refl). reflexivity.
Qed.

End ChainNanFacts.

(** X22. A NaN input sample makes [SerialAllpass::process] undefined: it
    passes the two shelving filters of the first stage and reaches
    [Delay::process] as the delay time, which is converted to [int];
    for a chain of at least one stage and a [std::lerp] that returns NaN
    between NaNs, whatever the other arguments and the state. *)
Theorem SerialAllpass_process_nan_input :
  forall (F : Format) (lerp : Sample -> Sample -> Sample -> Sample)
    (s : DoubleLoopCymbal.SerialAllpass.t)
    (highShelfCut highShelfGain lowShelfCut lowShelfGain gain pitchRatio
       timeModAmount : Sample)
    (nNotch : nat) (notchMix notchNarrowness : Sample),
    (0 < length (DoubleLoopCymbal.SerialAllpass.buffer s))%nat ->
    lerp S754_nan S754_nan highShelfGain = S754_nan ->
    lerp S754_nan S754_nan lowShelfGain = S754_nan ->
    DoubleLoopCymbal.SerialAllpass.process lerp s S754_nan highShelfCut highShelfGain
      lowShelfCut lowShelfGain gain pitchRatio timeModAmount nNotch notchMix
      notchNarrowness
    = None.
Proof.
  intros F lerp s hsc hsg lsc lsg gain pitchRatio timeModAmount nNotch notchMix
    notchNarrowness Hlen Hh Hl.
  unfold DoubleLoopCymbal.SerialAllpass.process.
  destruct (length (DoubleLoopCymbal.SerialAllpass.buffer s)) as [|n]; [lia|].
  cbn [seq fold_left].
  rewrite (allpass_step_nan lerp hsc hsg lsc lsg gain pitchRatio timeModAmount s 0 Hh Hl).
  rewrite allpass_loop_none. apply notch_loop_none.
Qed.

Section EnvelopeResetFacts.
Context {F : Format}.
Import DoubleLoopCymbal.

Lemma fmul_zero_r (x : Sample) :
  isfinite x = true -> is_zero (x * of_Z 0) = true.
Proof. destruct x as [s|s| |s m e]; intros H; try discriminate; reflexivity. Qed.

Lemma fadd_zero_r (x z : Sample) :
  isfinite x = true -> is_zero z = true -> (x + z =? x) = true.
Proof.
  destruct x as [s|s| |s m e]; intros Hx; try discriminate;
    destruct z as [sz|sz| |sz mz ez]; intros Hz; try discriminate.
  - destruct s, sz; reflexivity.
  - cbn [fadd SFadd]. apply feq_refl. reflexivity.
Qed.

Lemma isfinite_zero (z : Sample) : is_zero z = true -> isfinite z = true.
Proof. destruct z; intros H; try discriminate; reflexivity. Qed.

Lemma fsub_finite_r (x y : Sample) :
  isfinite (x - y) = true -> isfinite y = true.
Proof.
  destruct x as [sx|sx| |sx mx ex], y as [sy|sy| |sy my ey]; intros H;
    try reflexivity; try discriminate H.
  all: cbn in H; destruct sx, sy; discriminate H.
Qed.

(** The decay from a value that is finite, with the coefficient zero. *)
Lemma ExpDSREnvelope_flat (k : nat) (v a o : Sample) :
  isfinite v = true -> isfinite o = true ->
  Forall (fun y => (y =? o) = true)
    (ExpDSREnvelope_outputs k
       {| ExpDSREnvelope.value := v; ExpDSREnvelope.alphaD := of_Z 0;
          ExpDSREnvelope.alphaR := a; ExpDSREnvelope.offset := o;
          ExpDSREnvelope.state := ExpDSREnvelope.decay |}).1.
Proof.
  revert v. induction k as [|k IH]; intros v Hv Ho; [constructor|].
  cbn [ExpDSREnvelope_outputs]. unfold ExpDSREnvelope.process.
  cbn [ExpDSREnvelope.state ExpDSREnvelope.value ExpDSREnvelope.alphaD
       ExpDSREnvelope.alphaR ExpDSREnvelope.offset].
  pose proof (fmul_zero_r v Hv) as Hz.
  specialize (IH (v * of_Z 0) (isfinite_zero _ Hz) Ho).
  destruct (ExpDSREnvelope_outputs k _) as [ys s2]. cbn [fst] in *.
  constructor; [apply fadd_zero_r; assumption | exact IH].
Qed.

Lemma ExpDSREnvelope_silent (k : nat) (o : Sample) :
  (ExpDSREnvelope_outputs k
     {| ExpDSREnvelope.value := of_Z 0; ExpDSREnvelope.alphaD := of_Z 0;
        ExpDSREnvelope.alphaR := of_Z 0; ExpDSREnvelope.offset := o;
        ExpDSREnvelope.state := ExpDSREnvelope.release |}).1
  = replicate k (of_Z 0).
Proof.
  induction k as [|k IH]; [reflexivity|].
  cbn [ExpDSREnvelope_outputs]. unfold ExpDSREnvelope.process.
  cbn [ExpDSREnvelope.state ExpDSREnvelope.value ExpDSREnvelope.alphaD
       ExpDSREnvelope.alphaR ExpDSREnvelope.offset].
  change (of_Z 0 * of_Z 0) with (of_Z 0).
  destruct (ExpDSREnvelope_outputs k _) as [ys s2]. cbn [fst] in *.
  cbn [replicate]. rewrite IH. reflexivity.
Qed.

Lemma ExpADEnvelope_rest_step (s : ExpADEnvelope.t) :
  ExpADEnvelope.valueD s = of_Z 0 -> ExpADEnvelope.alphaD s = of_Z 0 ->
  ExpADEnvelope.valueD (ExpADEnvelope.process s).2 = of_Z 0
  /\ ExpADEnvelope.alphaD (ExpADEnvelope.process s).2 = of_Z 0.
Proof.
  intros Hv Ha. unfold ExpADEnvelope.process. cbn [snd ExpADEnvelope.valueD
    ExpADEnvelope.alphaD]. rewrite Hv, Ha. split; reflexivity.
Qed.

Lemma ExpADEnvelope_rest_run (k : nat) (s : ExpADEnvelope.t) :
  ExpADEnvelope.valueD s = of_Z 0 -> ExpADEnvelope.alphaD s = of_Z 0 ->
  ExpADEnvelope.valueD (ExpADEnvelope_after k s) = of_Z 0
  /\ ExpADEnvelope.alphaD (ExpADEnvelope_after k s) = of_Z 0.
Proof.
  intros Hv Ha. induction k as [|k [IHv IHa]]; [split; assumption|].
  unfold ExpADEnvelope_after. cbn [Nat.iter].
  apply ExpADEnvelope_rest_step; assumption.
Qed.

End EnvelopeResetFacts.

(** X23. [ExpDSREnvelope::reset] also clears the two coefficients that
    [setTime] computed: a reset envelope returns [+0] at every call, and
    after [reset(); trigger(sustainLevel)] every call returns the
    sustain level at once, with no decay towards it (for a sustain level
    with [1 - sustainLevel] finite; [==] on the outputs). *)
Theorem ExpDSREnvelope_reset_clears_times :
  forall (F : Format) (pow : Sample -> Sample -> Sample)
    (s : DoubleLoopCymbal.ExpDSREnvelope.t)
    (decayTimeInSamples releaseTimeInSamples sustainLevel : Sample) (k : nat),
    isfinite (of_Z 1 - sustainLevel) = true ->
    let cleared :=
      DoubleLoopCymbal.ExpDSREnvelope.reset
        (DoubleLoopCymbal.ExpDSREnvelope.setTime pow s decayTimeInSamples
           releaseTimeInSamples) in
    (ExpDSREnvelope_outputs k cleared).1 = replicate k (of_Z 0)
    /\ Forall (fun y => (y =? sustainLevel) = true)
         (ExpDSREnvelope_outputs k
            (DoubleLoopCymbal.ExpDSREnvelope.trigger cleared sustainLevel)).1.
Proof.
  intros F pow s dt rt sustainLevel k Hfin cleared. split.
  - apply ExpDSREnvelope_silent.
  - apply ExpDSREnvelope_flat; [exact Hfin|].
    apply (fsub_finite_r (of_Z 1)), Hfin.
Qed.

(** X24. A reset [ExpADEnvelope] stays terminated: after [reset()],
    [isTerminated()] holds after every number of calls of [process],
    whatever the smoothing and the velocity. *)
Theorem ExpADEnvelope_reset_stays_terminated :
  forall (F : Format) (s : DoubleLoopCymbal.ExpADEnvelope.t) (k : nat),
    DoubleLoopCymbal.ExpADEnvelope.isTerminated
      (ExpADEnvelope_after k (DoubleLoopCymbal.ExpADEnvelope.reset s)) = true.
Proof.
  intros F s k.
  destruct (ExpADEnvelope_rest_run k (DoubleLoopCymbal.ExpADEnvelope.reset s)
              eq_refl eq_refl) as [Hv _].
  unfold DoubleLoopCymbal.ExpADEnvelope.isTerminated. rewrite Hv.
  destruct F; vm_compute; reflexivity.
Qed.

(** * Instances of the properties above *)

Section HistoryExamples.
#[local] Existing Instance binary32.
Import DoubleLoopCymbal.

(** The witness of X2: the call on [example_delay] is defined for the
    delay time 3 and undefined for a NaN. *)
Lemma Delay_process_in_bounds_witness :
  is_Some (Delay.process example_delay (of_Z 4) (of_Z 3))
  /\ Delay.process example_delay (of_Z 4) S754_nan = None.
Proof.
  assert (5 <= Z.of_nat (length (Delay.buf example_delay)) <= 2 ^ 24)%Z as Hs
    by (simpl; lia).
  assert (0 <= Delay.wptr example_delay)%Z as Hw by (simpl; lia).
  assert (valid (of_Z 3) = true) as Hv by (vm_compute; reflexivity).
  destruct (Delay_process_in_bounds binary32 example_delay (of_Z 4) (of_Z 3) Hs Hw Hv)
    as [[_ Hd] _].
  destruct (Delay_process_in_bounds binary32 example_delay (of_Z 4) S754_nan Hs Hw eq_refl)
    as [[Hn _] _].
  split; [apply Hd; reflexivity|].
  destruct (Delay.process example_delay (of_Z 4) S754_nan) as [p|]; [|reflexivity].
  discriminate (Hn (ex_intro _ p eq_refl)).
Defined.

(** The witness of X1: after [reset()] and the inputs 1 and 2, the
    call [process(4, 3)] reads at [c = 2], where the input of two calls
    ago is 1 and the older ones are zero. *)
Lemma Delay_process_reads_history_witness :
  exists d1 d2,
    Delay_run (Delay.reset example_delay) [(of_Z 1, of_Z 3); (of_Z 2, of_Z 3)] = Some d1
    /\ Delay.process d1 (of_Z 4) (of_Z 3)
       = Some (lagrange3Interp (of_Z 1) (of_Z 0) (of_Z 0) (of_Z 0) (of_Z 0), d2).
Proof.
  assert (5 <= Z.of_nat (length (Delay.buf example_delay)) <= 2 ^ 24)%Z as Hs
    by (simpl; lia).
  assert (0 <= Delay.wptr example_delay)%Z as Hw by (simpl; lia).
  assert (usable_time (of_Z 3)) as Ht by (split; vm_compute; reflexivity).
  destruct (Delay_process_reads_history binary32 example_delay
              [(of_Z 1, of_Z 3); (of_Z 2, of_Z 3)] (of_Z 4) (of_Z 3) Hs Hw
              ltac:(repeat constructor; vm_compute; reflexivity) Ht)
    as (d1 & c & d2 & Hrun & Hc & _ & Hp).
  vm_compute in Hc. injection Hc as <-.
  exists d1, d2. split; [exact Hrun | exact Hp].
Defined.

End HistoryExamples.

Section LerpDelayExamples.
#[local] Existing Instance binary32.

(** The witness of X3: after [reset()] and the inputs 1 and 2,
    [process(4, 1.5)] returns [lerp(2, 1, 0.5)], with the [std::lerp] of
    libstdc++. *)
Lemma GrowlSynth_Delay_process_reads_history_witness :
  exists d1 d2,
    GrowlSynth_Delay_run Std.lerp (GrowlSynth.Delay.reset example_lerp_delay)
      [(of_Z 1, of_Z 1); (of_Z 2, of_Z 1)] = Some d1
    /\ GrowlSynth.Delay.process Std.lerp d1 (of_Z 4) (of_Z 3 / of_Z 2)
       = Some (Std.lerp (of_Z 2) (of_Z 1) (of_Z 1 / of_Z 2), d2).
Proof.
  assert (2 <= Z.of_nat (length (GrowlSynth.Delay.buf example_lerp_delay)) <= 2 ^ 24)%Z
    as Hs by (simpl; lia).
  assert (0 <= GrowlSynth.Delay.wptr example_lerp_delay
          < Z.of_nat (length (GrowlSynth.Delay.buf example_lerp_delay)))%Z
    as Hw by (simpl; lia).
  assert (usable_time (of_Z 3 / of_Z 2)) as Ht by (split; vm_compute; reflexivity).
  destruct (GrowlSynth_Delay_process_reads_history binary32 Std.lerp example_lerp_delay
              [(of_Z 1, of_Z 1); (of_Z 2, of_Z 1)] (of_Z 4) (of_Z 3 / of_Z 2) Hs Hw
              ltac:(repeat constructor; vm_compute; reflexivity) Ht)
    as (d1 & c & f & d2 & Hrun & Hc & _ & Hp).
  vm_compute in Hc. injection Hc as <- <-.
  exists d1, d2. split; [exact Hrun | exact Hp].
Defined.

(** The witness of X4: the call on [example_lerp_delay] is defined
    for the delay time 1.5 and undefined for a NaN. *)
Lemma GrowlSynth_Delay_process_in_bounds_witness :
  is_Some (GrowlSynth.Delay.process Std.lerp example_lerp_delay (of_Z 4) (of_Z 3 / of_Z 2))
  /\ GrowlSynth.Delay.process Std.lerp example_lerp_delay (of_Z 4) S754_nan = None.
Proof.
  assert (2 <= Z.of_nat (length (GrowlSynth.Delay.buf example_lerp_delay)) <= 2 ^ 24)%Z
    as Hs by (simpl; lia).
  assert (0 <= GrowlSynth.Delay.wptr example_lerp_delay
          < Z.of_nat (length (GrowlSynth.Delay.buf example_lerp_delay)))%Z
    as Hw by (simpl; lia).
  assert (valid (of_Z 3 / of_Z 2) = true) as Hv by (vm_compute; reflexivity).
  destruct (GrowlSynth_Delay_process_in_bounds binary32 Std.lerp example_lerp_delay
              (of_Z 4) (of_Z 3 / of_Z 2) Hs Hv) as [[_ Hd] _].
  destruct (GrowlSynth_Delay_process_in_bounds binary32 Std.lerp example_lerp_delay
              (of_Z 4) S754_nan Hs eq_refl) as [[Hn _] _].
  split; [apply Hd; split; [vm_compute; reflexivity | exact Hw]|].
  destruct (GrowlSynth.Delay.process Std.lerp example_lerp_delay (of_Z 4) S754_nan)
    as [p|]; [|reflexivity].
  destruct (Hn (ex_intro _ p eq_refl)) as [Hnan _]. discriminate Hnan.
Defined.

(** The witness of X5: [setup(2, 1)] shrinks the buffer of
    [example_lerp_delay] to 3 samples and leaves the write pointer at 6,
    where no call of [process] is defined. *)
Lemma GrowlSynth_Delay_setup_keeps_wptr_witness :
  let d' := {| GrowlSynth.Delay.wptr := 6; GrowlSynth.Delay.buf := replicate 3 (of_Z 0) |} in
  GrowlSynth.Delay.setup example_lerp_delay (of_Z 2) (of_Z 1) = Some d'
  /\ forall x t, GrowlSynth.Delay.process Std.lerp d' x t = None.
Proof.
  cbv zeta.
  assert (GrowlSynth.Delay.setup example_lerp_delay (of_Z 2) (of_Z 1)
          = Some {| GrowlSynth.Delay.wptr := 6;
                    GrowlSynth.Delay.buf := replicate 3 (of_Z 0) |}) as Hs
    by (vm_compute; reflexivity).
  split; [exact Hs|].
  destruct (GrowlSynth_Delay_setup_keeps_wptr binary32 example_lerp_delay _ (of_Z 2)
              (of_Z 1) Hs) as (_ & _ & _ & Hnone).
  intros x t. apply Hnone. vm_compute. discriminate.
Defined.

End LerpDelayExamples.

Section EnvelopeExamples.
#[local] Existing Instance binary32.
Import TestBedSynth.

(** The witness of X6: after [noteOn(3)] the envelope is attacking
    after two calls and decaying after three. *)
Lemma ADSREnvelope_attack_lasts_witness :
  let e := ADSREnvelope.noteOn (example_envelope ADSREnvelope.terminated (of_Z 0)) 3 in
  ADSREnvelope.state (ADSREnvelope_run example_processKp e [of_Z 1; of_Z 1]).2
  = ADSREnvelope.attack
  /\ ADSREnvelope.state (ADSREnvelope_run example_processKp e [of_Z 1; of_Z 1; of_Z 1]).2
     = ADSREnvelope.decay.
Proof.
  cbv zeta. split.
  - exact (ADSREnvelope_attack_lasts binary32 example_processKp
             (example_envelope ADSREnvelope.terminated (of_Z 0)) 3 [of_Z 1; of_Z 1]
             ltac:(lia)).
  - exact (ADSREnvelope_attack_lasts binary32 example_processKp
             (example_envelope ADSREnvelope.terminated (of_Z 0)) 3
             [of_Z 1; of_Z 1; of_Z 1] ltac:(lia)).
Defined.

(** The witness of X10: an attack of one sample. *)
Lemma ADSREnvelope_short_attack_witness :
  fmin (of_Z 1 / of_Z (1 / 2)) (of_Z 1) = of_Z 1
  /\ ADSREnvelope.state
       (ADSREnvelope.process example_processKp
          (ADSREnvelope.noteOn (example_envelope ADSREnvelope.terminated (of_Z 0)) 1)
          (of_Z 1)).2
     = ADSREnvelope.decay.
Proof.
  destruct (ADSREnvelope_short_attack binary32 example_processKp
              (example_envelope ADSREnvelope.terminated (of_Z 0)) (of_Z 1) 1 ltac:(lia))
    as [Hmin Hp].
  split; [exact Hmin|]. rewrite Hp. reflexivity.
Defined.

End EnvelopeExamples.

Section HoldExamples.
#[local] Existing Instance binary32.
Import DoubleLoopCymbal.

(** The witness of X17: three calls after [trigger(0.5)]. *)
Lemma ExpDecay_sustain_holds_witness :
  let held :=
    ExpDecay.trigger (ExpDecay.setTime (fun _ _ => of_Z 0) ExpDecay.init (of_Z 100) true)
      (of_Z 1 / of_Z 2) in
  valid (of_Z 1 / of_Z 2) = true
  /\ ExpDecay_outputs 3 held = (replicate 3 (of_Z 1 / of_Z 2), held).
Proof.
  assert (valid (of_Z 1 / of_Z 2) = true) as Hv by (vm_compute; reflexivity).
  split; [exact Hv|].
  apply (ExpDecay_sustain_holds binary32 (fun _ _ => of_Z 0) ExpDecay.init (of_Z 100)
           (of_Z 1 / of_Z 2) 3 Hv).
Defined.

(** The witness of X18: the target 0.5 at the rate 0. *)
Lemma ImmediateRateLimiter_rests_on_target_witness :
  GrowlSynth.ImmediateRateLimiter.process
    {| GrowlSynth.ImmediateRateLimiter.value := of_Z 1 / of_Z 2 |} (of_Z 1 / of_Z 2) (of_Z 0)
  = (of_Z 1 / of_Z 2, {| GrowlSynth.ImmediateRateLimiter.value := of_Z 1 / of_Z 2 |}).
Proof.
  exact (ImmediateRateLimiter_rests_on_target binary32 (of_Z 1 / of_Z 2) (of_Z 0)
           ltac:(vm_compute; reflexivity)).
Defined.

(** [example_setup_chain] is what [setup(200)] makes of
    [example_chain]. *)
Lemma example_setup_chain_reachable :
  SerialAllpass.setup example_chain (of_Z 200) = Some example_setup_chain.
Proof. vm_compute. reflexivity. Qed.

(** The witness of X20: [example_setup_chain] has one notch filter; the
    call with [nNotch = 1] returns, the same call with [nNotch = 2] does
    not. *)
Lemma SerialAllpass_process_notch_overrun_witness :
  length (SerialAllpass.notch example_setup_chain) = 1%nat
  /\ is_Some
       (SerialAllpass.process Std.lerp example_setup_chain (of_Z 1) (of_Z 1) (of_Z 1)
          (of_Z 1) (of_Z 1) (of_Z 1) (of_Z 1) (of_Z 0) 1 (of_Z 1) (of_Z 1))
  /\ SerialAllpass.process Std.lerp example_setup_chain (of_Z 1) (of_Z 1) (of_Z 1)
       (of_Z 1) (of_Z 1) (of_Z 1) (of_Z 1) (of_Z 0) 2 (of_Z 1) (of_Z 1)
     = None.
Proof.
  split; [reflexivity|].
  split; [eexists; vm_compute; reflexivity|].
  apply (SerialAllpass_process_notch_overrun binary32 Std.lerp example_setup_chain
           (of_Z 1) (of_Z 1) (of_Z 1) (of_Z 1) (of_Z 1) (of_Z 1) (of_Z 1) (of_Z 0) 2
           (of_Z 1) (of_Z 1)).
  simpl. lia.
Defined.

End HoldExamples.

Section ResonanceExamples.
#[local] Existing Instance binary64.

(** The witness of X19: in [double], [Q = 1.414213562373095] has
    [1 / Q = k]. *)
Lemma Highpass2_is_SVF_highpass_witness :
  let Q := S754_finite false 6369051672525772 (-52) in
  let hp :=
    DoubleLoopCymbal.Highpass2.process (fun x => x)
      {| DoubleLoopCymbal.Highpass2.ic1eq := of_Z 0;
         DoubleLoopCymbal.Highpass2.ic2eq := of_Z 0 |} (of_Z 1) (of_Z 1 / of_Z 10) in
  of_Z 1 / Q = DoubleLoopCymbal.Highpass2.k
  /\ (GrowlSynth.SVF.process (fun x => x) GrowlSynth.SVFTool.highpass
        {| GrowlSynth.SVF.s1 := of_Z 0; GrowlSynth.SVF.s2 := of_Z 0 |}
        (of_Z 1) (of_Z 1 / of_Z 10) Q (of_Z 1)).1
     = hp.1.
Proof.
  cbv zeta.
  assert (of_Z 1 / S754_finite false 6369051672525772 (-52) = DoubleLoopCymbal.Highpass2.k)
    as HQ by (vm_compute; reflexivity).
  split; [exact HQ|].
  rewrite (Highpass2_is_SVF_highpass binary64 (fun x => x) (of_Z 0) (of_Z 0) (of_Z 1)
             (of_Z 1 / of_Z 10) (S754_finite false 6369051672525772 (-52)) (of_Z 1) HQ).
  reflexivity.
Defined.

End ResonanceExamples.

Section PoolExamples.
#[local] Existing Instance binary32.
Import TestBedSynth.

(** The witness of X21: in [example_pool] the second voice carries
    the id 62 and the first is busy, so a note 62 starts on voice 1. *)
Lemma noteOn_reuses_free_or_same_id_witness :
  DSPCore.noteOn_voice example_pool 3 62 = Some 1%nat
  /\ DSPCore.steals example_pool 3 62 = false.
Proof.
  apply (noteOn_reuses_free_or_same_id example_pool 3 62 1
           (example_voice release 62 ADSREnvelope.release (of_Z 1 / of_Z 4))).
  - lia.
  - reflexivity.
  - left. reflexivity.
  - intros j Hj. exists (example_voice active 60 ADSREnvelope.decay (of_Z 1)).
    destruct j as [|j]; [|lia].
    split; [reflexivity|]. split; simpl; [discriminate | lia].
Defined.

(** The witness of X9: a note 67 on the three voices of
    [example_pool]. *)
Lemma noteOn_voice_in_range_witness :
  exists v : nat, DSPCore.noteOn_voice example_pool 3 67 = Some v /\ (v < 3)%nat.
Proof.
  destruct (noteOn_voice_in_range binary32 unit example_pool 3 67 ltac:(simpl; lia)
              ltac:(unfold Sort.S_threshold; lia))
    as (v & n & Hv & Hlt & _).
  exists v. split; [exact Hv | exact Hlt].
Defined.


(** The witness of X12: the first voice of [example_pool]
    fades into the two frames of [example_idle_transition]. *)
Lemma fillTransitionBuffer_fades_voice_out_witness :
  exists notes' tb',
    DSPCore.fillTransitionBuffer example_processKp unit (fun _ => of_Z 1 / of_Z 2)
      (fun _ _ => of_Z 1 / of_Z 2) (fun _ _ => of_Z 0) (fun _ _ => [of_Z 0; of_Z 1])
      (fun _ => of_Z 0) example_osc_process Std.lerp 2 0 2
      (of_Z 48000) tt example_pool example_idle_transition 0
    = Some (notes',
            {| DSPCore.isTransitioning := true; DSPCore.trIndex := 1;
               DSPCore.trStop := 0; DSPCore.transitionBuffer := tb' |})
    /\ length tb' = 2%nat.
Proof.
  assert ({p | process_repeat example_processKp unit (fun _ => of_Z 1 / of_Z 2)
                 (fun _ _ => of_Z 1 / of_Z 2) (fun _ _ => of_Z 0)
                 (fun _ _ => [of_Z 0; of_Z 1]) (fun _ => of_Z 0) example_osc_process
                 Std.lerp 2 0 2 2
                 (example_voice active 60 ADSREnvelope.decay (of_Z 1)) (of_Z 48000) tt
               = Some p}) as [[frames note'] Hrep]
    by (eexists; vm_compute; reflexivity).
  destruct (fillTransitionBuffer_fades_voice_out example_processKp unit
              (fun _ => of_Z 1 / of_Z 2) (fun _ _ => of_Z 1 / of_Z 2) (fun _ _ => of_Z 0)
              (fun _ _ => [of_Z 0; of_Z 1]) (fun _ => of_Z 0) example_osc_process
              Std.lerp 2 0 2 example_pool example_idle_transition 0
              (example_voice active 60 ADSREnvelope.decay (of_Z 1)) note' (of_Z 48000) tt
              frames ltac:(simpl; lia) ltac:(simpl; lia) eq_refl Hrep)
    as [_ Hfill].
  destruct (Hfill ltac:(discriminate)) as (tb' & Hf & Hlen & _).
  exists (<[0%nat := note']> example_pool), tb'. split; [exact Hf | exact Hlen].
Defined.

(** The witness of X13: the increment [-2^-25] and a table of
    two elements. *)
Lemma EasyLfo_process_reads_past_table_witness :
  wrapped_phase (of_Z 0) (minus_pow2 25) = of_Z 1
  /\ EasyLfo.process example_processKp
       {| EasyLfo.phase := of_Z 0; EasyLfo.smoother := DoubleEMAFilter.init |}
       (minus_pow2 25) (of_Z 1 / of_Z 2) [of_Z 0; of_Z 1]
     = None.
Proof.
  destruct (EasyLfo_process_reads_past_table example_processKp DoubleEMAFilter.init
              (of_Z 1 / of_Z 2) [of_Z 0; of_Z 1] 25 ltac:(lia) ltac:(simpl; lia))
    as (Hphase & _ & _ & Hnone).
  split; [exact Hphase | exact Hnone].
Defined.

End PoolExamples.

Section EnvelopeResetExamples.
#[local] Existing Instance binary32.
Import DoubleLoopCymbal.

(** The witness of X22: with the [std::lerp] of libstdc++, the call on
    [example_setup_chain] returns for the input 1 and does not for a
    NaN. *)
Lemma SerialAllpass_process_nan_input_witness :
  is_Some
    (SerialAllpass.process Std.lerp example_setup_chain (of_Z 1) (of_Z 1) (of_Z 1)
       (of_Z 1) (of_Z 1) (of_Z 1) (of_Z 1) (of_Z 0) 1 (of_Z 1) (of_Z 1))
  /\ SerialAllpass.process Std.lerp example_setup_chain S754_nan (of_Z 1) (of_Z 1)
       (of_Z 1) (of_Z 1) (of_Z 1) (of_Z 1) (of_Z 0) 1 (of_Z 1) (of_Z 1)
     = None.
Proof.
  split; [eexists; vm_compute; reflexivity|].
  apply (SerialAllpass_process_nan_input binary32 Std.lerp example_setup_chain (of_Z 1)
           (of_Z 1) (of_Z 1) (of_Z 1) (of_Z 1) (of_Z 1) (of_Z 0) 1 (of_Z 1) (of_Z 1)).
  - simpl. lia.
  - apply Std_lerp_nan.
  - apply Std_lerp_nan.
Defined.

(** The witness of X23: the sustain level 1/2 and three calls. *)
Lemma ExpDSREnvelope_reset_clears_times_witness :
  let cleared :=
    ExpDSREnvelope.reset
      (ExpDSREnvelope.setTime (fun _ _ => of_Z 1 / of_Z 2) ExpDSREnvelope.init
         (of_Z 100) (of_Z 100)) in
  isfinite (of_Z 1 - of_Z 1 / of_Z 2) = true
  /\ (ExpDSREnvelope_outputs 3 cleared).1 = replicate 3 (of_Z 0)
  /\ Forall (fun y => (y =? of_Z 1 / of_Z 2) = true)
       (ExpDSREnvelope_outputs 3 (ExpDSREnvelope.trigger cleared (of_Z 1 / of_Z 2))).1.
Proof.
  assert (isfinite (of_Z 1 - of_Z 1 / of_Z 2) = true) as Hfin
    by (vm_compute; reflexivity).
  split; [exact Hfin|].
  apply (ExpDSREnvelope_reset_clears_times binary32 (fun _ _ => of_Z 1 / of_Z 2)
           ExpDSREnvelope.init (of_Z 100) (of_Z 100) (of_Z 1 / of_Z 2) 3 Hfin).
Defined.

End EnvelopeResetExamples.
